(** * SinglyLinkedList.h: a heap-level model of the container and its contract

    The header implements a singly linked list whose nodes are owned through
    [std::unique_ptr<Node>] links, with a raw [tail_] pointer and a cached
    [list_size].  The development below embeds the class over an explicit
    heap (a finite map from addresses to nodes), so that the pointer
    structure the class maintains is visible: the member functions are
    written in a small state-and-exception monad, statement by statement. *)

From stdpp Require Import gmap list strings pretty.
From Stdlib Require Import ZArith Lia Ascii.

Local Open Scope Z_scope.

(** ** Memory model *)

(** Pointers ([Node*] and the pointer held by a [unique_ptr<Node>]) are
    machine words; [nullptr] is 0.  [std::size_t] is a word of the same
    width. *)
Definition nullptr : Z := 0.
Definition word_modulus : Z := 2 ^ 64.

(** [struct Node { T data; std::unique_ptr<Node> next; }] *)
Record Node (T : Type) : Type := mkNode { data : T; next : Z }.
Arguments mkNode {T} _ _.
Arguments data {T} _.
Arguments next {T} _.

Abbreviation heap T := (gmap Z (Node T)).

(** The three data members of the class. *)
Record SinglyLinkedList : Type := mkList {
  head_ : Z;      (* std::unique_ptr<Node> head_ *)
  tail_ : Z;      (* Node *tail_ *)
  list_size : Z   (* std::size_t list_size *)
}.

(** Storage of an object whose constructor has not run yet. *)
Definition raw_object : SinglyLinkedList := mkList nullptr nullptr 0.

(** A member function runs on the object ([self], the target of [this])
    and the free store ([mem]). *)
Record state (T : Type) : Type := mkState {
  self : SinglyLinkedList;
  mem : gmap Z (Node T)
}.
Arguments mkState {T} _ _.
Arguments self {T} _.
Arguments mem {T} _.

(** The exceptions the header and [std::make_unique] can raise, with the
    text that [what()] returns. *)
Inductive exn : Type :=
| out_of_range (what : string)
| invalid_argument (what : string)
| bad_alloc.

(** The result of a call: normal return, an exception (with the state it
    leaves behind), undefined behaviour (a null or dangling pointer is
    dereferenced or deleted), or a walk that does not end. *)
Inductive outcome (T A : Type) : Type :=
| Ok (a : A) (s : state T)
| Throw (e : exn) (s : state T)
| Undefined
| Diverges.
Arguments Ok {T A} _ _.
Arguments Throw {T A} _ _.
Arguments Undefined {T A}.
Arguments Diverges {T A}.

(** The number of live nodes bounds every walk along [next] links that
    terminates: a longer walk has met some node twice and runs forever. *)
Definition live_nodes {T} (h : heap T) : nat := size h.

(** [operator new]: the lowest free non-null address, [None] ([bad_alloc])
    when it does not fit a pointer. *)
Definition alloc {T} (h : heap T) : option Z :=
  match List.find (λ a, bool_decide (h !! a = None))
                  (Z.of_nat <$> seq 1 (S (live_nodes h))) with
  | Some a => if decide (a < word_modulus) then Some a else None
  | None => None
  end.

(** What destroying a [unique_ptr<Node>] does: [delete p] runs [~Node],
    whose implicit body destroys the member [next] (so deletes the next node,
    and so on down the chain) before the storage of [p] is given back.
    [released] lists the addresses in the order their storage is released,
    [depth] is the number of [delete] calls nested inside one another. *)
Record destroyed (T : Type) : Type := mkDestroyed {
  heap_after : gmap Z (Node T);
  released : list Z;
  depth : nat
}.
Arguments mkDestroyed {T} _ _ _.
Arguments heap_after {T} _.
Arguments released {T} _.
Arguments depth {T} _.

Fixpoint destroy {T} (fuel : nat) (p : Z) (h : heap T) : option (destroyed T) :=
  if decide (p = nullptr) then Some (mkDestroyed h [] 0%nat)
  else match fuel with
       | O => None
       | S fuel' =>
           match h !! p with
           | None => None
           | Some n =>
               match destroy fuel' (next n) h with
               | None => None
               | Some r =>
                   Some (mkDestroyed (delete p (heap_after r))
                                     (released r ++ [p])
                                     (S (depth r)))
               end
           end
       end.

(** ** The monad of member functions *)

Module SLL.
Section WithElement.
Context {T : Type}.

Definition M (A : Type) : Type := state T → outcome T A.

Definition ret {A} (a : A) : M A := λ s, Ok a s.

Definition bind {A B} (m : M A) (k : A → M B) : M B :=
  λ s, match m s with
       | Ok a s' => k a s'
       | Throw e s' => Throw e s'
       | Undefined => Undefined
       | Diverges => Diverges
       end.

Definition throw {A} (e : exn) : M A := λ s, Throw e s.
Definition diverges {A} : M A := λ _, Diverges.

Notation "'let*' x := m 'in' k" := (bind m (λ x, k))
  (at level 10, x name, m at level 100, k at level 200).
Notation "m >> k" := (bind m (λ _, k))
  (at level 100, k at level 200, right associativity).

(** Data members. *)
Definition get_head : M Z := λ s, Ok (head_ (self s)) s.
Definition get_tail : M Z := λ s, Ok (tail_ (self s)) s.
Definition get_size : M Z := λ s, Ok (list_size (self s)) s.
Definition set_head (p : Z) : M unit :=
  λ s, Ok tt (mkState (mkList p (tail_ (self s)) (list_size (self s))) (mem s)).
Definition set_tail (p : Z) : M unit :=
  λ s, Ok tt (mkState (mkList (head_ (self s)) p (list_size (self s))) (mem s)).
Definition set_size (n : Z) : M unit :=
  λ s, Ok tt (mkState (mkList (head_ (self s)) (tail_ (self s)) n) (mem s)).

(** [++list_size] and [--list_size] on [std::size_t]. *)
Definition incr_size : M unit :=
  let* n := get_size in set_size ((n + 1) mod word_modulus).
Definition decr_size : M unit :=
  let* n := get_size in set_size ((n - 1) mod word_modulus).

(** [p->data], [p->next]: [p] must point to a live node. *)
Definition load (p : Z) : M (Node T) :=
  λ s, match mem s !! p with
       | Some n => Ok n s
       | None => Undefined
       end.
Definition store_next (p q : Z) : M unit :=
  λ s, match mem s !! p with
       | Some n => Ok tt (mkState (self s) (<[p := mkNode (data n) q]> (mem s)))
       | None => Undefined
       end.

(** [std::make_unique<Node>(value)]: a new node with a null [next]. *)
Definition make_unique (value : T) : M Z :=
  λ s, match alloc (mem s) with
       | Some a => Ok a (mkState (self s) (<[a := mkNode value nullptr]> (mem s)))
       | None => Throw bad_alloc s
       end.

(** [delete p] for the pointer given up by a [unique_ptr]; deleting a
    dangling pointer, or a chain that does not end, is undefined. *)
Definition delete_chain (p : Z) : M unit :=
  λ s, match destroy (live_nodes (mem s)) p (mem s) with
       | Some r => Ok tt (mkState (self s) (heap_after r))
       | None => Undefined
       end.

(** The [unique_ptr<Node>] objects that live in the structure: [head_] and
    the [next] member of a node. *)
Inductive place : Type := Head | Next (p : Z).

Definition get (u : place) : M Z :=
  match u with
  | Head => get_head
  | Next p => let* n := load p in ret (next n)
  end.
Definition put (u : place) (q : Z) : M unit :=
  match u with
  | Head => set_head q
  | Next p => store_next p q
  end.

(** [u.release()], [u.reset(q)] and [u = std::move(v)]. *)
Definition release (u : place) : M Z :=
  let* p := get u in put u nullptr >> ret p.
Definition reset (u : place) (q : Z) : M unit :=
  let* old := get u in put u q >> delete_chain old.
Definition move_assign (u v : place) : M unit :=
  let* q := release v in reset u q.

(** ** Lifecycle *)

(** [SinglyLinkedList() noexcept : head_(nullptr), tail_(nullptr), list_size(0)] *)
Definition default_ctor : M unit :=
  λ s, Ok tt (mkState (mkList nullptr nullptr 0) (mem s)).

(** [~SinglyLinkedList() = default]: the member [head_] is destroyed. *)
Definition dtor : M unit :=
  let* p := get_head in delete_chain p.

(** ** Capacity *)
Definition size_ : M Z := get_size.
Definition empty_ : M bool := let* n := get_size in ret (n =? 0).

(** ** Modifiers *)

Definition clear : M unit :=
  reset Head nullptr >>
  set_tail nullptr >>
  set_size 0.

(** Both overloads ([const T&] and [T&&]) build the same node. *)
Definition push_front (value : T) : M unit :=
  let* node := make_unique value in
  let* h := get_head in
  (if decide (h = nullptr) then set_tail node
   else move_assign (Next node) Head) >>
  (* head_ = std::move(node) *)
  reset Head node >>
  incr_size.

Definition emplace_front {Args} (ctor : Args → T) (args : Args) : M unit :=
  let* node := make_unique (ctor args) in
  let* h := get_head in
  (if decide (h = nullptr) then set_tail node
   else move_assign (Next node) Head) >>
  reset Head node >>
  incr_size.

Definition push_back (value : T) : M unit :=
  let* node := make_unique value in
  let raw := node in
  let* h := get_head in
  (if decide (h = nullptr) then reset Head node
   else let* t := get_tail in reset (Next t) node) >>
  set_tail raw >>
  incr_size.

Definition emplace_back {Args} (ctor : Args → T) (args : Args) : M unit :=
  let* node := make_unique (ctor args) in
  let raw := node in
  let* h := get_head in
  (if decide (h = nullptr) then reset Head node
   else let* t := get_tail in reset (Next t) node) >>
  set_tail raw >>
  incr_size.

Definition pop_front : M unit :=
  let* h := get_head in
  if decide (h = nullptr) then throw (out_of_range "pop_front on an empty list")
  else
    move_assign Head (Next h) >>
    let* h' := get_head in
    (if decide (h' = nullptr) then set_tail nullptr else ret tt) >>
    decr_size.

(** [while (current->next.get() != tail_) current = current->next.get();] *)
Fixpoint pop_back_walk (fuel : nat) (current : Z) : M Z :=
  match fuel with
  | O => diverges
  | S fuel' =>
      let* n := load current in
      let* t := get_tail in
      if decide (next n ≠ t) then pop_back_walk fuel' (next n)
      else ret current
  end.

Definition pop_back : M unit :=
  let* h := get_head in
  if decide (h = nullptr) then throw (out_of_range "pop_back on an empty list")
  else
    let* t := get_tail in
    if decide (h = t) then pop_front
    else
      let* fuel := (λ s, Ok (live_nodes (mem s)) s) in
      let* current := pop_back_walk fuel h in
      reset (Next current) nullptr >>
      set_tail current >>
      decr_size.

Definition insert_after (pos : Z) (value : T) : M Z :=
  let current := pos in
  if decide (current = nullptr)
  then throw (invalid_argument "Cannot insert_after a null iterator")
  else
    let* node := make_unique value in
    let raw := node in
    let* t := get_tail in
    (if decide (t = current) then set_tail raw else ret tt) >>
    move_assign (Next node) (Next current) >>
    reset (Next current) node >>
    incr_size >>
    ret raw.

Definition emplace_after {Args} (pos : Z) (ctor : Args → T) (args : Args) : M Z :=
  let current := pos in
  if decide (current = nullptr)
  then throw (invalid_argument "Cannot emplace_after a null iterator")
  else
    let* node := make_unique (ctor args) in
    let raw := node in
    let* t := get_tail in
    (if decide (t = current) then set_tail raw else ret tt) >>
    move_assign (Next node) (Next current) >>
    reset (Next current) node >>
    incr_size >>
    ret raw.

Definition erase_after (pos : Z) : M Z :=
  let current := pos in
  if decide (current = nullptr)
  then throw (out_of_range "Cannot erase_after: no next element")
  else
    let* nx := get (Next current) in
    if decide (nx = nullptr)
    then throw (out_of_range "Cannot erase_after: no next element")
    else
      let* to_delete := release (Next current) in
      let* next_node := get (Next to_delete) in
      let* t := get_tail in
      (if decide (t = to_delete) then set_tail current else ret tt) >>
      move_assign (Next current) (Next to_delete) >>
      decr_size >>
      (* [to_delete] goes out of scope *)
      delete_chain to_delete >>
      ret next_node.

(** The loop of [reverse]; the local [unique_ptr]s [current] and [next] are
    null whenever they are assigned to or go out of scope. *)
Fixpoint reverse_loop (fuel : nat) (prev current : Z) : M Z :=
  if decide (current = nullptr) then ret prev
  else match fuel with
       | O => diverges
       | S fuel' =>
           let* nxt := release (Next current) in
           reset (Next current) prev >>
           reverse_loop fuel' current nxt
       end.

Definition reverse : M unit :=
  let* n := get_size in
  if decide (n < 2) then ret tt
  else
    let* current := release Head in
    set_tail current >>
    let* fuel := (λ s, Ok (live_nodes (mem s)) s) in
    let* prev := reverse_loop fuel nullptr current in
    reset Head prev.

(** ** Element access *)

Definition front : M T :=
  let* h := get_head in
  if decide (h = nullptr)
  then throw (out_of_range "Accessing front() on an empty list")
  else let* n := load h in ret (data n).

Definition back : M T :=
  let* t := get_tail in
  if decide (t = nullptr)
  then throw (out_of_range "Accessing back() on an empty list")
  else let* n := load t in ret (data n).

(** ** Iterators: a position is a node pointer, [end()] is null. *)
Definition begin_ : M Z := get_head.
Definition end_ : M Z := ret nullptr.
Definition deref (it : Z) : M T := let* n := load it in ret (data n).
Definition incr (it : Z) : M Z := let* n := load it in ret (next n).

(** [cbegin()] and [cend()], and the [const] overloads of [begin()] and
    [end()], read the same pointer. *)
Definition cbegin_ : M Z := get_head.
Definition cend_ : M Z := ret nullptr.

(** [operator==] and [operator!=] of the iterators compare the pointers. *)
Definition iter_eq (a b : Z) : bool := bool_decide (a = b).
Definition iter_ne (a b : Z) : bool := bool_decide (a ≠ b).

(** [operator++(int)]: the iterator is copied to [tmp], stepped by the
    prefix [operator++], and [tmp] is returned.  The result is [tmp] with
    the position the iterator has moved to. *)
Definition post_incr (it : Z) : M (Z * Z) :=
  let tmp := it in
  let* it' := incr it in
  ret (tmp, it').

(** [front()], [back()] and [operator*] return references: the caller can
    assign through them.  A reference to an element is the address of its
    node; [r = value] writes the member [data]. *)
Definition front_ref : M Z :=
  let* h := get_head in
  if decide (h = nullptr)
  then throw (out_of_range "Accessing front() on an empty list")
  else ret h.

Definition back_ref : M Z :=
  let* t := get_tail in
  if decide (t = nullptr)
  then throw (out_of_range "Accessing back() on an empty list")
  else ret t.

Definition store_data (r : Z) (value : T) : M unit :=
  λ s, match mem s !! r with
       | Some n => Ok tt (mkState (self s) (<[r := mkNode value (next n)]> (mem s)))
       | None => Undefined
       end.

(** [for (auto it = begin(); it != end(); ++it) ... *it ...]: the positions
    visited and the element found at each. *)
Fixpoint traverse (fuel : nat) (h : heap T) (it : Z) : option (list (Z * T)) :=
  if decide (it = nullptr) then Some []
  else match fuel with
       | O => None
       | S fuel' =>
           match h !! it with
           | None => None
           | Some n => cons (it, data n) <$> traverse fuel' h (next n)
           end
       end.

Definition visit (h : heap T) (l : SinglyLinkedList) : option (list (Z * T)) :=
  traverse (live_nodes h) h (head_ l).

Definition to_list (s : state T) : option (list T) :=
  (λ ns : list (Z * T), ns.*2) <$> visit (mem s) (self s).

(** The destruction that [head_.reset()] in [clear] and the destructor of
    the member [head_] start, on a call stack with room for [frames] nested
    calls of [delete]: the [delete] of a node stays on the stack while the
    nodes after it are destroyed, and the stack overflows ([None]) when the
    chain needs more. *)
Definition release_on_stack (frames : nat) (s : state T)
  : option (destroyed T) :=
  destroy frames (head_ (self s)) (mem s).

(** ** Constructors and assignment *)

(** A constructor body or a temporary runs on an object of its own; the
    object on which the caller runs is put back afterwards. *)
Definition with_object {A} (obj : SinglyLinkedList) (m : M A)
  : M (A * SinglyLinkedList) :=
  λ s, match m (mkState obj (mem s)) with
       | Ok a s' => Ok (a, self s') (mkState (self s) (mem s'))
       | Throw e s' => Throw e (mkState (self s) (mem s'))
       | Undefined => Undefined
       | Diverges => Diverges
       end.

(** An exception leaving the body of a constructor that delegated to
    [SinglyLinkedList()] runs the destructor of the object. *)
Definition on_unwind {A} (m : M A) (cleanup : M unit) : M A :=
  λ s, match m s with
       | Throw e s' =>
           match cleanup s' with
           | Ok _ s'' => Throw e s''
           | Throw e' s'' => Throw e' s''
           | Undefined => Undefined
           | Diverges => Diverges
           end
       | r => r
       end.

(** [for (const auto &val : other) push_back(val);] *)
Fixpoint copy_loop (fuel : nat) (it : Z) : M unit :=
  if decide (it = nullptr) then ret tt
  else match fuel with
       | O => diverges
       | S fuel' =>
           let* val := deref it in
           push_back val >>
           let* it' := incr it in
           copy_loop fuel' it'
       end.

Definition copy_ctor (other : SinglyLinkedList) : M unit :=
  default_ctor >>
  on_unwind (let* fuel := (λ s, Ok (live_nodes (mem s)) s) in
             copy_loop fuel (head_ other))
            dtor.

(** [for (const auto &value : ilist) push_back(value);] *)
Fixpoint ilist_loop (ilist : list T) : M unit :=
  match ilist with
  | [] => ret tt
  | value :: rest => push_back value >> ilist_loop rest
  end.

Definition ilist_ctor (ilist : list T) : M unit :=
  default_ctor >> on_unwind (ilist_loop ilist) dtor.

(** The move constructor; the result is what is left in [other]. *)
Definition move_ctor (other : SinglyLinkedList) : M SinglyLinkedList :=
  λ s, Ok (mkList nullptr nullptr 0)
          (mkState (mkList (head_ other) (tail_ other) (list_size other)) (mem s)).

(** [friend void swap(SinglyLinkedList &a, SinglyLinkedList &b)] *)
Definition swap (a b : SinglyLinkedList) : SinglyLinkedList * SinglyLinkedList :=
  (mkList (head_ b) (tail_ b) (list_size b),
   mkList (head_ a) (tail_ a) (list_size a)).

(** [operator=(SinglyLinkedList other)]: swap with the by-value parameter,
    which is destroyed when the call returns. *)
Definition op_assign (other : SinglyLinkedList) : M unit :=
  λ s, let '(this', other') := swap (self s) other in
       match dtor (mkState other' (mem s)) with
       | Ok _ s' => Ok tt (mkState this' (mem s'))
       | Throw e s' => Throw e (mkState this' (mem s'))
       | Undefined => Undefined
       | Diverges => Diverges
       end.

(** [*this = rhs] for an lvalue [rhs]: the parameter is copy-constructed. *)
Definition copy_assign (rhs : SinglyLinkedList) : M unit :=
  let* tmp := with_object raw_object (copy_ctor rhs) in
  op_assign (snd tmp).

(** [*this = std::move(rhs)] for another list [rhs]: the parameter is
    move-constructed from [rhs]; the result is what is left in [rhs]. *)
Definition move_assign_from (rhs : SinglyLinkedList) : M SinglyLinkedList :=
  let* tmp := with_object raw_object (move_ctor rhs) in
  op_assign (snd tmp) >>
  ret (fst tmp).

(** [L = L] and [L = std::move(L)]. *)
Definition self_copy_assign : M unit :=
  λ s, copy_assign (self s) s.

Definition self_move_assign : M unit :=
  λ s, match with_object raw_object (move_ctor (self s)) s with
       | Ok (moved_from, tmp) s' => op_assign tmp (mkState moved_from (mem s'))
       | Throw e s' => Throw e s'
       | Undefined => Undefined
       | Diverges => Diverges
       end.

End WithElement.

Notation "'let*' x := m 'in' k" := (bind m (λ x, k))
  (at level 10, x name, m at level 100, k at level 200).
Notation "m >> k" := (bind m (λ _, k))
  (at level 100, k at level 200, right associativity).

(** ** The helper [printList] of the test program *)

Section Printing.
Context {T : Type}.

(** [operator<<] of the element type: the text it writes. *)
Variable show : T → string.

(** [std::endl] *)
Definition endl : string := String "010"%char EmptyString.

(** [for (auto it = list.cbegin(); it != list.cend(); ++it)
       std::cout << *it << " ";] *)
Fixpoint print_contents (fuel : nat) (it : Z) : M (T:=T) string :=
  let* e := cend_ in
  if iter_ne it e then
    match fuel with
    | O => diverges
    | S fuel' =>
        let* x := deref it in
        let* it' := incr it in
        let* rest := print_contents fuel' it' in
        ret (show x +:+ " " +:+ rest)
    end
  else ret EmptyString.

(** The text that [printList(list, name)] writes to [std::cout]. *)
Definition printList (name : string) : M (T:=T) string :=
  let line1 := "--- List '" +:+ name +:+ "' ---" +:+ endl in
  let* n := size_ in
  let* e := empty_ in
  let line2 := "Size: " +:+ pretty n +:+ ", Empty: " +:+
               (if e then "Yes" else "No") +:+ endl in
  let* e' := empty_ in
  let* line3 :=
    (if negb e' then
       let* f := front in
       let* b := back in
       ret ("Front: " +:+ show f +:+ ", Back: " +:+ show b +:+ endl)
     else ret EmptyString) in
  let* first := cbegin_ in
  let* fuel := (λ s, Ok (live_nodes (mem s)) s) in
  let* contents := print_contents fuel first in
  ret (line1 +:+ line2 +:+ line3 +:+
       "Contents: [ " +:+ contents +:+ "]" +:+ endl +:+ endl).

End Printing.

(** ** Comparisons (non-member templates) *)

(** [operator==] and [operator<] of the element type. *)
Class Comparable (T : Type) : Type := {
  elt_eq : T → T → bool;
  elt_lt : T → T → bool
}.

Section Compare.
Context {T : Type} `{Comparable T}.

(** The algorithms of the standard library that the operators call, as the
    standard describes them, on iterators of the list. *)

(** [std::equal(first1, last1, first2)] *)
Fixpoint std_equal (fuel : nat) (h : heap T) (first1 last1 first2 : Z)
  : option bool :=
  if decide (first1 = last1) then Some true
  else match fuel with
       | O => None
       | S fuel' =>
           match h !! first1, h !! first2 with
           | Some n1, Some n2 =>
               if elt_eq (data n1) (data n2)
               then std_equal fuel' h (next n1) last1 (next n2)
               else Some false
           | _, _ => None
           end
       end.

(** [std::lexicographical_compare(first1, last1, first2, last2)] *)
Fixpoint std_lexicographical_compare (fuel : nat) (h : heap T)
    (first1 last1 first2 last2 : Z) : option bool :=
  if decide (first1 ≠ last1 ∧ first2 ≠ last2) then
    match fuel with
    | O => None
    | S fuel' =>
        match h !! first1, h !! first2 with
        | Some n1, Some n2 =>
            if elt_lt (data n1) (data n2) then Some true
            else if elt_lt (data n2) (data n1) then Some false
            else std_lexicographical_compare fuel' h (next n1) last1
                                                     (next n2) last2
        | _, _ => None
        end
    end
  else Some (bool_decide (first1 = last1) && bool_decide (first2 ≠ last2)).

Definition op_eq (h : heap T) (lhs rhs : SinglyLinkedList) : option bool :=
  if decide (list_size lhs ≠ list_size rhs) then Some false
  else std_equal (live_nodes h) h (head_ lhs) nullptr (head_ rhs).

Definition op_ne (h : heap T) (lhs rhs : SinglyLinkedList) : option bool :=
  negb <$> op_eq h lhs rhs.

Definition op_lt (h : heap T) (lhs rhs : SinglyLinkedList) : option bool :=
  std_lexicographical_compare (live_nodes h) h (head_ lhs) nullptr
                                               (head_ rhs) nullptr.

Definition op_le (h : heap T) (lhs rhs : SinglyLinkedList) : option bool :=
  negb <$> op_lt h rhs lhs.
Definition op_gt (h : heap T) (lhs rhs : SinglyLinkedList) : option bool :=
  op_lt h rhs lhs.
Definition op_ge (h : heap T) (lhs rhs : SinglyLinkedList) : option bool :=
  negb <$> op_lt h lhs rhs.

(** The comparisons in the words of the specification, to be compared with
    the code above: equality holds when the sizes match and the elements are
    equal pairwise, in order; the order is lexicographic, and a sequence
    that is a strict prefix of another is less than it. *)
Fixpoint pairwise_equal (xs ys : list T) : bool :=
  match xs, ys with
  | [], [] => true
  | x :: xs', y :: ys' => elt_eq x y && pairwise_equal xs' ys'
  | _, _ => false
  end.

Definition seq_equal (xs ys : list T) : bool :=
  bool_decide (length xs = length ys) && pairwise_equal xs ys.

Fixpoint lex_less (xs ys : list T) : bool :=
  match xs, ys with
  | [], [] => false
  | [], _ :: _ => true
  | _ :: _, [] => false
  | x :: xs', y :: ys' => elt_lt x y || (elt_eq x y && lex_less xs' ys')
  end.

End Compare.

(** Exactly one of three answers is [true]. *)
Definition exactly_one (a b c : bool) : Prop :=
  (a = true ∧ b = false ∧ c = false) ∨
  (a = false ∧ b = true ∧ c = false) ∨
  (a = false ∧ b = false ∧ c = true).

(** The property of a totally ordered element type that the comparison of
    lists relies on: of [x < y], [x == y] and [y < x] exactly one holds. *)
Class TotalOrder (T : Type) `{Comparable T} : Prop :=
  elt_trichotomy : ∀ x y : T, exactly_one (elt_lt x y) (elt_eq x y) (elt_lt y x).

#[export] Instance Z_comparable : Comparable Z :=
  {| elt_eq := Z.eqb; elt_lt := Z.ltb |}.

(** ** Programs over several lists *)

(** A client program owns some list objects, all with their nodes in one
    free store.  [step] is one use of the public interface.  A constructor
    runs on storage [l0] of any content. *)
Record world (T : Type) : Type := mkWorld {
  wmem : gmap Z (Node T);
  objs : list SinglyLinkedList
}.
Arguments mkWorld {T} _ _.
Arguments wmem {T} _.
Arguments objs {T} _.

Section Programs.
Context {T : Type}.

(** The member functions, with their arguments. *)
Inductive method : Type :=
| call_size | call_empty | call_begin | call_end
| call_front | call_back
| call_clear
| call_push_front (value : T)
| call_emplace_front (Args : Type) (ctor : Args → T) (args : Args)
| call_push_back (value : T)
| call_emplace_back (Args : Type) (ctor : Args → T) (args : Args)
| call_pop_front | call_pop_back
| call_insert_after (pos : Z) (value : T)
| call_emplace_after (pos : Z) (Args : Type) (ctor : Args → T) (args : Args)
| call_erase_after (pos : Z)
| call_reverse.

Definition call (m : method) : M (T:=T) unit :=
  match m with
  | call_size => size_ >> ret tt
  | call_empty => empty_ >> ret tt
  | call_begin => begin_ >> ret tt
  | call_end => end_ >> ret tt
  | call_front => front >> ret tt
  | call_back => back >> ret tt
  | call_clear => clear
  | call_push_front v => push_front v
  | call_emplace_front _ ctor args => emplace_front ctor args
  | call_push_back v => push_back v
  | call_emplace_back _ ctor args => emplace_back ctor args
  | call_pop_front => pop_front
  | call_pop_back => pop_back
  | call_insert_after pos v => insert_after pos v >> ret tt
  | call_emplace_after pos _ ctor args => emplace_after pos ctor args >> ret tt
  | call_erase_after pos => erase_after pos >> ret tt
  | call_reverse => reverse
  end.

(** An iterator handed to a member function is either [end()] or a position
    met when iterating over that list. *)
Definition position_of (h : heap T) (l : SinglyLinkedList) (pos : Z) : Prop :=
  ∃ ns, visit h l = Some ns ∧ pos ∈ ns.*1.

Definition valid_call (h : heap T) (l : SinglyLinkedList) (m : method) : Prop :=
  match m with
  | call_insert_after pos _ | call_emplace_after pos _ _ _ | call_erase_after pos =>
      pos = nullptr ∨ position_of h l pos
  | _ => True
  end.

(** The state in which a call leaves the object and the free store, whether
    it returns or throws. *)
Definition leaves {A} (r : outcome T A) (s' : state T) : Prop :=
  (∃ a, r = Ok a s') ∨ (∃ e, r = Throw e s').

Inductive step : world T → world T → Prop :=
| step_default_ctor w l0 s' :
    default_ctor (mkState l0 (wmem w)) = Ok tt s' →
    step w (mkWorld (mem s') (objs w ++ [self s']))
| step_ilist_ctor w l0 ilist s' :
    ilist_ctor ilist (mkState l0 (wmem w)) = Ok tt s' →
    step w (mkWorld (mem s') (objs w ++ [self s']))
| step_ilist_ctor_throw w l0 ilist e s' :
    ilist_ctor ilist (mkState l0 (wmem w)) = Throw e s' →
    step w (mkWorld (mem s') (objs w))
| step_copy_ctor w l0 j other s' :
    objs w !! j = Some other →
    copy_ctor other (mkState l0 (wmem w)) = Ok tt s' →
    step w (mkWorld (mem s') (objs w ++ [self s']))
| step_copy_ctor_throw w l0 j other e s' :
    objs w !! j = Some other →
    copy_ctor other (mkState l0 (wmem w)) = Throw e s' →
    step w (mkWorld (mem s') (objs w))
| step_move_ctor w l0 j other other' s' :
    objs w !! j = Some other →
    move_ctor other (mkState l0 (wmem w)) = Ok other' s' →
    step w (mkWorld (mem s') (<[j := other']> (objs w) ++ [self s']))
| step_call w i l m s' :
    objs w !! i = Some l →
    valid_call (wmem w) l m →
    leaves (call m (mkState l (wmem w))) s' →
    step w (mkWorld (mem s') (<[i := self s']> (objs w)))
| step_swap w i j a b :
    objs w !! i = Some a →
    objs w !! j = Some b →
    step w (mkWorld (wmem w)
                    (<[j := snd (swap a b)]> (<[i := fst (swap a b)]> (objs w))))
| step_copy_assign w i j l rhs s' :
    objs w !! i = Some l →
    objs w !! j = Some rhs →
    leaves (copy_assign rhs (mkState l (wmem w))) s' →
    step w (mkWorld (mem s') (<[i := self s']> (objs w)))
| step_move_assign w l0 i j rhs rhs' tmp l s' :
    objs w !! j = Some rhs →
    move_ctor rhs (mkState l0 (wmem w)) = Ok rhs' tmp →
    <[j := rhs']> (objs w) !! i = Some l →
    leaves (op_assign (self tmp) (mkState l (mem tmp))) s' →
    step w (mkWorld (mem s') (<[i := self s']> (<[j := rhs']> (objs w))))
| step_dtor w i l s' :
    objs w !! i = Some l →
    dtor (mkState l (wmem w)) = Ok tt s' →
    step w (mkWorld (mem s') (delete i (objs w))).

(** The states a program can reach from the one with no object. *)
Inductive reachable : world T → Prop :=
| reachable_init : reachable (mkWorld ∅ [])
| reachable_step w w' : reachable w → step w w' → reachable w'.

(** ** The representation invariant *)

(** A list segment: following [next] from [p] visits the nodes [ns]
    (address and element) and arrives at [q]. *)
Fixpoint seg (h : heap T) (p : Z) (ns : list (Z * T)) (q : Z) : Prop :=
  match ns with
  | [] => p = q
  | (a, x) :: ns' =>
      p = a ∧ a ≠ nullptr ∧ ∃ r, h !! a = Some (mkNode x r) ∧ seg h r ns' q
  end.

(** An owned chain ends at null. *)
Definition chain (h : heap T) (p : Z) (ns : list (Z * T)) : Prop :=
  seg h p ns nullptr.

(** Live nodes sit at addresses a pointer can hold. *)
Definition heap_ok (h : heap T) : Prop :=
  ∀ a, is_Some (h !! a) → 0 < a < word_modulus.

(** The last node of a chain, null for the empty one. *)
Definition tail_of (ns : list (Z * T)) : Z := default nullptr (last ns.*1).

(** Its first node, null for the empty one. *)
Definition head_of (ns : list (Z * T)) : Z := default nullptr (head ns.*1).

(** The data members of the object that represents [ns]. *)
Definition obj_of (ns : list (Z * T)) : SinglyLinkedList :=
  mkList (head_of ns) (tail_of ns) (Z.of_nat (length ns)).

(** The free store without the nodes [ls]. *)
Definition free_all (ls : list Z) (h : heap T) : heap T := foldr delete h ls.

(** The object [l] represents the chain [ns]. *)
Definition repr (h : heap T) (l : SinglyLinkedList) (ns : list (Z * T)) : Prop :=
  chain h (head_ l) ns ∧
  tail_ l = tail_of ns ∧
  list_size l = Z.of_nat (length ns).

Definition Inv (s : state T) (ns : list (Z * T)) : Prop :=
  heap_ok (mem s) ∧ repr (mem s) (self s) ns.

(** Every object of a program represents a chain, and no node belongs to
    two of them. *)
Definition disjoint_chains (nss : list (list (Z * T))) : Prop :=
  ∀ i j ns ms b, i ≠ j → nss !! i = Some ns → nss !! j = Some ms →
                 b ∈ ns.*1 → b ∉ ms.*1.

Definition WRep (w : world T) (nss : list (list (Z * T))) : Prop :=
  heap_ok (wmem w) ∧
  Forall2 (repr (wmem w)) (objs w) nss ∧
  disjoint_chains nss.

Definition WInv (w : world T) : Prop := ∃ nss, WRep w nss.

(** The invariant in the terms of the data model: the count is 0 iff the
    head is null iff the tail is null; a non-null tail is the last node
    visited from [begin()] and its [next] is null; [size()] is the number of
    elements visited from [begin()] to [end()]. *)
Definition rep_invariant (h : heap T) (l : SinglyLinkedList) : Prop :=
  (list_size l = 0 ↔ head_ l = nullptr) ∧
  (head_ l = nullptr ↔ tail_ l = nullptr) ∧
  ∃ ns, visit h l = Some ns ∧
        list_size l = Z.of_nat (length ns) ∧
        (tail_ l ≠ nullptr →
         last ns.*1 = Some (tail_ l) ∧
         ∃ n, h !! tail_ l = Some n ∧ next n = nullptr).

End Programs.
End SLL.

Import SLL.

(** ** Auxiliary definitions for the proofs *)

(** The free store after [push_back] has linked the new node [a]. *)
Definition push_back_heap {T} (h : heap T) (ns : list (Z * T)) (a : Z) (v : T)
  : heap T :=
  match last ns with
  | None => <[a := mkNode v nullptr]> h
  | Some (t, x) => <[t := mkNode x a]> (<[a := mkNode v nullptr]> h)
  end.

(** The free store after [pop_back] has released the tail [t]; [ns] are the
    nodes before it. *)
Definition pop_back_heap {T} (h : heap T) (ns : list (Z * T)) (t : Z) : heap T :=
  match last ns with
  | None => delete t h
  | Some (b, y) => delete t (<[b := mkNode y nullptr]> h)
  end.

(** The free store after the loop of [reverse] has turned the links of the
    nodes [ns] around, the first of them now pointing to [prev]. *)
Fixpoint relink {T} (prev : Z) (ns : list (Z * T)) (h : heap T) : heap T :=
  match ns with
  | [] => h
  | (a, x) :: ns' => relink a ns' (<[a := mkNode x prev]> h)
  end.

(** What a call on the list that represents [ns] may do to the free store:
    the list represents [ns'] afterwards, live nodes of other owners are as
    they were, and the nodes the list gained were not live before. *)
Definition evolves {T} (h : heap T) (ns : list (Z * T))
    (h' : heap T) (ns' : list (Z * T)) : Prop :=
  heap_ok h' ∧
  chain h' (head_of ns') ns' ∧
  (∀ b, b ∉ ns.*1 → is_Some (h !! b) → h' !! b = h !! b) ∧
  (∀ b, b ∈ ns'.*1 → b ∈ ns.*1 ∨ h !! b = None).

(** What [std::lexicographical_compare] computes on two sequences, with
    [operator<] of the elements alone. *)
Fixpoint lex_by_less {T} `{Comparable T} (xs ys : list T) : bool :=
  match xs, ys with
  | x :: xs', y :: ys' =>
      if elt_lt x y then true
      else if elt_lt y x then false
      else lex_by_less xs' ys'
  | [], _ :: _ => true
  | _, _ => false
  end.

(** [heap_ok], as a test. *)
Definition heap_okb {T} (h : heap T) : bool :=
  forallb (λ a, (0 <? a) && (a <? word_modulus)) (map_to_list h).*1.

(** The list [10, 20, 30] with its nodes at addresses 1, 2 and 3. *)
Definition example_heap : heap Z :=
  <[1 := mkNode 10 2]> (<[2 := mkNode 20 3]> (<[3 := mkNode 30 0]> ∅)).
Definition example_state : state Z := mkState (mkList 1 3 3) example_heap.
Definition example_nodes : list (Z * Z) := [(1, 10); (2, 20); (3, 30)].

(** An empty list in an empty free store. *)
Definition empty_state : state Z := mkState raw_object ∅.

(** The runs of the test program, on [int] elements. *)

(** [testModifiersPushPop], up to the call of [clear]. *)
Definition test_modifiers_push_pop : M (T:=Z) unit :=
  default_ctor >>
  push_front 10 >> push_back 30 >> push_front 5 >> push_back 40 >>
  pop_front >> pop_back.

(** [testInsertEraseReverse]; the result is what the two [assert]s read. *)
Definition test_insert_erase_reverse : M (T:=Z) (Z * (Z * Z)) :=
  ilist_ctor [10; 50] >>
  let* it := begin_ in
  insert_after it 20 >>
  let* it := incr it in
  emplace_after it id 30 >>
  let* it := incr it in
  let* it := incr it in
  insert_after it 60 >>
  let* b1 := back in
  let* it := begin_ in
  erase_after it >>
  reverse >>
  let* f := front in
  let* b := back in
  ret (b1, (f, b)).

(** [testComparisons]: the lists [l1] to [l4] and the seven comparisons. *)
Definition test_comparisons : M (T:=Z) (list (option bool)) :=
  let* l1 := with_object raw_object (ilist_ctor [1; 2; 3]) in
  let* l2 := with_object raw_object (ilist_ctor [1; 2; 3]) in
  let* l3 := with_object raw_object (ilist_ctor [1; 2; 4]) in
  let* l4 := with_object raw_object (ilist_ctor [1; 2]) in
  λ s, Ok [op_eq (mem s) (snd l1) (snd l2);
           op_eq (mem s) (snd l1) (snd l3);
           op_ne (mem s) (snd l1) (snd l3);
           op_lt (mem s) (snd l1) (snd l3);
           op_gt (mem s) (snd l3) (snd l1);
           op_lt (mem s) (snd l4) (snd l1);
           op_ge (mem s) (snd l1) (snd l2)] s.

(** The list of the elements after a run. *)
Definition elements_after {T A} (r : outcome T A) : option (list T) :=
  match r with
  | Ok _ s => to_list s
  | _ => None
  end.

(** [testLifecycle]: the objects [list1] to [list5], [a] and [b]; the
    result is what the calls of [printList] show of them, in order. *)
Definition test_lifecycle : M (T:=Z) (list (option (list Z))) :=
  let elements (l : SinglyLinkedList) : M (option (list Z)) :=
    λ s, Ok (to_list (mkState l (mem s))) s in
  let* list1 := with_object raw_object (ilist_ctor [10; 20; 30]) in
  let* list2 := with_object raw_object (copy_ctor (snd list1)) in
  let* list3 := with_object raw_object default_ctor in
  let* list3 := with_object (snd list3) (copy_assign (snd list1)) in
  let* p3 := elements (snd list3) in
  let* list1 := with_object (snd list1) (push_back 40) in
  let* p1 := elements (snd list1) in
  let* p2 := elements (snd list2) in
  let* list4 := with_object raw_object (move_ctor (snd list1)) in
  let* p4 := elements (snd list4) in
  let* p1' := elements (fst list4) in
  let* list5 := with_object raw_object default_ctor in
  let* list5 := with_object (snd list5) (move_assign_from (snd list2)) in
  let* p5 := elements (snd list5) in
  let* p2' := elements (fst list5) in
  let* a := with_object raw_object (ilist_ctor [1; 2]) in
  let* b := with_object raw_object (ilist_ctor [9; 8; 7]) in
  let ab := swap (snd a) (snd b) in
  let* pa := elements (fst ab) in
  let* pb := elements (snd ab) in
  ret [p3; p1; p2; p4; p1'; p5; p2'; pa; pb].

(** The first lines of [testAccessAndExceptions], on strings. *)
Definition test_access_modify : M (T:=string) (string * string) :=
  default_ctor >>
  push_back "Hello" >> push_back "World" >>
  let* r := front_ref in
  store_data r "Hi" >>
  let* f := front in
  let* b := back in
  ret (f, b).

(** A program state with the one list [10, 20, 30]. *)
Definition example_world : world Z := mkWorld example_heap [mkList 1 3 3].

(** The lists [1, 2, 3] and [1, 2, 4] in one free store. *)
Definition compare_heap : heap Z :=
  <[1 := mkNode 1 2]> (<[2 := mkNode 2 3]> (<[3 := mkNode 3 0]>
  (<[4 := mkNode 1 5]> (<[5 := mkNode 2 6]> (<[6 := mkNode 4 0]> ∅))))).
Definition list_123 : SinglyLinkedList := mkList 1 3 3.
Definition list_124 : SinglyLinkedList := mkList 4 6 3.

(** The free store when only [1, 2, 3] has been built, and the program
    state with both lists. *)
Definition heap_123 : heap Z :=
  <[1 := mkNode 1 2]> (<[2 := mkNode 2 3]> (<[3 := mkNode 3 0]> ∅)).
Definition compare_world : world Z := mkWorld compare_heap [list_123; list_124].

(** A node that belongs to the list neither before nor after a call is as
    it was: live with the same content, or not live. *)
Definition untouched {T} (h : heap T) (ns : list (Z * T))
    (h' : heap T) (ns' : list (Z * T)) : Prop :=
  ∀ b, b ∉ ns.*1 → b ∉ ns'.*1 → h' !! b = h !! b.

(** A node of the list keeps its element for as long as it stays in the
    list; a node that leaves the list is released. *)
Definition stable {T} (h' : heap T) (ns ns' : list (Z * T)) : Prop :=
  ∀ b x, (b, x) ∈ ns → (b, x) ∈ ns' ∨ ((b ∉ ns'.*1) ∧ h' !! b = None).

(** The footprint of a call, exactly. *)
Definition footprint {T} (h : heap T) (ns : list (Z * T))
    (h' : heap T) (ns' : list (Z * T)) : Prop :=
  evolves h ns h' ns' ∧ untouched h ns h' ns' ∧ stable h' ns ns'.

(** The member functions that take elements out of the list. *)
Definition removing {T} (m : @method T) : Prop :=
  match m with
  | call_clear | call_pop_front | call_pop_back | call_erase_after _ => True
  | _ => False
  end.

(** The lists [1, 2, 3] and [1, 2, 4] as chains of nodes. *)
Definition nodes_123 : list (Z * Z) := [(1, 1); (2, 2); (3, 3)].
Definition nodes_124 : list (Z * Z) := [(4, 1); (5, 2); (6, 4)].

(** Every live node of the free store belongs to one of the chains. *)
Definition owned {T} (h : heap T) (nss : list (list (Z * T))) : Prop :=
  ∀ b, is_Some (h !! b) → ∃ i ns, nss !! i = Some ns ∧ b ∈ ns.*1.

(** The text of the loop of [printList] for a sequence of elements: each
    element followed by a space. *)
Definition contents_text {T} (show : T → string) (xs : list T) : string :=
  foldr (λ x rest, show x +:+ " " +:+ rest) EmptyString xs.

(** * Properties of the model *)

(** ** Segments and chains *)

Section Chains.
Context {T : Type}.
Implicit Types (h : heap T) (ns : list (Z * T)) (p q a : Z).

Lemma seg_app h p ns1 ns2 q :
  seg h p (ns1 ++ ns2) q ↔ ∃ r, seg h p ns1 r ∧ seg h r ns2 q.
Proof.
  revert p. induction ns1 as [|[a x] ns1 IH]; intros p; simpl.
  - split; [intros Hs; eauto | intros (r & -> & Hs); done].
  - split.
    + intros (-> & Ha & r & Hl & Hs). apply IH in Hs as (r' & H1 & H2).
      exists r'. eauto 10.
    + intros (r' & (-> & Ha & r & Hl & H1) & H2).
      repeat split; [done|]. exists r. split; [done|]. apply IH; eauto.
Qed.

Lemma seg_frame h h' p ns q :
  (∀ a, a ∈ ns.*1 → h' !! a = h !! a) → seg h p ns q → seg h' p ns q.
Proof.
  revert p. induction ns as [|[a x] ns IH]; intros p Hf; simpl; [done|].
  intros (-> & Ha & r & Hl & Hs). repeat split; [done|].
  exists r. split.
  - rewrite Hf; [done|]. simpl. left.
  - apply IH; [|done]. intros b Hb. apply Hf. simpl. by right.
Qed.

Lemma seg_lookup h p ns q a :
  seg h p ns q → a ∈ ns.*1 → ∃ x r, (a, x) ∈ ns ∧ h !! a = Some (mkNode x r).
Proof.
  revert p. induction ns as [|[b x] ns IH]; intros p; simpl.
  - intros _ Hin. by apply elem_of_nil in Hin.
  - intros (-> & Hb & r & Hl & Hs) [->|Hin]%elem_of_cons.
    + exists x, r. split; [left|done].
    + destruct (IH _ Hs Hin) as (y & r' & ? & ?). exists y, r'.
      split; [by right|done].
Qed.

Lemma seg_nonnull h p ns q a : seg h p ns q → a ∈ ns.*1 → a ≠ nullptr.
Proof.
  revert p. induction ns as [|[b x] ns IH]; intros p; simpl.
  - intros _ Hin. by apply elem_of_nil in Hin.
  - intros (-> & Hb & r & Hl & Hs) [->|Hin]%elem_of_cons; eauto.
Qed.

Lemma chain_functional h p ns1 ns2 :
  chain h p ns1 → chain h p ns2 → ns1 = ns2.
Proof.
  unfold chain. revert p ns2.
  induction ns1 as [|[a x] ns1 IH]; intros p [|[b y] ns2]; simpl; try done.
  - intros Hp (Hq & Hb & _). congruence.
  - intros (Hq & Ha & _) Hp. congruence.
  - intros (Hp & Ha & r & Hl & Hs) (Hq & _ & r' & Hl' & Hs'). subst p b.
    rewrite Hl in Hl'. injection Hl' as <- <-. f_equal. eauto.
Qed.

(** A node of a chain starts the chain of the nodes after it. *)
Lemma chain_split h p ns a :
  chain h p ns → a ∈ ns.*1 →
  ∃ ns1 x ns2, ns = ns1 ++ (a, x) :: ns2 ∧ seg h p ns1 a ∧
               chain h a ((a, x) :: ns2).
Proof.
  unfold chain. revert p. induction ns as [|[b y] ns IH]; intros p; simpl.
  - intros _ Hin. by apply elem_of_nil in Hin.
  - intros (-> & Hb & r & Hl & Hs) Hin.
    destruct (decide (a = b)) as [->|Hne].
    + exists [], y, ns. simpl. eauto 10.
    + apply elem_of_cons in Hin as [?|Hin]; [done|].
      destruct (IH _ Hs Hin) as (ns1 & x & ns2 & -> & H1 & H2).
      exists ((b, y) :: ns1), x, ns2. simpl. eauto 10.
Qed.

Lemma chain_NoDup h p ns : chain h p ns → NoDup ns.*1.
Proof.
  revert p. induction ns as [|[a x] ns IH]; intros p Hc; simpl.
  - constructor.
  - pose proof Hc as (-> & Ha & r & Hl & Hs).
    constructor; [|by eapply IH].
    intros Hin.
    destruct (chain_split _ _ _ _ Hs Hin) as (ns1 & y & ns2 & -> & _ & H2).
    pose proof (chain_functional _ _ _ _ Hc H2) as Heq.
    apply (f_equal length) in Heq. simpl in Heq.
    rewrite length_app in Heq. simpl in Heq. lia.
Qed.

Lemma chain_nil h p : chain h p [] ↔ p = nullptr.
Proof. done. Qed.

Lemma chain_null h ns : chain h nullptr ns → ns = [].
Proof. destruct ns as [|[a x] ns]; [done|]. intros (Hp & Ha & _). congruence. Qed.

Lemma chain_nonnull h p ns : chain h p ns → p ≠ nullptr → ns ≠ [].
Proof. intros Hc Hp ->. by apply Hp. Qed.

(** Iterating from [begin()] visits exactly the chain. *)
Lemma traverse_chain fuel h p ns :
  chain h p ns → (length ns ≤ fuel)%nat → traverse fuel h p = Some ns.
Proof.
  unfold chain. revert p fuel. induction ns as [|[a x] ns IH]; intros p fuel; simpl.
  - intros -> _. by destruct fuel.
  - intros (-> & Ha & r & Hl & Hs) Hlen.
    destruct fuel as [|fuel]; [lia|]. simpl.
    rewrite decide_False by done. rewrite Hl. simpl.
    rewrite (IH r fuel) by (done || lia). done.
Qed.

Lemma traverse_sound fuel h p ns :
  traverse fuel h p = Some ns → chain h p ns.
Proof.
  unfold chain. revert p ns. induction fuel as [|fuel IH]; intros p ns; simpl.
  - case_decide; [|done]. intros [= <-]. done.
  - case_decide as Hp; [intros [= <-]; done|].
    destruct (h !! p) as [[x r]|] eqn:Hl; [|done]. simpl.
    destruct (traverse fuel h r) as [ns'|] eqn:Ht; [|done]. simpl.
    intros [= <-]. simpl. repeat split; [done|]. exists r. eauto.
Qed.

(** ** Counting nodes *)

Lemma NoDup_bounded_length (l : list Z) (n : Z) :
  NoDup l → (∀ x, x ∈ l → 0 < x < n) → Z.of_nat (length l) < Z.max n 1.
Proof.
  intros Hnd Hb.
  assert (l ⊆+ seqZ 1 (n - 1)) as Hsub.
  { apply NoDup_submseteq; [done|]. intros x Hx. apply elem_of_seqZ.
    specialize (Hb x Hx). lia. }
  apply submseteq_length in Hsub. rewrite length_seqZ in Hsub. lia.
Qed.

Lemma chain_length_word h p ns :
  heap_ok h → chain h p ns → Z.of_nat (length ns) < word_modulus.
Proof.
  intros Hok Hc.
  pose proof (NoDup_bounded_length ns.*1 word_modulus (chain_NoDup _ _ _ Hc)) as Hb.
  rewrite length_fmap in Hb.
  assert (Z.max word_modulus 1 = word_modulus) as <- by done.
  apply Hb. intros a Ha. apply Hok.
  destruct (seg_lookup _ _ _ _ _ Hc Ha) as (x & r & _ & ->). eauto.
Qed.

Lemma NoDup_live_length h (l : list Z) :
  NoDup l → (∀ a, a ∈ l → is_Some (h !! a)) → (length l ≤ live_nodes h)%nat.
Proof.
  intros Hnd Hin. unfold live_nodes.
  rewrite <- (length_map_to_list h), <- (length_fmap fst (map_to_list h)).
  apply submseteq_length, NoDup_submseteq; [done|].
  intros a [n Hn]%Hin. apply list_elem_of_fmap. exists (a, n).
  split; [done|]. by apply elem_of_map_to_list.
Qed.

Lemma chain_length_live h p ns : chain h p ns → (length ns ≤ live_nodes h)%nat.
Proof.
  intros Hc. rewrite <- (length_fmap fst).
  apply NoDup_live_length; [by eapply chain_NoDup|].
  intros a Ha. destruct (seg_lookup _ _ _ _ _ Hc Ha) as (x & r & _ & ->). eauto.
Qed.

Lemma visit_chain h l ns : chain h (head_ l) ns → visit h l = Some ns.
Proof.
  intros Hc. apply traverse_chain; [done|]. by eapply chain_length_live.
Qed.

Lemma visit_sound h l ns : visit h l = Some ns → chain h (head_ l) ns.
Proof. apply traverse_sound. Qed.

(** ** The allocator *)

Lemma alloc_fresh h a : alloc h = Some a → h !! a = None ∧ 0 < a < word_modulus.
Proof.
  unfold alloc. destruct (List.find _ _) as [b|] eqn:Hf; [|done].
  case_decide as Hlt; [|done]. intros [= <-].
  apply List.find_some in Hf as [Hin Hfree].
  apply bool_decide_eq_true in Hfree. split; [done|].
  apply list_elem_of_In, list_elem_of_fmap in Hin as (k & -> & Hk).
  apply elem_of_seq in Hk. lia.
Qed.

Lemma heap_ok_insert h a n :
  heap_ok h → 0 < a < word_modulus → heap_ok (<[a := n]> h).
Proof.
  intros Hok Ha b [m Hb]. destruct (decide (a = b)) as [<-|Hne]; [done|].
  rewrite lookup_insert_ne in Hb by done. apply Hok. eauto.
Qed.

Lemma heap_ok_delete h a : heap_ok h → heap_ok (delete a h).
Proof.
  intros Hok b [m Hb]. apply Hok. exists m.
  destruct (decide (a = b)) as [<-|Hne].
  - by rewrite lookup_delete_eq in Hb.
  - by rewrite lookup_delete_ne in Hb.
Qed.

Lemma heap_ok_null h : heap_ok h → h !! nullptr = None.
Proof.
  intros Hok. destruct (h !! nullptr) eqn:Hl; [|done].
  assert (0 < nullptr) by (apply Hok; eauto). done.
Qed.

End Chains.

(** ** Destruction of chains *)

Section Destruction.
Context {T : Type}.
Implicit Types (h : heap T) (ns : list (Z * T)) (p q a : Z) (s : state T).

Lemma lookup_free_all ls h a :
  free_all ls h !! a = if decide (a ∈ ls) then None else h !! a.
Proof.
  induction ls as [|b ls IH].
  - change (free_all [] h) with h.
    destruct (decide (a ∈ [])) as [Hin|_]; [by apply elem_of_nil in Hin|done].
  - change (free_all (b :: ls) h) with (delete b (free_all ls h)).
    destruct (decide (b = a)) as [->|Hne].
    + rewrite lookup_delete_eq.
      destruct (decide (a ∈ a :: ls)) as [_|Hin]; [done|].
      exfalso. apply Hin. left.
    + rewrite lookup_delete_ne by done. rewrite IH.
      destruct (decide (a ∈ ls)) as [Hin|Hin];
        destruct (decide (a ∈ b :: ls)) as [Hin'|Hin']; try done.
      * exfalso. apply Hin'. by right.
      * apply elem_of_cons in Hin' as [?|?]; congruence.
Qed.

Lemma heap_ok_free_all ls h : heap_ok h → heap_ok (free_all ls h).
Proof.
  intros Hok a [n Hn]. rewrite lookup_free_all in Hn.
  case_decide; [done|]. apply Hok. eauto.
Qed.

Lemma destroy_null fuel h : destroy fuel nullptr h = Some (mkDestroyed h [] 0%nat).
Proof. by destruct fuel. Qed.

Lemma destroy_chain fuel h p ns :
  chain h p ns → (length ns ≤ fuel)%nat →
  destroy fuel p h =
    Some (mkDestroyed (free_all ns.*1 h) (rev ns.*1) (length ns)).
Proof.
  unfold chain. revert p fuel. induction ns as [|[a x] ns IH]; intros p fuel; simpl.
  - intros -> _. apply destroy_null.
  - intros (-> & Ha & r & Hl & Hs) Hlen.
    destruct fuel as [|fuel]; [lia|]. simpl.
    rewrite decide_False by done. rewrite Hl. simpl.
    rewrite (IH r fuel) by (done || lia). done.
Qed.

Lemma state_eta s : mkState (self s) (mem s) = s.
Proof. by destruct s. Qed.

Lemma delete_chain_null s : delete_chain nullptr s = Ok tt s.
Proof. unfold delete_chain. rewrite destroy_null. simpl. by rewrite state_eta. Qed.

Lemma delete_chain_chain s p ns :
  chain (mem s) p ns →
  delete_chain p s = Ok tt (mkState (self s) (free_all ns.*1 (mem s))).
Proof.
  intros Hc. unfold delete_chain.
  rewrite (destroy_chain _ _ _ ns) by (done || by eapply chain_length_live).
  done.
Qed.

End Destruction.

(** ** Running the member functions *)

Ltac munfold :=
  unfold push_front, emplace_front, push_back, emplace_back, pop_front, pop_back,
    insert_after, emplace_after, erase_after, reverse, clear, front, back,
    size_, empty_, begin_, end_, dtor,
    move_assign, release, reset, get, put, incr_size, decr_size,
    get_head, get_tail, get_size, set_head, set_tail, set_size,
    load, store_next, make_unique, bind, ret, throw.

Ltac mstep :=
  first
    [ rewrite lookup_insert_eq
    | rewrite insert_insert_eq
    | rewrite delete_chain_null
    | rewrite lookup_insert_ne by congruence
    | match goal with
      | H : ?h !! ?a = Some _ |- context [?h !! ?a] => rewrite H
      | H : ?h !! ?a = None |- context [?h !! ?a] => rewrite H
      | |- context [decide (?x = ?y)] =>
          destruct (decide (x = y)); try congruence
      end ]; simpl.

Lemma Ok_state_eq {T A} (r : A) hd tl sz (h : heap T) hd' tl' sz' h' :
  hd = hd' → tl = tl' → sz = sz' → h = h' →
  Ok r (mkState (mkList hd tl sz) h) = Ok r (mkState (mkList hd' tl' sz') h').
Proof. by intros -> -> -> ->. Qed.

Ltac mdone :=
  apply Ok_state_eq; cbn [length] in *;
  try done; try (rewrite Z.mod_small; lia); try lia.

Arguments tail_of : simpl never.
Arguments head_of {T} !ns /.

Section Running.
Context {T : Type}.
Implicit Types (h : heap T) (ns : list (Z * T)) (p q a : Z) (s : state T).

Lemma tail_of_nil : tail_of (@nil (Z * T)) = nullptr.
Proof. done. Qed.

Lemma tail_of_cons n ns : ns ≠ [] → tail_of (n :: ns) = tail_of ns.
Proof.
  intros Hne. unfold tail_of. rewrite fmap_cons, last_cons.
  destruct (last ns.*1) eqn:Hl; [done|].
  apply last_None, fmap_nil_inv in Hl. done.
Qed.

Lemma tail_of_single a (x : T) : tail_of [(a, x)] = a.
Proof. done. Qed.

Lemma tail_of_snoc ns a (x : T) : tail_of (ns ++ [(a, x)]) = a.
Proof. unfold tail_of. rewrite fmap_app. simpl. by rewrite last_snoc. Qed.

Lemma tail_of_elem ns : ns ≠ [] → tail_of ns ∈ ns.*1.
Proof.
  intros Hne. unfold tail_of. destruct (last ns.*1) as [t|] eqn:Hl.
  - simpl. by eapply last_Some_elem_of.
  - apply last_None, fmap_nil_inv in Hl. done.
Qed.

Lemma tail_of_nonnull h p ns : chain h p ns → ns ≠ [] → tail_of ns ≠ nullptr.
Proof.
  intros Hc Hne. eapply seg_nonnull; [exact Hc|]. by apply tail_of_elem.
Qed.

Lemma chain_head h p ns : chain h p ns → p = head_of ns.
Proof. destruct ns as [|[a x] ns]; [done|]. by intros (-> & _). Qed.

Lemma Inv_obj s ns :
  Inv s ns ↔
  heap_ok (mem s) ∧ self s = obj_of ns ∧ chain (mem s) (head_of ns) ns.
Proof.
  destruct s as [[hd tl sz] h]. unfold Inv, repr, obj_of. simpl. split.
  - intros (Hok & Hc & -> & ->). pose proof (chain_head _ _ _ Hc) as ->. done.
  - intros (Hok & [= -> -> ->] & Hc). done.
Qed.

Lemma Inv_intro h ns :
  heap_ok h → chain h (head_of ns) ns → Inv (mkState (obj_of ns) h) ns.
Proof. intros. by apply Inv_obj. Qed.

Lemma Inv_state s ns : Inv s ns → s = mkState (obj_of ns) (mem s).
Proof. intros (_ & <- & _)%Inv_obj. by destruct s. Qed.

Lemma chain_size_word h p ns :
  heap_ok h → chain h p ns → 0 ≤ Z.of_nat (length ns) < word_modulus.
Proof. intros Hok Hc. pose proof (chain_length_word _ _ _ Hok Hc). lia. Qed.

(** The tail node of a chain has a null [next]. *)
Lemma chain_tail_lookup h p ns :
  chain h p ns → ns ≠ [] →
  ∃ ns' x, ns = ns' ++ [(tail_of ns, x)] ∧
           h !! tail_of ns = Some (mkNode x nullptr).
Proof.
  intros Hc Hne. destruct (exists_last Hne) as (ns' & [t x] & ->).
  rewrite tail_of_snoc. exists ns', x. split; [done|].
  apply seg_app in Hc as (r & _ & Hc). simpl in Hc.
  destruct Hc as (-> & _ & r' & Hl & <-). done.
Qed.

(** *** Observers *)

Lemma size_run s : size_ s = Ok (list_size (self s)) s.
Proof. done. Qed.

Lemma empty_run s : empty_ s = Ok (list_size (self s) =? 0) s.
Proof. done. Qed.

Lemma begin_run s : begin_ s = Ok (head_ (self s)) s.
Proof. done. Qed.

Lemma end_run s : end_ s = Ok nullptr s.
Proof. done. Qed.

Lemma front_run s ns :
  Inv s ns →
  front s = match ns with
            | [] => Throw (out_of_range "Accessing front() on an empty list") s
            | (_, x) :: _ => Ok x s
            end.
Proof.
  intros HI. rewrite (Inv_state _ _ HI). apply Inv_obj in HI as (Hok & _ & Hc).
  destruct ns as [|[a x] ns]; [reflexivity|].
  destruct Hc as (_ & Ha & r & Hl & _). simpl in *.
  munfold. simpl. by repeat mstep.
Qed.

Lemma back_run s ns :
  Inv s ns →
  back s = match last ns with
           | None => Throw (out_of_range "Accessing back() on an empty list") s
           | Some (_, x) => Ok x s
           end.
Proof.
  intros HI. rewrite (Inv_state _ _ HI). apply Inv_obj in HI as (Hok & _ & Hc).
  destruct (decide (ns = [])) as [->|Hne]; [reflexivity|].
  pose proof (tail_of_nonnull _ _ _ Hc Hne) as Ht.
  destruct (chain_tail_lookup _ _ _ Hc Hne) as (ns' & x & Hns & Hl).
  assert (last ns = Some (tail_of ns, x)) as -> by (rewrite Hns at 1; apply last_snoc).
  munfold. simpl. by repeat mstep.
Qed.

Lemma chain_null_iff h p : chain h p [] ↔ p = nullptr.
Proof. done. Qed.

(** Rewriting a node that is not on a segment leaves the segment alone. *)
Lemma chain_frame_insert h p ns q a n :
  seg h p ns q → a ∉ ns.*1 → seg (<[a := n]> h) p ns q.
Proof.
  intros Hs Ha. apply (seg_frame h); [|done]. intros b Hb.
  rewrite lookup_insert_ne; [done|]. by intros ->.
Qed.

(** *** [push_front] *)

Lemma chain_insert_fresh h p ns q a n :
  seg h p ns q → h !! a = None → seg (<[a := n]> h) p ns q.
Proof.
  intros Hs Ha. apply (seg_frame h); [|done]. intros b Hb.
  destruct (seg_lookup _ _ _ _ _ Hs Hb) as (x & r & _ & Hl).
  rewrite lookup_insert_ne; [done|]. congruence.
Qed.

Lemma push_front_chain h ns a v :
  chain h (head_of ns) ns → h !! a = None → a ≠ nullptr →
  chain (<[a := mkNode v (head_of ns)]> h) a ((a, v) :: ns).
Proof.
  intros Hc Ha Hnn. split; [done|]. split; [done|]. exists (head_of ns).
  rewrite lookup_insert_eq. split; [done|]. by apply chain_insert_fresh.
Qed.

Lemma push_front_run h ns v :
  heap_ok h → chain h (head_of ns) ns →
  push_front v (mkState (obj_of ns) h) =
    match alloc h with
    | Some a => Ok tt (mkState (obj_of ((a, v) :: ns))
                               (<[a := mkNode v (head_of ns)]> h))
    | None => Throw bad_alloc (mkState (obj_of ns) h)
    end.
Proof.
  intros Hok Hc. munfold. simpl. destruct (alloc h) as [a|] eqn:Ha; [|done].
  apply alloc_fresh in Ha as [Hfree Hrange]. simpl.
  assert (a ≠ nullptr) as Hnn by (unfold nullptr; lia).
  pose proof (push_front_chain _ _ _ v Hc Hfree Hnn) as Hc'.
  apply chain_size_word in Hc'; [|by apply heap_ok_insert]. simpl length in Hc'.
  destruct ns as [|[b y] ns]; simpl; repeat mstep.
  - mdone.
  - destruct Hc as (_ & Hb & _). done.
  - mdone.
Qed.

(** *** [pop_front] *)

Lemma chain_delete_head h a x ns :
  chain h a ((a, x) :: ns) → chain (delete a h) (head_of ns) ns.
Proof.
  intros Hc. pose proof (chain_NoDup _ _ _ Hc) as Hnd.
  destruct Hc as (_ & Ha & q & Hl & Hc). rewrite <- (chain_head _ _ _ Hc).
  apply (seg_frame h); [|done]. intros b Hb.
  apply NoDup_cons in Hnd as [Hnin _].
  rewrite lookup_delete_ne; [done|]. intros ->. done.
Qed.

Lemma delete_single_run (l : SinglyLinkedList) h a x :
  a ≠ nullptr → h !! a = Some (mkNode x nullptr) →
  delete_chain a (mkState l h) = Ok tt (mkState l (delete a h)).
Proof.
  intros Ha Hl. rewrite (delete_chain_chain _ _ [(a, x)]); simpl; [done|].
  split; [done|]. split; [done|]. by exists nullptr.
Qed.

Lemma pop_front_run h ns :
  heap_ok h → chain h (head_of ns) ns →
  pop_front (mkState (obj_of ns) h) =
    match ns with
    | [] => Throw (out_of_range "pop_front on an empty list")
                  (mkState (obj_of ns) h)
    | (a, _) :: ns' => Ok tt (mkState (obj_of ns') (delete a h))
    end.
Proof.
  intros Hok Hc. destruct ns as [|[a x] ns]; [reflexivity|].
  pose proof (chain_size_word _ _ _ Hok Hc) as Hsz. simpl length in Hsz.
  pose proof Hc as (_ & Ha & r & Hl & Hc'). simpl in Hc.
  pose proof (chain_head _ _ _ Hc') as ->.
  munfold. simpl. repeat mstep.
  rewrite (delete_single_run _ _ a x) by (done || apply lookup_insert_eq).
  rewrite delete_insert_eq. simpl.
  destruct ns as [|[b y] ns]; simpl; repeat mstep.
  - mdone.
  - destruct Hc' as (_ & Hb & _). done.
  - mdone.
Qed.

End Running.

Section RunningBack.
Context {T : Type}.
Implicit Types (h : heap T) (ns : list (Z * T)) (p q a : Z) (s : state T).

Lemma head_of_app ns1 ns2 : ns1 ≠ [] → head_of (ns1 ++ ns2) = head_of ns1.
Proof. by destruct ns1 as [|[a x] ns1]. Qed.

Lemma tail_of_app ns1 ns2 : ns2 ≠ [] → tail_of (ns1 ++ ns2) = tail_of ns2.
Proof.
  intros Hne. destruct (exists_last Hne) as (ns' & [t x] & ->).
  by rewrite app_assoc, !tail_of_snoc.
Qed.

Lemma seg_snoc h p ns t x q :
  seg h p (ns ++ [(t, x)]) q ↔
  seg h p ns t ∧ t ≠ nullptr ∧ h !! t = Some (mkNode x q).
Proof.
  rewrite seg_app. simpl. split.
  - intros (r & Hs & -> & Ht & r' & Hl & <-). done.
  - intros (Hs & Ht & Hl). exists t. split; [done|]. eauto 10.
Qed.

(** The start of a segment is its end or one of its nodes. *)
Lemma seg_start h p ns q : seg h p ns q → p = q ∨ p ∈ ns.*1.
Proof.
  destruct ns as [|[a x] ns]; simpl; [by left|].
  intros (-> & _). right. left.
Qed.

(** *** [push_back] *)

Lemma push_back_chain h ns a v :
  chain h (head_of ns) ns → h !! a = None → a ≠ nullptr →
  chain (push_back_heap h ns a v) (head_of (ns ++ [(a, v)])) (ns ++ [(a, v)]).
Proof.
  intros Hc Ha Hnn. unfold push_back_heap.
  destruct (decide (ns = [])) as [->|Hne].
  - simpl. split; [done|]. split; [done|]. exists nullptr.
    by rewrite lookup_insert_eq.
  - destruct (exists_last Hne) as (ns' & [t x] & ->).
    rewrite last_snoc. rewrite head_of_app by done.
    pose proof (chain_NoDup _ _ _ Hc) as Hnd.
    rewrite fmap_app in Hnd. apply NoDup_app in Hnd as (_ & Hdisj & _).
    apply seg_snoc in Hc as (Hs & Ht & Hl).
    assert (t ≠ a) as Hta by congruence.
    unfold chain. rewrite <- app_assoc. apply seg_app. exists t. split.
    + apply (seg_frame h); [|done]. intros b Hb.
      rewrite !lookup_insert_ne; [done|..].
      * destruct (seg_lookup _ _ _ _ _ Hs Hb) as (? & ? & _ & ?). congruence.
      * intros ->. apply (Hdisj _ Hb). simpl. left.
    + simpl. split; [done|]. split; [done|]. exists a.
      rewrite lookup_insert_eq. split; [done|].
      split; [done|]. split; [done|]. exists nullptr.
      rewrite lookup_insert_ne by done. by rewrite lookup_insert_eq.
Qed.

Lemma push_back_run h ns v :
  heap_ok h → chain h (head_of ns) ns →
  push_back v (mkState (obj_of ns) h) =
    match alloc h with
    | Some a => Ok tt (mkState (obj_of (ns ++ [(a, v)])) (push_back_heap h ns a v))
    | None => Throw bad_alloc (mkState (obj_of ns) h)
    end.
Proof.
  intros Hok Hc. munfold. simpl. destruct (alloc h) as [a|] eqn:Ha; [|done].
  apply alloc_fresh in Ha as [Hfree Hrange]. simpl.
  assert (a ≠ nullptr) as Hnn by (unfold nullptr; lia).
  pose proof (push_back_chain _ _ _ v Hc Hfree Hnn) as Hc'.
  assert (heap_ok (push_back_heap h ns a v)) as Hok'.
  { unfold push_back_heap. destruct (last ns) as [[t x]|] eqn:Hl.
    - apply heap_ok_insert; [by apply heap_ok_insert|].
      apply Hok. apply last_Some in Hl as [ns' ->].
      apply seg_snoc in Hc as (_ & _ & ->). eauto.
    - by apply heap_ok_insert. }
  apply chain_size_word in Hc'; [|done]. rewrite length_app in Hc'.
  simpl length in Hc'.
  unfold push_back_heap.
  destruct (decide (ns = [])) as [->|Hne].
  - simpl. repeat mstep. mdone.
  - destruct (exists_last Hne) as (ns' & [t x] & ->).
    rewrite last_snoc.
    assert (head_of (ns' ++ [(t, x)]) ≠ nullptr) as Hhd.
    { destruct (seg_start _ _ _ _ Hc) as [Heq|Hin].
      - rewrite Heq in Hc. apply chain_null in Hc. by destruct ns'.
      - eapply seg_nonnull; [exact Hc|done]. }
    apply seg_snoc in Hc as (Hs & Ht & Hl).
    assert (t ≠ a) as Hta by congruence.
    destruct (decide (head_of (ns' ++ [(t, x)]) = nullptr)) as [?|_]; [done|].
    simpl. rewrite !tail_of_snoc.
    repeat mstep. apply Ok_state_eq.
    + by rewrite (head_of_app (ns' ++ [(t, x)])).
    + by rewrite tail_of_snoc.
    + rewrite !length_app in *. simpl length in *. rewrite Z.mod_small; lia.
    + done.
Qed.

(** *** [pop_back] *)

Lemma pop_back_walk_run fuel (l : SinglyLinkedList) h p pre b y :
  seg h p pre b → h !! b = Some (mkNode y (tail_ l)) →
  tail_ l ∉ pre.*1 → tail_ l ≠ b → (length pre < fuel)%nat →
  pop_back_walk fuel p (mkState l h) = Ok b (mkState l h).
Proof.
  revert p fuel. induction pre as [|[c z] pre IH]; intros p fuel; simpl.
  - intros -> Hl _ Hne Hf. destruct fuel as [|fuel]; [lia|]. simpl.
    unfold bind, load, get_tail, ret. simpl. rewrite Hl. simpl.
    by rewrite decide_False by (intros ?; done).
  - intros (-> & Hc & r & Hl & Hs) Hb Hnin Hne Hf.
    destruct fuel as [|fuel]; [lia|]. simpl.
    unfold bind, load, get_tail, ret. simpl. rewrite Hl. simpl.
    rewrite decide_True.
    + apply IH; try done; [|lia]. intros Hin. apply Hnin. by right.
    + destruct (seg_start _ _ _ _ Hs) as [->|Hin]; [done|].
      intros ->. apply Hnin. by right.
Qed.

Lemma pop_back_chain h ns t x :
  chain h (head_of (ns ++ [(t, x)])) (ns ++ [(t, x)]) →
  chain (pop_back_heap h ns t) (head_of ns) ns.
Proof.
  intros Hc. unfold pop_back_heap.
  pose proof (chain_NoDup _ _ _ Hc) as Hnd. rewrite fmap_app in Hnd.
  apply NoDup_app in Hnd as (Hnd & Hdisj & _).
  destruct (decide (ns = [])) as [->|Hne]; [done|].
  rewrite head_of_app in Hc by done.
  destruct (exists_last Hne) as (ns' & [b y] & ->). rewrite last_snoc.
  apply seg_snoc in Hc as (Hs & Ht & Hl).
  apply seg_snoc in Hs as (Hs & Hb & Hlb).
  rewrite fmap_app in Hnd. apply NoDup_app in Hnd as (_ & Hdisj' & _).
  assert (t ≠ b) as Htb.
  { intros ->. apply (Hdisj b); [|left]. rewrite fmap_app.
    apply elem_of_app. right. left. }
  apply seg_snoc. split; [|split; [done|]].
  - apply (seg_frame h); [|done]. intros c Hc.
    rewrite lookup_delete_ne, lookup_insert_ne; [done|..].
    + intros ->. apply (Hdisj' _ Hc). left.
    + intros ->. apply (Hdisj c); [|left]. rewrite fmap_app.
      apply elem_of_app. by left.
  - rewrite lookup_delete_ne by done. by rewrite lookup_insert_eq.
Qed.

Lemma pop_back_run h ns t x :
  heap_ok h → chain h (head_of (ns ++ [(t, x)])) (ns ++ [(t, x)]) →
  pop_back (mkState (obj_of (ns ++ [(t, x)])) h) =
    Ok tt (mkState (obj_of ns) (pop_back_heap h ns t)).
Proof.
  intros Hok Hc.
  pose proof (chain_size_word _ _ _ Hok Hc) as Hsz.
  pose proof (chain_length_live _ _ _ Hc) as Hlive.
  pose proof (chain_NoDup _ _ _ Hc) as Hnd. rewrite fmap_app in Hnd.
  apply NoDup_app in Hnd as (Hnd & Hdisj & _).
  unfold pop_back_heap.
  destruct (decide (ns = [])) as [->|Hne].
  - simpl in *. unfold pop_back, bind, get_head, get_tail. simpl.
    rewrite decide_False by (by destruct Hc as (_ & ? & _)).
    simpl. rewrite tail_of_single. rewrite decide_True by done.
    by rewrite (pop_front_run h [(t, x)]).
  - rewrite head_of_app in Hc by done.
    destruct (exists_last Hne) as (ns' & [b y] & ->). rewrite last_snoc.
    assert (head_of (ns' ++ [(b, y)]) ≠ nullptr) as Hhd.
    { destruct (seg_start _ _ _ _ Hc) as [Heq|Hin].
      - rewrite Heq in Hc. apply chain_null in Hc. by destruct ns'.
      - eapply seg_nonnull; [exact Hc|done]. }
    apply seg_snoc in Hc as (Hs & Ht & Hl).
    apply seg_snoc in Hs as (Hs & Hb & Hlb).
    rewrite fmap_app in Hnd. apply NoDup_app in Hnd as (_ & Hdisj' & _).
    assert (t ≠ b) as Htb.
    { intros ->. apply (Hdisj b); [|left]. rewrite fmap_app.
      apply elem_of_app. right. left. }
    assert (t ∉ ns'.*1) as Htn.
    { intros Hin. apply (Hdisj t); [|left]. rewrite fmap_app.
      apply elem_of_app. by left. }
    assert (head_of (ns' ++ [(b, y)]) ≠ t) as Hht.
    { destruct (seg_start _ _ _ _ Hs) as [Heq|Hin].
      - rewrite Heq. congruence.
      - intros Heq. rewrite Heq in Hin. done. }
    rewrite !length_app in *. simpl length in *.
    unfold pop_back, bind, get_head, get_tail. simpl.
    rewrite (head_of_app (ns' ++ [(b, y)])) by done.
    rewrite decide_False by done. simpl. rewrite tail_of_snoc.
    rewrite decide_False by done.
    rewrite (pop_back_walk_run _ _ _ _ ns' b y); simpl;
      rewrite ?tail_of_snoc; try done; [|lia].
    munfold. simpl. repeat mstep.
    rewrite (delete_single_run _ _ t x); [|done|by rewrite lookup_insert_ne].
    simpl. apply Ok_state_eq; try done.
    + by rewrite (head_of_app (ns' ++ [(b, y)])).
    + by rewrite tail_of_snoc.
    + rewrite !length_app. simpl length. rewrite Z.mod_small; lia.
Qed.

End RunningBack.

(** Two free stores are equal when they agree at every address. *)
Ltac heap_eq :=
  apply map_eq; intros ?k;
  repeat (rewrite lookup_insert || rewrite lookup_delete);
  repeat case_decide; simplify_eq; done.

Section RunningMiddle.
Context {T : Type}.
Implicit Types (h : heap T) (ns : list (Z * T)) (p q a : Z) (s : state T).

(** A chain cut at one of its nodes. *)
Lemma chain_mid h p ns1 pos x ns2 :
  chain h p (ns1 ++ (pos, x) :: ns2) ↔
  seg h p ns1 pos ∧ pos ≠ nullptr ∧
  h !! pos = Some (mkNode x (head_of ns2)) ∧ chain h (head_of ns2) ns2.
Proof.
  unfold chain. rewrite seg_app. simpl. split.
  - intros (r & Hs & -> & Hp & r' & Hl & Hc).
    pose proof (chain_head _ _ _ Hc) as <-. done.
  - intros (Hs & Hp & Hl & Hc). exists pos. split; [done|]. eauto 10.
Qed.

Lemma chain_mid_NoDup h p ns1 pos x ns2 :
  chain h p (ns1 ++ (pos, x) :: ns2) →
  (pos ∉ ns1.*1) ∧ (pos ∉ ns2.*1) ∧ (∀ c, c ∈ ns1.*1 → c ∉ ns2.*1).
Proof.
  intros Hnd%chain_NoDup. rewrite fmap_app, fmap_cons in Hnd. simpl in Hnd.
  apply NoDup_app in Hnd as (_ & Hdisj & Hnd).
  apply NoDup_cons in Hnd as [Hn2 _]. repeat split; [|done|].
  - intros Hin. apply (Hdisj _ Hin). left.
  - intros c Hc Hc2. apply (Hdisj _ Hc). by right.
Qed.

Lemma tail_of_mid h p ns1 pos x ns2 :
  chain h p (ns1 ++ (pos, x) :: ns2) →
  tail_of (ns1 ++ (pos, x) :: ns2) = pos ↔ ns2 = [].
Proof.
  intros Hc. split.
  - intros Ht. destruct (decide (ns2 = [])) as [|Hne]; [done|].
    destruct (chain_mid_NoDup _ _ _ _ _ _ Hc) as (_ & Hn2 & _).
    exfalso. apply Hn2. rewrite <- Ht.
    rewrite tail_of_app by done. rewrite tail_of_cons by done.
    by apply tail_of_elem.
  - intros ->. apply tail_of_snoc.
Qed.

(** *** [insert_after] *)

Lemma insert_after_null v s :
  insert_after nullptr v s =
    Throw (invalid_argument "Cannot insert_after a null iterator") s.
Proof. done. Qed.

Lemma insert_after_chain h ns1 pos x ns2 a v :
  chain h (head_of (ns1 ++ (pos, x) :: ns2)) (ns1 ++ (pos, x) :: ns2) →
  h !! a = None → a ≠ nullptr →
  chain (<[pos := mkNode x a]> (<[a := mkNode v (head_of ns2)]> h))
        (head_of (ns1 ++ (pos, x) :: (a, v) :: ns2))
        (ns1 ++ (pos, x) :: (a, v) :: ns2).
Proof.
  intros Hc Ha Hnn.
  destruct (chain_mid_NoDup _ _ _ _ _ _ Hc) as (Hn1 & Hn2 & _).
  assert (head_of (ns1 ++ (pos, x) :: (a, v) :: ns2) =
          head_of (ns1 ++ (pos, x) :: ns2)) as ->.
  { by destruct ns1 as [|[] ?]. }
  apply chain_mid in Hc as (Hs & Hp & Hl & Hc2).
  assert (pos ≠ a) as Hpa by congruence.
  apply chain_mid. simpl. repeat split; try done.
  - apply (seg_frame h); [|done]. intros c Hc.
    rewrite !lookup_insert_ne; [done|..].
    + destruct (seg_lookup _ _ _ _ _ Hs Hc) as (? & ? & _ & ?). congruence.
    + intros ->. done.
  - by rewrite lookup_insert_eq.
  - exists (head_of ns2). rewrite lookup_insert_ne by done.
    rewrite lookup_insert_eq. split; [done|].
    apply (seg_frame h); [|done]. intros c Hc.
    rewrite !lookup_insert_ne; [done|..].
    + destruct (seg_lookup _ _ _ _ _ Hc2 Hc) as (? & ? & _ & ?). congruence.
    + intros ->. done.
Qed.

Lemma insert_after_run h ns1 pos x ns2 v :
  heap_ok h →
  chain h (head_of (ns1 ++ (pos, x) :: ns2)) (ns1 ++ (pos, x) :: ns2) →
  insert_after pos v (mkState (obj_of (ns1 ++ (pos, x) :: ns2)) h) =
    match alloc h with
    | Some a =>
        Ok a (mkState (obj_of (ns1 ++ (pos, x) :: (a, v) :: ns2))
                      (<[pos := mkNode x a]> (<[a := mkNode v (head_of ns2)]> h)))
    | None => Throw bad_alloc (mkState (obj_of (ns1 ++ (pos, x) :: ns2)) h)
    end.
Proof.
  intros Hok Hc.
  pose proof (tail_of_mid _ _ _ _ _ _ Hc) as Htail.
  pose proof Hc as (Hs & Hp & Hl & Hc2)%chain_mid.
  unfold insert_after. rewrite decide_False by done.
  munfold. simpl. destruct (alloc h) as [a|] eqn:Ha; [|done].
  apply alloc_fresh in Ha as [Hfree Hrange]. simpl.
  assert (a ≠ nullptr) as Hnn by (unfold nullptr; lia).
  assert (pos ≠ a) as Hpa by congruence.
  pose proof (insert_after_chain _ _ _ _ _ _ v Hc Hfree Hnn) as Hc'.
  apply chain_size_word in Hc';
    [|apply heap_ok_insert; [by apply heap_ok_insert|apply Hok; eauto]].
  rewrite !length_app in *. simpl length in *.
  assert (∀ b, <[pos:=mkNode x b]>
      (<[a:=mkNode v (head_of ns2)]>
         (<[pos:=mkNode x nullptr]> (<[a:=mkNode v nullptr]> h))) =
      <[pos := mkNode x b]> (<[a := mkNode v (head_of ns2)]> h)) as Hheap.
  { intros b. heap_eq. }
  destruct (decide (tail_of (ns1 ++ (pos, x) :: ns2) = pos)) as [Ht|Ht]; simpl.
  - pose proof (proj1 Htail Ht) as ->. repeat mstep.
    rewrite Hheap. apply Ok_state_eq; try done.
    + by destruct ns1 as [|[] ?].
    + rewrite (tail_of_app ns1) by done. done.
    + rewrite !length_app. simpl length in *. rewrite Z.mod_small; lia.
  - repeat mstep. rewrite Hheap. apply Ok_state_eq; try done.
    + by destruct ns1 as [|[] ?].
    + assert (ns2 ≠ []) as Hne by (intros ?; apply Ht; by apply Htail).
      rewrite !(tail_of_app ns1) by done. by rewrite !tail_of_cons.
    + rewrite !length_app. simpl length in *. rewrite Z.mod_small; lia.
Qed.

(** *** [erase_after] *)

Lemma erase_after_null s :
  erase_after nullptr s =
    Throw (out_of_range "Cannot erase_after: no next element") s.
Proof. done. Qed.

Lemma erase_after_last h ns1 pos x :
  chain h (head_of (ns1 ++ [(pos, x)])) (ns1 ++ [(pos, x)]) →
  erase_after pos (mkState (obj_of (ns1 ++ [(pos, x)])) h) =
    Throw (out_of_range "Cannot erase_after: no next element")
          (mkState (obj_of (ns1 ++ [(pos, x)])) h).
Proof.
  intros (Hs & Hp & Hl & _)%chain_mid. simpl in Hl.
  unfold erase_after. rewrite decide_False by done.
  munfold. simpl. by repeat mstep.
Qed.

Lemma erase_after_chain h ns1 pos x b y ns2 :
  chain h (head_of (ns1 ++ (pos, x) :: (b, y) :: ns2))
        (ns1 ++ (pos, x) :: (b, y) :: ns2) →
  chain (delete b (<[pos := mkNode x (head_of ns2)]> h))
        (head_of (ns1 ++ (pos, x) :: ns2)) (ns1 ++ (pos, x) :: ns2).
Proof.
  intros Hc.
  destruct (chain_mid_NoDup _ _ _ _ _ _ Hc) as (Hn1 & Hn2 & Hd).
  assert (head_of (ns1 ++ (pos, x) :: (b, y) :: ns2) =
          head_of (ns1 ++ (pos, x) :: ns2)) as Hhd.
  { by destruct ns1 as [|[] ?]. }
  rewrite Hhd in Hc.
  pose proof Hc as Hc0.
  apply chain_mid in Hc as (Hs & Hp & Hl & Hc2). simpl in Hl.
  pose proof (chain_NoDup _ _ _ Hc2) as Hnd2. simpl in Hnd2.
  apply NoDup_cons in Hnd2 as [Hb2 _].
  destruct Hc2 as (_ & Hb & r & Hlb & Hc2).
  pose proof (chain_head _ _ _ Hc2) as ->.
  assert (pos ≠ b) as Hpb.
  { intros ->. apply Hn2. left. }
  apply chain_mid. repeat split; try done.
  - apply (seg_frame h); [|done]. intros c Hc.
    rewrite lookup_delete_ne, lookup_insert_ne; [done|..].
    + intros ->. done.
    + intros ->. apply (Hd _ Hc). left.
  - rewrite lookup_delete_ne by done. by rewrite lookup_insert_eq.
  - apply (seg_frame h); [|done]. intros c Hc.
    rewrite lookup_delete_ne, lookup_insert_ne; [done|..].
    + intros ->. apply Hn2. by right.
    + intros ->. done.
Qed.

Lemma erase_after_run h ns1 pos x b y ns2 :
  heap_ok h →
  chain h (head_of (ns1 ++ (pos, x) :: (b, y) :: ns2))
        (ns1 ++ (pos, x) :: (b, y) :: ns2) →
  erase_after pos (mkState (obj_of (ns1 ++ (pos, x) :: (b, y) :: ns2)) h) =
    Ok (head_of ns2)
       (mkState (obj_of (ns1 ++ (pos, x) :: ns2))
                (delete b (<[pos := mkNode x (head_of ns2)]> h))).
Proof.
  intros Hok Hc.
  pose proof (chain_size_word _ _ _ Hok Hc) as Hsz.
  destruct (chain_mid_NoDup _ _ _ _ _ _ Hc) as (Hn1 & Hn2 & Hd).
  pose proof (tail_of_mid h (head_of (ns1 ++ (pos, x) :: (b, y) :: ns2))
                (ns1 ++ [(pos, x)]) b y ns2) as Htail.
  rewrite <- app_assoc in Htail. simpl in Htail. specialize (Htail Hc).
  pose proof Hc as (Hs & Hp & Hl & Hc2)%chain_mid. simpl in Hl.
  destruct Hc2 as (_ & Hb & r & Hlb & Hc2).
  pose proof (chain_head _ _ _ Hc2) as ->.
  assert (pos ≠ b) as Hpb.
  { intros ->. apply Hn2. left. }
  rewrite !length_app in *. simpl length in *.
  unfold erase_after. rewrite decide_False by done.
  munfold. simpl. repeat mstep.
  all: rewrite (delete_single_run _ _ b y);
    [|done|by rewrite lookup_insert_ne, lookup_insert_eq by done].
  all: simpl; apply Ok_state_eq.
  all: try (by destruct ns1 as [|[] ?]).
  all: try (rewrite !length_app; simpl length; rewrite Z.mod_small; lia).
  all: try heap_eq.
  - assert (ns2 = []) as -> by (by apply Htail). by rewrite tail_of_snoc.
  - assert (ns2 ≠ []) as Hne by (intros HH; apply Htail in HH; done).
    rewrite !(tail_of_app ns1) by done. by rewrite !tail_of_cons.
Qed.

(** *** [clear] and the destructor *)

Lemma chain_lookup_live h p ns a : chain h p ns → a ∈ ns.*1 → is_Some (h !! a).
Proof.
  intros Hc Ha. destruct (seg_lookup _ _ _ _ _ Hc Ha) as (x & r & _ & ->). eauto.
Qed.

Lemma clear_run h ns :
  chain h (head_of ns) ns →
  clear (mkState (obj_of ns) h) =
    Ok tt (mkState (mkList nullptr nullptr 0) (free_all ns.*1 h)).
Proof.
  intros Hc. munfold. simpl.
  by rewrite (delete_chain_chain _ _ ns).
Qed.

Lemma dtor_run h ns :
  chain h (head_of ns) ns →
  dtor (mkState (obj_of ns) h) =
    Ok tt (mkState (obj_of ns) (free_all ns.*1 h)).
Proof.
  intros Hc. munfold. simpl.
  by rewrite (delete_chain_chain _ _ ns).
Qed.

End RunningMiddle.

Section RunningReverse.
Context {T : Type}.
Implicit Types (h : heap T) (ns : list (Z * T)) (p q a : Z) (s : state T).

Lemma reverse_loop_run fuel (l : SinglyLinkedList) h prev cur ns :
  chain h cur ns → (length ns ≤ fuel)%nat →
  reverse_loop fuel prev cur (mkState l h) =
    Ok (default prev (last ns.*1)) (mkState l (relink prev ns h)).
Proof.
  revert h prev cur fuel.
  induction ns as [|[a x] ns IH]; intros h prev cur fuel Hc Hf.
  - apply chain_null_iff in Hc as ->. by destruct fuel.
  - pose proof (chain_NoDup _ _ _ Hc) as Hnd. rewrite fmap_cons in Hnd.
    apply NoDup_cons in Hnd as [Hna _].
    destruct Hc as (-> & Ha & r & Hl & Hc).
    destruct fuel as [|fuel]; [simpl in Hf; lia|]. simpl in Hf.
    cbn [reverse_loop]. rewrite decide_False by done.
    munfold. cbn [self mem next data]. repeat mstep.
    rewrite IH; [|by apply chain_frame_insert|lia].
    rewrite last_cons. by destruct (last _).
Qed.

Lemma relink_chain h prev acc cur ns :
  chain h prev acc → chain h cur ns →
  (∀ c, c ∈ ns.*1 → c ∉ acc.*1) →
  chain (relink prev ns h) (default prev (last ns.*1)) (rev ns ++ acc).
Proof.
  revert h prev acc cur.
  induction ns as [|[a x] ns IH]; intros h prev acc cur Hd Hc Hdisj; [done|].
  pose proof (chain_NoDup _ _ _ Hc) as Hnd. rewrite fmap_cons in Hnd.
  apply NoDup_cons in Hnd as [Hna _].
  destruct Hc as (-> & Ha & r & Hl & Hc).
  cbn [rev relink]. rewrite <- app_assoc. cbn [app].
  rewrite fmap_cons, last_cons. cbn [fst].
  replace (default prev (match last ns.*1 with Some y => Some y | None => Some a end))
    with (default a (last ns.*1)) by (by destruct (last ns.*1)).
  apply (IH _ a ((a, x) :: acc) r).
  - split; [done|]. split; [done|]. exists prev. rewrite lookup_insert_eq.
    split; [done|]. apply chain_frame_insert; [done|].
    apply Hdisj. left.
  - by apply chain_frame_insert.
  - intros c Hin [->|Hin']%elem_of_cons; [done|].
    apply (Hdisj c); [by right|done].
Qed.

Lemma head_of_rev ns : head_of (rev ns) = tail_of ns.
Proof.
  destruct (decide (ns = [])) as [->|Hne]; [done|].
  destruct (exists_last Hne) as (ns' & [t x] & ->).
  by rewrite rev_unit, tail_of_snoc.
Qed.

Lemma tail_of_rev ns : tail_of (rev ns) = head_of ns.
Proof. destruct ns as [|[a x] ns]; [done|]. simpl. by rewrite tail_of_snoc. Qed.

Lemma reverse_chain h ns :
  chain h (head_of ns) ns →
  chain (relink nullptr ns h) (head_of (rev ns)) (rev ns).
Proof.
  intros Hc. rewrite head_of_rev.
  pose proof (relink_chain h nullptr [] _ ns eq_refl Hc) as Hr.
  rewrite app_nil_r in Hr. apply Hr. intros c _ Hin. by apply elem_of_nil in Hin.
Qed.

Lemma reverse_run h ns :
  heap_ok h → chain h (head_of ns) ns →
  reverse (mkState (obj_of ns) h) =
    Ok tt (mkState (obj_of (rev ns)) (relink nullptr ns h)).
Proof.
  intros Hok Hc. unfold reverse, bind, get_size. simpl.
  destruct (decide (Z.of_nat (length ns) < 2)) as [Hlt|Hge].
  - destruct ns as [|[a x] [|??]]; simpl in Hlt; try lia; [done|].
    destruct Hc as (_ & Ha & r & Hl & ->). simpl.
    unfold ret. by rewrite insert_id.
  - pose proof (chain_length_live _ _ _ Hc) as Hlive.
    munfold. simpl.
    rewrite (reverse_loop_run _ _ _ _ _ ns); [|done..]. simpl.
    rewrite delete_chain_null. apply Ok_state_eq; try done.
    + by rewrite head_of_rev.
    + by rewrite tail_of_rev.
    + by rewrite length_rev.
Qed.

End RunningReverse.

(** ** The footprint of a call *)

(** Membership in the addresses of a chain given by appends and conses. *)
Ltac elem_tac :=
  repeat (rewrite fmap_app in * || rewrite fmap_cons in * ||
          rewrite elem_of_app in * || rewrite elem_of_cons in * ||
          rewrite elem_of_nil in *);
  cbn [fst] in *; intuition (subst; auto; congruence).

(** Solves the frame condition for a free store built by inserting and
    deleting at nodes of the list or at a fresh address. *)
Ltac frame_tac :=
  let b := fresh "b" in
  let Hb := fresh "Hb" in
  let Hl := fresh "Hl" in
  intros b Hb [? Hl];
  repeat (rewrite lookup_insert_ne || rewrite lookup_delete_ne);
  first [done | intros ->; first [congruence | apply Hb; elem_tac]].

Section Footprint.
Context {T : Type}.
Implicit Types (h : heap T) (ns : list (Z * T)) (p q a : Z) (s : state T).

Lemma evolves_refl h ns :
  heap_ok h → chain h (head_of ns) ns → evolves h ns h ns.
Proof.
  intros Hok Hc. split; [done|]. split; [done|]. split; [done|].
  intros b Hb. by left.
Qed.

Lemma evolves_trans h ns h1 ns1 h2 ns2 :
  evolves h ns h1 ns1 → evolves h1 ns1 h2 ns2 → evolves h ns h2 ns2.
Proof.
  intros (_ & _ & Hf1 & Hn1) (Hok & Hc & Hf2 & Hn2).
  split; [done|]. split; [done|]. split.
  - intros b Hb Hlive. rewrite <- (Hf1 b Hb Hlive). apply Hf2.
    + intros Hin. destruct (Hn1 b Hin) as [?|Hnone]; [done|].
      rewrite Hnone in Hlive. by destruct Hlive.
    + by rewrite (Hf1 b Hb Hlive).
  - intros b Hb. destruct (Hn2 b Hb) as [Hin|Hnone]; [by apply Hn1|].
    destruct (decide (b ∈ ns.*1)) as [?|Hnin]; [by left|]. right.
    destruct (h !! b) as [n|] eqn:Hl; [|done].
    rewrite (Hf1 b Hnin) in Hnone by eauto. congruence.
Qed.

(** A chain of another owner is not affected. *)
Lemma evolves_other h ns h' ns' q ms :
  evolves h ns h' ns' → chain h q ms → (∀ b, b ∈ ms.*1 → b ∉ ns.*1) →
  chain h' q ms ∧ (∀ b, b ∈ ms.*1 → b ∉ ns'.*1).
Proof.
  intros (_ & _ & Hf & Hn) Hc Hdisj. split.
  - apply (seg_frame h); [|done]. intros b Hb. apply Hf; [by apply Hdisj|].
    by eapply chain_lookup_live.
  - intros b Hb Hin. destruct (Hn b Hin) as [?|Hnone]; [by eapply Hdisj|].
    destruct (chain_lookup_live _ _ _ _ Hc Hb) as [n Hl]. congruence.
Qed.

Lemma lookup_relink_notin prev ns h b :
  b ∉ ns.*1 → relink prev ns h !! b = h !! b.
Proof.
  revert prev h. induction ns as [|[a x] ns IH]; intros prev h Hb; [done|].
  simpl. rewrite IH.
  - rewrite lookup_insert_ne; [done|]. intros ->. apply Hb. left.
  - intros Hin. apply Hb. by right.
Qed.

Lemma heap_ok_relink prev ns h p :
  heap_ok h → chain h p ns → heap_ok (relink prev ns h).
Proof.
  intros Hok Hc b [n Hn]. destruct (decide (b ∈ ns.*1)) as [Hin|Hnin].
  - apply Hok. by eapply chain_lookup_live.
  - rewrite lookup_relink_notin in Hn by done. apply Hok. eauto.
Qed.

Lemma push_front_evolves h ns a v :
  heap_ok h → chain h (head_of ns) ns → h !! a = None → 0 < a < word_modulus →
  evolves h ns (<[a := mkNode v (head_of ns)]> h) ((a, v) :: ns).
Proof.
  intros Hok Hc Ha Hr. split; [by apply heap_ok_insert|]. split; [|split].
  - apply push_front_chain; try done. unfold nullptr. lia.
  - frame_tac.
  - intros b [->|Hin]%elem_of_cons; [by right|by left].
Qed.

Lemma push_back_evolves h ns a v :
  heap_ok h → chain h (head_of ns) ns → h !! a = None → 0 < a < word_modulus →
  evolves h ns (push_back_heap h ns a v) (ns ++ [(a, v)]).
Proof.
  intros Hok Hc Ha Hr. split; [|split; [|split]].
  - unfold push_back_heap. destruct (last ns) as [[t x]|] eqn:Hl.
    + apply heap_ok_insert; [by apply heap_ok_insert|].
      apply Hok. apply last_Some in Hl as [ns' ->].
      apply seg_snoc in Hc as (_ & _ & ->). eauto.
    + by apply heap_ok_insert.
  - apply push_back_chain; try done. unfold nullptr. lia.
  - unfold push_back_heap. destruct (last ns) as [[t x]|] eqn:Hl.
    + apply last_Some in Hl as [ns' ->]. frame_tac.
    + frame_tac.
  - intros b. rewrite fmap_app. intros [Hin|Hin]%elem_of_app; [by left|].
    right. apply list_elem_of_singleton in Hin as ->. done.
Qed.

Lemma pop_front_evolves h a x ns :
  heap_ok h → chain h a ((a, x) :: ns) →
  evolves h ((a, x) :: ns) (delete a h) ns.
Proof.
  intros Hok Hc. split; [by apply heap_ok_delete|]. split; [|split].
  - by eapply chain_delete_head.
  - frame_tac.
  - intros b Hb. left. by right.
Qed.

Lemma pop_back_evolves h ns t x :
  heap_ok h → chain h (head_of (ns ++ [(t, x)])) (ns ++ [(t, x)]) →
  evolves h (ns ++ [(t, x)]) (pop_back_heap h ns t) ns.
Proof.
  intros Hok Hc. split; [|split; [|split]].
  - unfold pop_back_heap. destruct (last ns) as [[b y]|] eqn:Hl.
    + apply heap_ok_delete, heap_ok_insert; [done|]. apply Hok.
      eapply chain_lookup_live; [exact Hc|].
      apply last_Some in Hl as [ns' ->]. elem_tac.
    + by apply heap_ok_delete.
  - by eapply pop_back_chain.
  - unfold pop_back_heap. destruct (last ns) as [[b y]|] eqn:Hl.
    + apply last_Some in Hl as [ns' ->]. frame_tac.
    + frame_tac.
  - intros b Hb. left. elem_tac.
Qed.

Lemma insert_after_evolves h ns1 pos x ns2 a v :
  heap_ok h →
  chain h (head_of (ns1 ++ (pos, x) :: ns2)) (ns1 ++ (pos, x) :: ns2) →
  h !! a = None → 0 < a < word_modulus →
  evolves h (ns1 ++ (pos, x) :: ns2)
          (<[pos := mkNode x a]> (<[a := mkNode v (head_of ns2)]> h))
          (ns1 ++ (pos, x) :: (a, v) :: ns2).
Proof.
  intros Hok Hc Ha Hr. split; [|split; [|split]].
  - apply heap_ok_insert; [by apply heap_ok_insert|]. apply Hok.
    eapply chain_lookup_live; [exact Hc|]. elem_tac.
  - apply insert_after_chain; try done. unfold nullptr. lia.
  - frame_tac.
  - intros b Hb. destruct (decide (b = a)) as [->|Hne]; [by right|].
    left. elem_tac.
Qed.

Lemma erase_after_evolves h ns1 pos x b y ns2 :
  heap_ok h →
  chain h (head_of (ns1 ++ (pos, x) :: (b, y) :: ns2))
        (ns1 ++ (pos, x) :: (b, y) :: ns2) →
  evolves h (ns1 ++ (pos, x) :: (b, y) :: ns2)
          (delete b (<[pos := mkNode x (head_of ns2)]> h))
          (ns1 ++ (pos, x) :: ns2).
Proof.
  intros Hok Hc. split; [|split; [|split]].
  - apply heap_ok_delete, heap_ok_insert; [done|]. apply Hok.
    eapply chain_lookup_live; [exact Hc|]. elem_tac.
  - by apply (erase_after_chain _ _ _ _ _ y).
  - frame_tac.
  - intros c Hin. left. elem_tac.
Qed.

Lemma free_all_evolves h ns :
  heap_ok h → chain h (head_of ns) ns → evolves h ns (free_all ns.*1 h) [].
Proof.
  intros Hok Hc. split; [by apply heap_ok_free_all|]. split; [done|]. split.
  - intros b Hb _. rewrite lookup_free_all. by rewrite decide_False.
  - intros b Hb. by apply elem_of_nil in Hb.
Qed.

Lemma elem_of_rev_addrs ns b : b ∈ (rev ns).*1 ↔ b ∈ ns.*1.
Proof.
  rewrite !list_elem_of_fmap. split; intros (n & -> & Hin); exists n;
    (split; [done|]); apply list_elem_of_In; apply list_elem_of_In in Hin.
  - by rewrite in_rev.
  - by rewrite <- in_rev.
Qed.

Lemma reverse_evolves h ns :
  heap_ok h → chain h (head_of ns) ns →
  evolves h ns (relink nullptr ns h) (rev ns).
Proof.
  intros Hok Hc. split; [by eapply heap_ok_relink|]. split; [|split].
  - by apply reverse_chain.
  - intros b Hb _. by apply lookup_relink_notin.
  - intros b Hb. left. by apply elem_of_rev_addrs.
Qed.

End Footprint.

(** ** Every member function keeps the invariant *)

Section Calls.
Context {T : Type}.
Implicit Types (h : heap T) (ns : list (Z * T)) (p q a : Z) (s : state T).

Lemma leaves_functional {A} (r : outcome T A) s1 s2 :
  leaves r s1 → leaves r s2 → s1 = s2.
Proof. intros [[? ->]|[? ->]] [[? ?]|[? ?]]; congruence. Qed.

Lemma position_split h ns pos :
  chain h (head_of ns) ns → position_of h (obj_of ns) pos →
  ∃ ns1 x ns2, ns = ns1 ++ (pos, x) :: ns2.
Proof.
  intros Hc (ns0 & Hv & Hin).
  rewrite (visit_chain _ _ ns) in Hv by done. injection Hv as <-.
  destruct (chain_split _ _ _ _ Hc Hin) as (ns1 & x & ns2 & -> & _). eauto.
Qed.

Lemma pop_back_nil h :
  pop_back (mkState (obj_of (@nil (Z * T))) h) =
    Throw (out_of_range "pop_back on an empty list")
          (mkState (obj_of (@nil (Z * T))) h).
Proof. done. Qed.

Lemma emplace_front_push {Args} (ctor : Args → T) args :
  emplace_front ctor args = push_front (ctor args).
Proof. done. Qed.

Lemma emplace_back_push {Args} (ctor : Args → T) args :
  emplace_back ctor args = push_back (ctor args).
Proof. done. Qed.

Lemma emplace_after_null {Args} (ctor : Args → T) args s :
  emplace_after nullptr ctor args s =
    Throw (invalid_argument "Cannot emplace_after a null iterator") s.
Proof. done. Qed.

Lemma emplace_after_insert {Args} pos (ctor : Args → T) args :
  pos ≠ nullptr → emplace_after pos ctor args = insert_after pos (ctor args).
Proof.
  intros Hp. unfold emplace_after, insert_after. by rewrite !decide_False.
Qed.

Lemma push_front_evolves_run v h ns :
  heap_ok h → chain h (head_of ns) ns →
  ∃ h' ns', leaves (push_front v (mkState (obj_of ns) h)) (mkState (obj_of ns') h') ∧
            evolves h ns h' ns'.
Proof.
  intros Hok Hc. rewrite push_front_run by done.
  destruct (alloc h) as [a|] eqn:Ha.
  - apply alloc_fresh in Ha as [Hfree Hr]. eexists _, _. split; [left; eauto|].
    by apply push_front_evolves.
  - exists h, ns. split; [right; eauto|]. by apply evolves_refl.
Qed.

Lemma push_back_evolves_run v h ns :
  heap_ok h → chain h (head_of ns) ns →
  ∃ h' ns', leaves (push_back v (mkState (obj_of ns) h)) (mkState (obj_of ns') h') ∧
            evolves h ns h' ns'.
Proof.
  intros Hok Hc. rewrite push_back_run by done.
  destruct (alloc h) as [a|] eqn:Ha.
  - apply alloc_fresh in Ha as [Hfree Hr]. eexists _, _. split; [left; eauto|].
    by apply push_back_evolves.
  - exists h, ns. split; [right; eauto|]. by apply evolves_refl.
Qed.

Lemma insert_after_evolves_run pos v h ns :
  heap_ok h → chain h (head_of ns) ns →
  pos = nullptr ∨ position_of h (obj_of ns) pos →
  ∃ h' ns', leaves (insert_after pos v (mkState (obj_of ns) h))
                   (mkState (obj_of ns') h') ∧
            evolves h ns h' ns'.
Proof.
  intros Hok Hc [->|Hpos].
  - exists h, ns. split; [right; eauto|]. by apply evolves_refl.
  - destruct (position_split _ _ _ Hc Hpos) as (ns1 & x & ns2 & ->).
    rewrite insert_after_run by done.
    destruct (alloc h) as [a|] eqn:Ha.
    + apply alloc_fresh in Ha as [Hfree Hr]. eexists _, _. split; [left; eauto|].
      by apply insert_after_evolves.
    + eexists _, _. split; [right; eauto|]. by apply evolves_refl.
Qed.

Lemma call_evolves m h ns :
  heap_ok h → chain h (head_of ns) ns → valid_call h (obj_of ns) m →
  ∃ h' ns', leaves (call m (mkState (obj_of ns) h)) (mkState (obj_of ns') h') ∧
            evolves h ns h' ns'.
Proof.
  intros Hok Hc Hvalid.
  pose proof (Inv_intro _ _ Hok Hc) as HI.
  pose proof (evolves_refl _ _ Hok Hc) as Hrefl.
  destruct m; simpl in Hvalid; unfold call.
  - exists h, ns. split; [left; eauto|done].
  - exists h, ns. split; [left; eauto|done].
  - exists h, ns. split; [left; eauto|done].
  - exists h, ns. split; [left; eauto|done].
  - exists h, ns. split; [|done]. unfold bind. rewrite (front_run _ ns) by done.
    destruct ns as [|[a x] ns]; [right|left]; eauto.
  - exists h, ns. split; [|done]. unfold bind. rewrite (back_run _ ns) by done.
    destruct (last ns) as [[a x]|]; [left|right]; eauto.
  - eexists _, []. rewrite clear_run by done. split; [left; eauto|].
    by apply free_all_evolves.
  - by apply push_front_evolves_run.
  - rewrite emplace_front_push. by apply push_front_evolves_run.
  - by apply push_back_evolves_run.
  - rewrite emplace_back_push. by apply push_back_evolves_run.
  - rewrite pop_front_run by done. destruct ns as [|[a x] ns].
    + exists h, []. split; [right; eauto|done].
    + eexists _, _. split; [left; eauto|]. by apply pop_front_evolves.
  - destruct (decide (ns = [])) as [->|Hne].
    + exists h, []. split; [right; eauto|done].
    + destruct (exists_last Hne) as (ns' & [t x] & ->).
      rewrite pop_back_run by done. eexists _, _. split; [left; eauto|].
      by apply pop_back_evolves.
  - destruct (insert_after_evolves_run pos value h ns Hok Hc Hvalid)
      as (h' & ns' & Hl & He).
    exists h', ns'. split; [|done]. unfold bind.
    destruct Hl as [[a ->]|[e ->]]; [left|right]; eauto.
  - destruct (decide (pos = nullptr)) as [->|Hp].
    { exists h, ns. split; [right; eauto|done]. }
    rewrite emplace_after_insert by done.
    destruct (insert_after_evolves_run pos (ctor args) h ns Hok Hc Hvalid)
      as (h' & ns' & Hl & He).
    exists h', ns'. split; [|done]. unfold bind.
    destruct Hl as [[a ->]|[e ->]]; [left|right]; eauto.
  - unfold bind. destruct Hvalid as [->|Hpos].
    + exists h, ns. split; [right; eauto|done].
    + destruct (position_split _ _ _ Hc Hpos) as (ns1 & x & ns2 & ->).
      destruct ns2 as [|[b y] ns2].
      * rewrite erase_after_last by done. eexists _, _. split; [right; eauto|done].
      * rewrite erase_after_run by done. eexists _, _. split; [left; eauto|].
        by apply erase_after_evolves.
  - rewrite reverse_run by done. eexists _, _. split; [left; eauto|].
    by apply reverse_evolves.
Qed.

End Calls.

(** ** Constructors and assignment *)

Section Lifecycle.
Context {T : Type}.
Implicit Types (h : heap T) (ns ms : list (Z * T)) (p q a : Z) (s : state T).

Lemma default_ctor_run (l : SinglyLinkedList) h :
  default_ctor (mkState l h) = Ok tt (mkState (obj_of (@nil (Z * T))) h).
Proof. done. Qed.

Lemma move_ctor_run (l other : SinglyLinkedList) h :
  move_ctor other (mkState l h) =
    Ok (obj_of (@nil (Z * T))) (mkState other h).
Proof. by destruct other. Qed.

(** The loop of the initializer-list constructor appends the values in
    order, or stops at the first allocation that fails. *)
Lemma ilist_loop_run ilist h ms :
  heap_ok h → chain h (head_of ms) ms →
  ∃ h' ms', evolves h ms h' ms' ∧
    ((ilist_loop ilist (mkState (obj_of ms) h) = Ok tt (mkState (obj_of ms') h') ∧
      ms'.*2 = ms.*2 ++ ilist) ∨
     ilist_loop ilist (mkState (obj_of ms) h) =
       Throw bad_alloc (mkState (obj_of ms') h')).
Proof.
  revert h ms. induction ilist as [|v ilist IH]; intros h ms Hok Hc.
  - exists h, ms. split; [by apply evolves_refl|]. left.
    by rewrite app_nil_r.
  - simpl. unfold bind. rewrite push_back_run by done.
    destruct (alloc h) as [a|] eqn:Ha.
    + apply alloc_fresh in Ha as [Hfree Hr].
      pose proof (push_back_evolves _ _ _ v Hok Hc Hfree Hr) as He.
      pose proof He as (Hok1 & Hc1 & _).
      destruct (IH _ _ Hok1 Hc1) as (h' & ms' & He' & Hrun).
      exists h', ms'. split; [by eapply evolves_trans|].
      destruct Hrun as [[-> Hv]| ->]; [left|by right].
      split; [done|]. rewrite Hv, fmap_app. by rewrite <- app_assoc.
    + exists h, ms. split; [by apply evolves_refl|]. by right.
Qed.

Lemma copy_loop_step fuel c z r h ms :
  heap_ok h → chain h (head_of ms) ms →
  c ≠ nullptr → h !! c = Some (mkNode z r) → c ∉ ms.*1 →
  copy_loop (S fuel) c (mkState (obj_of ms) h) =
    match alloc h with
    | Some a => copy_loop fuel r (mkState (obj_of (ms ++ [(a, z)]))
                                          (push_back_heap h ms a z))
    | None => Throw bad_alloc (mkState (obj_of ms) h)
    end.
Proof.
  intros Hok Hc Hcn Hl Hnin. cbn [copy_loop]. rewrite decide_False by done.
  unfold deref, incr. unfold bind, load, ret. simpl. rewrite Hl.
  rewrite push_back_run by done.
  destruct (alloc h) as [a|] eqn:Ha; [|done].
  apply alloc_fresh in Ha as [Hfree Hrange].
  destruct (push_back_evolves _ _ _ z Hok Hc Hfree Hrange) as (_ & _ & Hf & _).
  simpl. rewrite (Hf c) by eauto. by rewrite Hl.
Qed.

(** The loop of the copy constructor, on the part [rest] of the source that
    is still to be copied. *)
Lemma copy_loop_run fuel it rest h ms :
  heap_ok h → chain h (head_of ms) ms → chain h it rest →
  (∀ b, b ∈ rest.*1 → b ∉ ms.*1) → (length rest ≤ fuel)%nat →
  ∃ h' ms', evolves h ms h' ms' ∧
    ((copy_loop fuel it (mkState (obj_of ms) h) = Ok tt (mkState (obj_of ms') h') ∧
      ms'.*2 = ms.*2 ++ rest.*2) ∨
     copy_loop fuel it (mkState (obj_of ms) h) =
       Throw bad_alloc (mkState (obj_of ms') h')).
Proof.
  revert it h ms fuel.
  induction rest as [|[c z] rest IH]; intros it h ms fuel Hok Hc Hr Hdisj Hf.
  - apply chain_null_iff in Hr as ->. exists h, ms.
    split; [by apply evolves_refl|]. left. rewrite app_nil_r.
    by destruct fuel.
  - pose proof Hr as (-> & Hcn & r & Hl & Hr').
    destruct fuel as [|fuel]; [simpl in Hf; lia|]. simpl in Hf.
    rewrite (copy_loop_step _ _ z r) by (try done; apply Hdisj; left).
    destruct (alloc h) as [a|] eqn:Ha.
    + apply alloc_fresh in Ha as [Hfree Hrange].
      pose proof (push_back_evolves _ _ _ z Hok Hc Hfree Hrange) as He.
      pose proof He as (Hok1 & Hc1 & _).
      assert (∀ b, b ∈ rest.*1 → b ∉ ms.*1) as Hdisj'.
      { intros b Hb. apply Hdisj. by right. }
      destruct (evolves_other _ _ _ _ _ _ He Hr' Hdisj') as [Hr1 Hdisj1].
      destruct (IH r _ (ms ++ [(a, z)]) fuel Hok1 Hc1 Hr1 Hdisj1)
        as (h' & ms' & He' & Hrun); [lia|].
      exists h', ms'. split; [by eapply evolves_trans|].
      destruct Hrun as [[-> Hv]| ->]; [left|by right].
      split; [done|]. rewrite Hv, fmap_app. by rewrite <- app_assoc.
    + exists h, ms. split; [by apply evolves_refl|]. by right.
Qed.

Lemma evolves_nil_fresh h h' ms b :
  evolves h [] h' ms → b ∈ ms.*1 → h !! b = None.
Proof.
  intros (_ & _ & _ & Hn) Hb. destruct (Hn b Hb) as [Hin|?]; [|done].
  by apply elem_of_nil in Hin.
Qed.

Lemma evolves_nil_frame h h' ms b :
  evolves h [] h' ms → is_Some (h !! b) → h' !! b = h !! b.
Proof. intros (_ & _ & Hf & _) Hb. apply Hf; [|done]. apply not_elem_of_nil. Qed.

(** A list built beside the list [ns] replaces it, or is dropped again. *)
Lemma evolves_replace h ns h1 ms1 :
  heap_ok h → chain h (head_of ns) ns → evolves h [] h1 ms1 →
  evolves h ns (free_all ns.*1 h1) ms1 ∧ evolves h ns (free_all ms1.*1 h1) ns.
Proof.
  intros Hok Hc He. pose proof He as (Hok1 & Hc1 & _).
  assert (∀ b, b ∈ ns.*1 → b ∉ ([] : list (Z * T)).*1) as Hd0.
  { intros b _. apply not_elem_of_nil. }
  destruct (evolves_other _ _ _ _ _ _ He Hc Hd0) as [Hcn Hdisj].
  split; (split; [by apply heap_ok_free_all|]; split; [|split]).
  - apply (seg_frame h1); [|done]. intros b Hb. rewrite lookup_free_all.
    rewrite decide_False; [done|]. intros Hin. by apply (Hdisj b).
  - intros b Hb Hlive. rewrite lookup_free_all, decide_False by done.
    by eapply evolves_nil_frame.
  - intros b Hb. right. by eapply evolves_nil_fresh.
  - apply (seg_frame h1); [|done]. intros b Hb. rewrite lookup_free_all.
    rewrite decide_False; [done|]. by apply Hdisj.
  - intros b Hb Hlive. rewrite lookup_free_all, decide_False.
    + by eapply evolves_nil_frame.
    + intros Hin. pose proof (evolves_nil_fresh _ _ _ _ He Hin) as Hnone.
      rewrite Hnone in Hlive. by destruct Hlive.
  - intros b Hb. by left.
Qed.

Lemma ilist_ctor_run (l0 : SinglyLinkedList) ilist h :
  heap_ok h →
  ∃ h' ms', evolves h [] h' ms' ∧
    ((ilist_ctor ilist (mkState l0 h) = Ok tt (mkState (obj_of ms') h') ∧
      ms'.*2 = ilist) ∨
     ilist_ctor ilist (mkState l0 h) =
       Throw bad_alloc (mkState (obj_of ms') (free_all ms'.*1 h'))).
Proof.
  intros Hok.
  destruct (ilist_loop_run ilist h [] Hok eq_refl) as (h' & ms' & He & Hrun).
  exists h', ms'. split; [done|].
  unfold ilist_ctor, bind, on_unwind. rewrite default_ctor_run.
  destruct Hrun as [[-> Hv]| ->]; [by left|right].
  destruct He as (_ & Hc & _). by rewrite dtor_run.
Qed.

Lemma copy_ctor_run (l0 other : SinglyLinkedList) h ns :
  heap_ok h → chain h (head_ other) ns →
  ∃ h' ms', evolves h [] h' ms' ∧
    ((copy_ctor other (mkState l0 h) = Ok tt (mkState (obj_of ms') h') ∧
      ms'.*2 = ns.*2) ∨
     copy_ctor other (mkState l0 h) =
       Throw bad_alloc (mkState (obj_of ms') (free_all ms'.*1 h'))).
Proof.
  intros Hok Hcn.
  destruct (copy_loop_run (live_nodes h) (head_ other) ns h [] Hok eq_refl Hcn)
    as (h' & ms' & He & Hrun).
  { intros b _. apply not_elem_of_nil. }
  { by eapply chain_length_live. }
  exists h', ms'. split; [done|].
  unfold copy_ctor, bind, on_unwind. rewrite default_ctor_run. simpl.
  destruct Hrun as [[-> Hv]| ->]; [by left|right].
  destruct He as (_ & Hc & _). by rewrite dtor_run.
Qed.

Lemma op_assign_run (other : SinglyLinkedList) h ns :
  chain h (head_of ns) ns →
  op_assign other (mkState (obj_of ns) h) =
    Ok tt (mkState other (free_all ns.*1 h)).
Proof.
  intros Hc. unfold op_assign, swap. simpl.
  change (mkList (head_of ns) (tail_of ns) (Z.of_nat (length ns))) with (obj_of ns).
  rewrite dtor_run by done. by destruct other.
Qed.

Lemma copy_assign_run (rhs : SinglyLinkedList) ms h ns :
  heap_ok h → chain h (head_of ns) ns → chain h (head_ rhs) ms →
  ∃ h' ns', evolves h ns h' ns' ∧
    ((copy_assign rhs (mkState (obj_of ns) h) = Ok tt (mkState (obj_of ns') h') ∧
      ns'.*2 = ms.*2) ∨
     (copy_assign rhs (mkState (obj_of ns) h) =
        Throw bad_alloc (mkState (obj_of ns) h') ∧ ns' = ns)).
Proof.
  intros Hok Hc Hm.
  destruct (copy_ctor_run raw_object rhs h ms Hok Hm) as (h1 & ms1 & He & Hrun).
  destruct (evolves_replace _ _ _ _ Hok Hc He) as [He1 He2].
  unfold copy_assign, bind, with_object. simpl.
  fold raw_object.
  destruct Hrun as [[-> Hv]| ->]; simpl.
  - exists (free_all ns.*1 h1), ms1. split; [done|]. left. split; [|done].
    rewrite op_assign_run; [done|].
    assert (∀ b, b ∈ ns.*1 → b ∉ ([] : list (Z * T)).*1) as Hd0.
    { intros b _. apply not_elem_of_nil. }
    by destruct (evolves_other _ _ _ _ _ _ He Hc Hd0).
  - exists (free_all ms1.*1 h1), ns. split; [done|]. by right.
Qed.

Lemma self_move_assign_run s : self_move_assign s = Ok tt s.
Proof.
  destruct s as [[hd tl sz] h]. unfold self_move_assign, with_object, move_ctor.
  simpl. unfold op_assign, swap, dtor, bind, get_head. simpl.
  by rewrite delete_chain_null.
Qed.

End Lifecycle.

(** ** Programs keep the invariant of every list *)

Section Worlds.
Context {T : Type}.
Implicit Types (h : heap T) (ns ms : list (Z * T)) (w : world T)
  (nss : list (list (Z * T))) (l : SinglyLinkedList).

Lemma repr_obj h l ns : repr h l ns ↔ l = obj_of ns ∧ chain h (head_of ns) ns.
Proof.
  destruct l as [hd tl sz]. unfold repr, obj_of. simpl. split.
  - intros (Hc & -> & ->). by rewrite <- (chain_head _ _ _ Hc).
  - intros ([= -> -> ->] & Hc). done.
Qed.

Lemma repr_nil h : repr h raw_object [].
Proof. by apply repr_obj. Qed.

Lemma WRep_lookup w nss i l :
  WRep w nss → objs w !! i = Some l →
  ∃ ns, nss !! i = Some ns ∧ l = obj_of ns ∧ chain (wmem w) (head_of ns) ns.
Proof.
  intros (_ & HF & _) Hl.
  destruct (Forall2_lookup_l _ _ _ _ _ HF Hl) as (ns & Hns & Hr).
  apply repr_obj in Hr as [-> Hc]. eauto.
Qed.

Lemma WRep_chain w nss i ns :
  WRep w nss → nss !! i = Some ns → chain (wmem w) (head_of ns) ns.
Proof.
  intros (_ & HF & _) Hns.
  destruct (Forall2_lookup_r _ _ _ _ _ HF Hns) as (l & _ & Hr).
  by apply repr_obj in Hr as [_ Hc].
Qed.

(** Objects may be rearranged, dropped, or joined by empty ones. *)
Lemma WRep_reindex w nss objs' nss' (σ : nat → nat) :
  WRep w nss → length objs' = length nss' →
  (∀ k l ns, objs' !! k = Some l → nss' !! k = Some ns →
     (l = raw_object ∧ ns = []) ∨
     (objs w !! σ k = Some l ∧ nss !! σ k = Some ns)) →
  (∀ k k' ns ms, k ≠ k' → nss' !! k = Some ns → nss' !! k' = Some ms →
     ns ≠ [] → ms ≠ [] → σ k ≠ σ k') →
  WRep (mkWorld (wmem w) objs') nss'.
Proof.
  intros (Hok & HF & Hd) Hlen Hlook Hinj. split; [done|]. split.
  - apply Forall2_same_length_lookup. split; [done|]. intros k l ns Hl Hns.
    destruct (Hlook k l ns Hl Hns) as [[-> ->]|[Hl' Hns']]; [apply repr_nil|].
    by eapply Forall2_lookup_lr.
  - intros k k' ns ms b Hne Hns Hms Hb.
    assert (ns ≠ []) as Hnn by (intros ->; by apply elem_of_nil in Hb).
    destruct (decide (ms = [])) as [->|Hmn]; [apply not_elem_of_nil|].
    destruct (lookup_lt_is_Some_2 objs' k) as [l Hl].
    { rewrite Hlen. by eapply lookup_lt_Some. }
    destruct (lookup_lt_is_Some_2 objs' k') as [l' Hl'].
    { rewrite Hlen. by eapply lookup_lt_Some. }
    destruct (Hlook k l ns Hl Hns) as [[_ ?]|[_ Hns']]; [done|].
    destruct (Hlook k' l' ms Hl' Hms) as [[_ ?]|[_ Hms']]; [done|].
    eapply (Hd (σ k) (σ k')); eauto.
Qed.

(** A call on the object at index [i]. *)
Lemma WRep_evolve w nss i ns h' ns' :
  WRep w nss → nss !! i = Some ns → evolves (wmem w) ns h' ns' →
  WRep (mkWorld h' (<[i := obj_of ns']> (objs w))) (<[i := ns']> nss).
Proof.
  intros HW Hns He. pose proof HW as (Hok & HF & Hd).
  pose proof He as (Hok' & Hc' & Hf & Hn).
  pose proof (Forall2_length _ _ _ HF) as Hlen.
  pose proof (lookup_lt_Some _ _ _ Hns) as Hi.
  split; [done|]. cbn [objs wmem]. split.
  - apply Forall2_same_length_lookup. split.
    { by rewrite !length_insert. }
    intros k l ms Hl Hms.
    destruct (decide (i = k)) as [->|Hne].
    + rewrite list_lookup_insert_eq in Hl by lia.
      rewrite list_lookup_insert_eq in Hms by lia.
      injection Hl as <-. injection Hms as <-. by apply repr_obj.
    + rewrite list_lookup_insert_ne in Hl by done.
      rewrite list_lookup_insert_ne in Hms by done.
      pose proof (Forall2_lookup_lr _ _ _ _ _ _ HF Hl Hms) as [-> Hc]%repr_obj.
      apply repr_obj. split; [done|].
      eapply evolves_other; [exact He|exact Hc|].
      intros b Hb. by eapply (Hd k i).
  - intros k k' ms1 ms2 b Hne Hms1 Hms2 Hb.
    assert (∀ j ms c, j ≠ i → nss !! j = Some ms → c ∈ ms.*1 → c ∉ ns'.*1) as Hnew.
    { intros j ms c Hj Hms Hc Hin.
      destruct (Hn c Hin) as [Hold|Hfresh].
      - by eapply (Hd j i).
      - destruct (chain_lookup_live _ _ _ _ (WRep_chain _ _ _ _ HW Hms) Hc) as [? ?].
        congruence. }
    destruct (decide (i = k)) as [->|Hik]; [|destruct (decide (i = k')) as [->|Hik']].
    + rewrite list_lookup_insert_eq in Hms1 by lia.
      rewrite list_lookup_insert_ne in Hms2 by done. injection Hms1 as <-.
      intros Hin. by eapply (Hnew k' ms2 b).
    + rewrite list_lookup_insert_eq in Hms2 by lia.
      rewrite list_lookup_insert_ne in Hms1 by done. injection Hms2 as <-.
      by eapply (Hnew k ms1 b).
    + rewrite list_lookup_insert_ne in Hms1 by done.
      rewrite list_lookup_insert_ne in Hms2 by done.
      by eapply (Hd k k').
Qed.

Lemma WRep_append w nss :
  WRep w nss → WRep (mkWorld (wmem w) (objs w ++ [raw_object])) (nss ++ [[]]).
Proof.
  intros HW. pose proof HW as (_ & HF & _).
  pose proof (Forall2_length _ _ _ HF) as Hlen.
  apply (WRep_reindex w nss _ _ id); [done|by rewrite !length_app, Hlen|..].
  - intros k l ns [Hl|[Hk Hl]]%lookup_app_Some [Hns|[Hk' Hns]]%lookup_app_Some.
    + by right.
    + apply lookup_lt_Some in Hl. lia.
    + apply lookup_lt_Some in Hns. lia.
    + left. destruct (k - length (objs w))%nat; [|done].
      destruct (k - length nss)%nat; [|done]. simpl in *. by simplify_eq.
  - intros k k' ns ms Hne _ _ _ _. done.
Qed.

Lemma WRep_remove w nss i :
  WRep w nss → WRep (mkWorld (wmem w) (delete i (objs w))) (delete i nss).
Proof.
  intros HW. pose proof HW as (_ & HF & _).
  pose proof (Forall2_length _ _ _ HF) as Hlen.
  apply (WRep_reindex w nss _ _ (λ k, if decide (k < i)%nat then k else S k)).
  - done.
  - apply (Forall2_length (repr (wmem w))). by apply Forall2_delete.
  - intros k l ns Hl Hns. right. rewrite list_lookup_delete in Hl.
    rewrite list_lookup_delete in Hns. by case_decide.
  - intros k k' ns ms Hne _ _ _ _. repeat case_decide; lia.
Qed.

Lemma swap_eta (a b : SinglyLinkedList) : swap a b = (b, a).
Proof. by destruct a, b. Qed.

Lemma WRep_swap w nss i j a b na nb :
  WRep w nss →
  objs w !! i = Some a → objs w !! j = Some b →
  nss !! i = Some na → nss !! j = Some nb →
  WRep (mkWorld (wmem w) (<[j := a]> (<[i := b]> (objs w))))
       (<[j := na]> (<[i := nb]> nss)).
Proof.
  intros HW Ha Hb Hna Hnb. pose proof HW as (_ & HF & _).
  pose proof (Forall2_length _ _ _ HF) as Hlen.
  pose proof (lookup_lt_Some _ _ _ Hna) as Hi.
  pose proof (lookup_lt_Some _ _ _ Hnb) as Hj.
  apply (WRep_reindex w nss _ _
           (λ k, if decide (k = j) then i else if decide (k = i) then j else k)).
  - done.
  - by rewrite !length_insert.
  - intros k l ns Hl Hns. right. simpl in *.
    destruct (decide (k = j)) as [->|Hkj].
    + rewrite list_lookup_insert_eq in Hl by (rewrite length_insert; lia).
      rewrite list_lookup_insert_eq in Hns by (rewrite length_insert; lia).
      by simplify_eq.
    + rewrite list_lookup_insert_ne in Hl by done.
      rewrite list_lookup_insert_ne in Hns by done.
      destruct (decide (k = i)) as [->|Hki].
      * rewrite list_lookup_insert_eq in Hl by lia.
        rewrite list_lookup_insert_eq in Hns by lia. by simplify_eq.
      * rewrite list_lookup_insert_ne in Hl by done.
        rewrite list_lookup_insert_ne in Hns by done. done.
  - intros k k' ns ms Hne _ _ _ _. repeat case_decide; lia.
Qed.

Lemma WRep_move w nss j other nj :
  WRep w nss → objs w !! j = Some other → nss !! j = Some nj →
  WRep (mkWorld (wmem w) (<[j := raw_object]> (objs w) ++ [other]))
       (<[j := []]> nss ++ [nj]).
Proof.
  intros HW Ho Hnj. pose proof HW as (_ & HF & _).
  pose proof (Forall2_length _ _ _ HF) as Hlen.
  pose proof (lookup_lt_Some _ _ _ Hnj) as Hj.
  apply (WRep_reindex w nss _ _
           (λ k, if decide (k = length nss) then j else k)).
  - done.
  - by rewrite !length_app, !length_insert, Hlen.
  - intros k l ns [Hl|[Hk Hl]]%lookup_app_Some [Hns|[Hk' Hns]]%lookup_app_Some.
    + pose proof (lookup_lt_Some _ _ _ Hns) as Hlt. rewrite length_insert in Hlt.
      rewrite decide_False by lia.
      destruct (decide (k = j)) as [->|Hkj].
      * rewrite list_lookup_insert_eq in Hl by lia.
        rewrite list_lookup_insert_eq in Hns by lia. left. by simplify_eq.
      * rewrite list_lookup_insert_ne in Hl by done.
        rewrite list_lookup_insert_ne in Hns by done. by right.
    + apply lookup_lt_Some in Hl. rewrite length_insert in Hl.
      rewrite length_insert in Hk'. lia.
    + apply lookup_lt_Some in Hns. rewrite length_insert in Hns.
      rewrite length_insert in Hk. lia.
    + rewrite length_insert in Hk. rewrite length_insert in Hk'.
      rewrite length_insert in Hl. rewrite length_insert in Hns. right.
      destruct (k - length (objs w))%nat eqn:E1; [|done].
      destruct (k - length nss)%nat eqn:E2; [|done]. simpl in *.
      rewrite decide_True by lia. by simplify_eq.
  - intros k k' ns ms Hne Hns Hms Hn Hm.
    assert (∀ c cs, (<[j:=[]]> nss ++ [nj]) !! c = Some cs → cs ≠ [] →
                    c ≠ length nss → c ≠ j ∧ (c < length nss)%nat) as Haux.
    { intros c cs [Hc|[Hc1 Hc2]]%lookup_app_Some Hcs Hcl.
      - pose proof (lookup_lt_Some _ _ _ Hc) as Hlt. rewrite length_insert in Hlt.
        split; [|done]. intros ->.
        rewrite list_lookup_insert_eq in Hc by lia. by simplify_eq.
      - rewrite length_insert in Hc1. rewrite length_insert in Hc2.
        destruct (c - length nss)%nat eqn:E; [lia|done]. }
    repeat case_decide; try lia.
    + destruct (Haux k' ms Hms Hm); [done|]. lia.
    + destruct (Haux k ns Hns Hn); [done|]. lia.
Qed.

End Worlds.

Section Steps.
Context {T : Type}.
Implicit Types (h : heap T) (ns ms : list (Z * T)) (w : world T)
  (nss : list (list (Z * T))) (l : SinglyLinkedList).

Lemma list_insert_snoc {A} (l : list A) x y :
  <[length l := x]> (l ++ [y]) = l ++ [x].
Proof.
  rewrite <- (Nat.add_0_r (length l)) at 1. by rewrite insert_app_r.
Qed.

Lemma list_delete_snoc {A} (l : list A) x : delete (length l) (l ++ [x]) = l.
Proof. by rewrite delete_middle, app_nil_r. Qed.

Lemma list_delete_insert {A} (l : list A) i x :
  delete i (<[i := x]> l) = delete i l.
Proof.
  revert i. induction l as [|y l IH]; intros [|i]; simpl; try done.
  by rewrite IH.
Qed.

(** A constructor that returns adds the list it built. *)
Lemma WRep_construct w nss h' ms' :
  WRep w nss → evolves (wmem w) [] h' ms' →
  WRep (mkWorld h' (objs w ++ [obj_of ms'])) (nss ++ [ms']).
Proof.
  intros HW He. pose proof HW as (_ & HF & _).
  pose proof (Forall2_length _ _ _ HF) as Hlen.
  pose proof (WRep_evolve _ _ (length (objs w)) [] h' ms' (WRep_append _ _ HW)) as H.
  cbn [objs wmem] in H. rewrite list_insert_snoc in H.
  rewrite Hlen in H at 2. rewrite list_insert_snoc in H. apply H; [|done].
  rewrite Hlen. by rewrite list_lookup_middle.
Qed.

(** A constructor that throws leaves the other lists as they were. *)
Lemma WRep_construct_failed w nss h' ms' :
  WRep w nss → evolves (wmem w) [] h' ms' →
  WRep (mkWorld (free_all ms'.*1 h') (objs w)) nss.
Proof.
  intros HW He. pose proof HW as (_ & HF & _).
  pose proof (Forall2_length _ _ _ HF) as Hlen.
  assert (evolves (wmem w) [] (free_all ms'.*1 h') []) as He'.
  { eapply evolves_trans; [exact He|]. destruct He as (? & ? & _).
    by apply free_all_evolves. }
  pose proof (WRep_remove _ _ (length (objs w)) (WRep_construct _ _ _ _ HW He')) as H.
  cbn [objs wmem] in H. rewrite list_delete_snoc in H.
  rewrite Hlen in H. by rewrite list_delete_snoc in H.
Qed.

Lemma step_WInv w w' : WInv w → step w w' → WInv w'.
Proof.
  intros [nss HW] Hstep. pose proof HW as (Hok & HF & Hd).
  pose proof (Forall2_length _ _ _ HF) as Hlen.
  destruct Hstep as
    [w l0 s' Hrun | w l0 ilist s' Hrun | w l0 ilist e s' Hrun
    | w l0 j other s' Hj Hrun | w l0 j other e s' Hj Hrun
    | w l0 j other other' s' Hj Hrun
    | w i l m s' Hi Hvalid Hrun
    | w i j a b Hi Hj
    | w i j l rhs s' Hi Hj Hrun
    | w l0 i j rhs rhs' tmp l s' Hj Hmove Hi Hrun
    | w i l s' Hi Hrun ].
  - (* default constructor *)
    rewrite default_ctor_run in Hrun. injection Hrun as <-.
    exists (nss ++ [[]]). by apply WRep_append.
  - (* initializer list *)
    destruct (ilist_ctor_run l0 ilist _ Hok) as (h' & ms' & He & [[Hr _]|Hr]);
      rewrite Hr in Hrun; [|done]. injection Hrun as <-.
    exists (nss ++ [ms']). by apply WRep_construct.
  - destruct (ilist_ctor_run l0 ilist _ Hok) as (h' & ms' & He & [[Hr _]|Hr]);
      rewrite Hr in Hrun; [done|]. injection Hrun as <- <-.
    exists nss. by eapply WRep_construct_failed.
  - (* copy constructor *)
    destruct (WRep_lookup _ _ _ _ HW Hj) as (ns & Hns & -> & Hc).
    destruct (copy_ctor_run l0 (obj_of ns) _ ns Hok Hc)
      as (h' & ms' & He & [[Hr _]|Hr]); rewrite Hr in Hrun; [|done].
    injection Hrun as <-. exists (nss ++ [ms']). by apply WRep_construct.
  - destruct (WRep_lookup _ _ _ _ HW Hj) as (ns & Hns & -> & Hc).
    destruct (copy_ctor_run l0 (obj_of ns) _ ns Hok Hc)
      as (h' & ms' & He & [[Hr _]|Hr]); rewrite Hr in Hrun; [done|].
    injection Hrun as <- <-. exists nss. by eapply WRep_construct_failed.
  - (* move constructor *)
    destruct (WRep_lookup _ _ _ _ HW Hj) as (ns & Hns & -> & Hc).
    rewrite move_ctor_run in Hrun. injection Hrun as <- <-.
    exists (<[j := []]> nss ++ [ns]). by apply WRep_move.
  - (* a member function *)
    destruct (WRep_lookup _ _ _ _ HW Hi) as (ns & Hns & -> & Hc).
    destruct (call_evolves m _ ns Hok Hc Hvalid) as (h' & ns' & Hl & He).
    rewrite (leaves_functional _ _ _ Hrun Hl).
    exists (<[i := ns']> nss). by eapply WRep_evolve.
  - (* swap *)
    destruct (WRep_lookup _ _ _ _ HW Hi) as (na & Hna & -> & Hca).
    destruct (WRep_lookup _ _ _ _ HW Hj) as (nb & Hnb & -> & Hcb).
    rewrite swap_eta. exists (<[j := na]> (<[i := nb]> nss)).
    by apply WRep_swap.
  - (* copy assignment *)
    destruct (WRep_lookup _ _ _ _ HW Hi) as (ns & Hns & -> & Hc).
    destruct (WRep_lookup _ _ _ _ HW Hj) as (ms & Hms & -> & Hcm).
    destruct (copy_assign_run (obj_of ms) ms _ ns Hok Hc Hcm)
      as (h' & ns' & He & [[Hr _]|[Hr ->]]); rewrite Hr in Hrun.
    + rewrite (leaves_functional _ _ (mkState (obj_of ns') h') Hrun)
        by (left; eauto).
      exists (<[i := ns']> nss). by eapply WRep_evolve.
    + rewrite (leaves_functional _ _ (mkState (obj_of ns) h') Hrun)
        by (right; eauto).
      exists (<[i := ns]> nss). by eapply WRep_evolve.
  - (* move assignment *)
    destruct (WRep_lookup _ _ _ _ HW Hj) as (nj & Hnj & -> & Hcj).
    rewrite move_ctor_run in Hmove. injection Hmove as <- <-.
    pose proof (WRep_move _ _ _ _ _ HW Hj Hnj) as HW1.
    pose proof (lookup_lt_Some _ _ _ Hi) as Hlt. rewrite length_insert in Hlt.
    assert ((<[j:=raw_object]> (objs w) ++ [obj_of nj]) !! i = Some l) as Hi'.
    { rewrite lookup_app_l; [done|]. by rewrite length_insert. }
    destruct (WRep_lookup _ _ _ _ HW1 Hi') as (ni & Hni & -> & Hci).
    cbn [objs wmem self mem] in *.
    rewrite op_assign_run in Hrun by done.
    rewrite (leaves_functional _ _ (mkState (obj_of nj) (free_all ni.*1 (wmem w))) Hrun)
      by (left; eauto).
    pose proof (WRep_evolve _ _ i ni _ [] HW1 Hni (free_all_evolves _ _ Hok Hci)) as HW2.
    cbn [objs wmem self mem] in *.
    exists (<[i := nj]> (<[j := []]> nss)).
    apply (WRep_reindex _ _ _ _ (λ k, if decide (k = i) then length nss else k) HW2).
    + by rewrite !length_insert.
    + intros k l ns Hl Hns. right. cbn [objs].
      pose proof (lookup_lt_Some _ _ _ Hns) as Hk. rewrite !length_insert in Hk.
      destruct (decide (k = i)) as [->|Hki].
      * rewrite list_lookup_insert_eq in Hl by (rewrite length_insert; lia).
        rewrite list_lookup_insert_eq in Hns by (rewrite length_insert; lia).
        injection Hl as <-. injection Hns as <-.
        rewrite !list_lookup_insert_ne by lia.
        rewrite <- Hlen at 1.
        assert (length (objs w) = length (<[j:=raw_object]> (objs w))) as ->
          by (by rewrite length_insert).
        rewrite list_lookup_middle by done.
        assert (length nss = length (<[j:=[]]> nss)) as ->
          by (by rewrite length_insert).
        by rewrite list_lookup_middle.
      * rewrite list_lookup_insert_ne in Hl by done.
        rewrite list_lookup_insert_ne in Hns by done.
        rewrite !list_lookup_insert_ne by done.
        rewrite !lookup_app_l by (rewrite length_insert; lia). done.
    + intros k k' ns ms Hne Hns Hms _ _.
      pose proof (lookup_lt_Some _ _ _ Hns) as Hk. rewrite !length_insert in Hk.
      pose proof (lookup_lt_Some _ _ _ Hms) as Hk'. rewrite !length_insert in Hk'.
      repeat case_decide; lia.
  - (* destructor *)
    destruct (WRep_lookup _ _ _ _ HW Hi) as (ns & Hns & -> & Hc).
    rewrite dtor_run in Hrun by done. injection Hrun as <-.
    cbn [objs wmem self mem].
    pose proof (WRep_evolve _ _ i ns _ [] HW Hns (free_all_evolves _ _ Hok Hc)) as HW2.
    apply (WRep_remove _ _ i) in HW2. cbn [objs wmem] in HW2.
    rewrite !list_delete_insert in HW2. by exists (delete i nss).
Qed.

Lemma reachable_WInv w : reachable w → WInv w.
Proof.
  induction 1 as [|w w' _ IH Hstep].
  - exists []. split; [|split].
    + intros a [n Hn]. simpl in Hn. by rewrite lookup_empty in Hn.
    + constructor.
    + intros i j ns ms b _ Hi. by rewrite lookup_nil in Hi.
  - by eapply step_WInv.
Qed.

Lemma repr_rep_invariant h l ns : repr h l ns → rep_invariant h l.
Proof.
  intros [-> Hc]%repr_obj. unfold rep_invariant, obj_of. simpl.
  destruct (decide (ns = [])) as [->|Hne].
  - split; [done|]. split; [done|]. exists [].
    split; [by apply visit_chain|]. split; [done|]. by intros ?.
  - assert (head_of ns ≠ nullptr) as Hhd.
    { destruct ns as [|[a x] ns]; [done|]. by destruct Hc as (_ & ? & _). }
    pose proof (tail_of_nonnull _ _ _ Hc Hne) as Htl.
    assert (Z.of_nat (length ns) ≠ 0) as Hsz by (destruct ns; [done|simpl; lia]).
    split; [done|]. split; [done|]. exists ns.
    split; [by apply (visit_chain _ (obj_of ns))|]. split; [done|]. intros _.
    destruct (chain_tail_lookup _ _ _ Hc Hne) as (ns' & x & Hns & Hl).
    split; [|eauto]. rewrite Hns at 1. rewrite fmap_app. apply last_snoc.
Qed.

End Steps.

(** ** Comparisons *)

Section Comparisons.
Context {T : Type} `{Comparable T}.
Implicit Types (h : heap T) (ns ms : list (Z * T)) (p q : Z) (xs ys : list T).

Lemma std_equal_run fuel h p q ns ms :
  chain h p ns → chain h q ms → length ns = length ms → (length ns ≤ fuel)%nat →
  std_equal fuel h p nullptr q = Some (pairwise_equal ns.*2 ms.*2).
Proof.
  revert p q ms fuel.
  induction ns as [|[a x] ns IH]; intros p q [|[b y] ms] fuel Hp Hq Hlen Hf;
    try done.
  - apply chain_null_iff in Hp as ->. by destruct fuel.
  - destruct Hp as (-> & Ha & r & Hla & Hp). destruct Hq as (-> & Hb & r' & Hlb & Hq).
    destruct fuel as [|fuel]; [simpl in Hf; lia|].
    cbn [std_equal]. rewrite decide_False by done. rewrite Hla, Hlb.
    cbn [data next fmap list_fmap snd pairwise_equal].
    destruct (elt_eq x y); [|done]. simpl in *.
    apply IH; try done; lia.
Qed.

Lemma op_eq_run h (a b : SinglyLinkedList) ns ms :
  repr h a ns → repr h b ms → op_eq h a b = Some (seq_equal ns.*2 ms.*2).
Proof.
  intros (Ha & _ & Hsa) (Hb & _ & Hsb). unfold op_eq, seq_equal.
  rewrite Hsa, Hsb, !length_fmap.
  destruct (decide (Z.of_nat (length ns) ≠ Z.of_nat (length ms))) as [Hne|Heq].
  - rewrite bool_decide_eq_false_2 by lia. done.
  - assert (length ns = length ms) as Hlen by lia.
    rewrite bool_decide_eq_true_2 by done. simpl.
    apply std_equal_run; try done. by eapply chain_length_live.
Qed.

Lemma std_lexicographical_compare_run fuel h p q ns ms :
  chain h p ns → chain h q ms → (length ns ≤ fuel)%nat →
  std_lexicographical_compare fuel h p nullptr q nullptr =
    Some (lex_by_less ns.*2 ms.*2).
Proof.
  revert p q ms fuel.
  induction ns as [|[a x] ns IH]; intros p q [|[b y] ms] fuel Hp Hq Hf.
  - apply chain_null_iff in Hp as ->. apply chain_null_iff in Hq as ->.
    by destruct fuel.
  - apply chain_null_iff in Hp as ->. destruct Hq as (-> & Hb & _).
    destruct fuel; cbn [std_lexicographical_compare];
      rewrite decide_False by (by intros [? _]);
      by rewrite bool_decide_eq_true_2, bool_decide_eq_true_2.
  - apply chain_null_iff in Hq as ->. destruct Hp as (-> & Ha & _).
    destruct fuel; cbn [std_lexicographical_compare];
      rewrite decide_False by (by intros [_ ?]);
      by rewrite bool_decide_eq_false_2.
  - destruct Hp as (-> & Ha & r & Hla & Hp). destruct Hq as (-> & Hb & r' & Hlb & Hq).
    destruct fuel as [|fuel]; [simpl in Hf; lia|].
    cbn [std_lexicographical_compare]. rewrite decide_True by done.
    rewrite Hla, Hlb. cbn [data next fmap list_fmap snd lex_by_less].
    destruct (elt_lt x y); [done|]. destruct (elt_lt y x); [done|].
    simpl in Hf. apply IH; try done; lia.
Qed.

Lemma op_lt_run h (a b : SinglyLinkedList) ns ms :
  repr h a ns → repr h b ms → op_lt h a b = Some (lex_by_less ns.*2 ms.*2).
Proof.
  intros (Ha & _ & _) (Hb & _ & _). unfold op_lt.
  apply std_lexicographical_compare_run; try done.
  by eapply chain_length_live.
Qed.

Context `{!TotalOrder T}.

Lemma lex_by_less_spec xs ys : lex_by_less xs ys = lex_less xs ys.
Proof.
  revert ys. induction xs as [|x xs IH]; intros [|y ys]; simpl; try done.
  rewrite IH.
  destruct (elt_trichotomy x y) as [(H1 & H2 & H3)|[(H1 & H2 & H3)|(H1 & H2 & H3)]];
    rewrite H1, ?H2, ?H3; done.
Qed.

Lemma pairwise_equal_length xs ys :
  pairwise_equal xs ys = true → length xs = length ys.
Proof.
  revert ys. induction xs as [|x xs IH]; intros [|y ys]; simpl; try done.
  intros [_ Hp]%andb_true_iff. f_equal. by apply IH.
Qed.

Lemma seq_equal_pairwise xs ys : seq_equal xs ys = pairwise_equal xs ys.
Proof.
  unfold seq_equal. destruct (pairwise_equal xs ys) eqn:Hp.
  - rewrite bool_decide_eq_true_2; [done|]. by apply pairwise_equal_length.
  - by rewrite andb_false_r.
Qed.

Lemma lists_trichotomy xs ys :
  exactly_one (lex_less xs ys) (seq_equal xs ys) (lex_less ys xs).
Proof.
  rewrite seq_equal_pairwise. revert ys.
  induction xs as [|x xs IH]; intros [|y ys]; simpl.
  - right. left. done.
  - left. done.
  - right. right. done.
  - specialize (IH ys). unfold exactly_one in *.
    destruct (elt_trichotomy x y) as [(H1 & H2 & H3)|[(H1 & H2 & H3)|(H1 & H2 & H3)]];
      destruct (elt_trichotomy y x) as [(G1 & G2 & G3)|[(G1 & G2 & G3)|(G1 & G2 & G3)]];
      try congruence; rewrite H1, H2, H3, G2; simpl.
    + by left.
    + exact IH.
    + by right; right.
Qed.

End Comparisons.

(** ** Further facts used by the main results *)

(** Case analysis on every test and every lookup an operation makes. *)
Ltac crunch :=
  repeat (first [case_decide | case_match]; simplify_eq; simpl in * );
  simplify_eq.

Section Further.
Context {T : Type}.
Implicit Types (h : heap T) (ns ms : list (Z * T)) (p q a : Z) (s : state T).

Lemma to_list_Inv s ns : Inv s ns → to_list s = Some ns.*2.
Proof.
  intros (_ & Hc & _). unfold to_list. by rewrite (visit_chain _ _ ns).
Qed.

Lemma heap_okb_ok h : heap_okb h = true → heap_ok h.
Proof.
  unfold heap_okb. rewrite forallb_forall. intros Hall a [n Hn].
  specialize (Hall a). rewrite andb_true_iff, Z.ltb_lt, Z.ltb_lt in Hall.
  apply Hall. apply list_elem_of_In, list_elem_of_fmap. exists (a, n).
  split; [done|]. by apply elem_of_map_to_list.
Qed.

(** The invariant of a given state, by running the traversal. *)
Lemma Inv_computed s ns :
  heap_okb (mem s) = true → visit (mem s) (self s) = Some ns →
  tail_ (self s) = tail_of ns → list_size (self s) = Z.of_nat (length ns) →
  Inv s ns.
Proof.
  intros Hok Hv Ht Hs. split; [by apply heap_okb_ok|].
  split; [by apply visit_sound|done].
Qed.

(** *** Reversing twice *)

Lemma lookup_relink_in prev ns1 b x ns2 h :
  b ∉ ns1.*1 → b ∉ ns2.*1 →
  relink prev (ns1 ++ (b, x) :: ns2) h !! b =
    Some (mkNode x (default prev (last ns1.*1))).
Proof.
  revert prev h. induction ns1 as [|[a y] ns1 IH]; intros prev h Hn1 Hn2.
  - simpl. rewrite lookup_relink_notin by done. by rewrite lookup_insert_eq.
  - cbn [app relink]. rewrite IH; [|intros Hin; apply Hn1; by right|done].
    rewrite fmap_cons, last_cons. by destruct (last ns1.*1).
Qed.

Lemma relink_rev h ns :
  chain h (head_of ns) ns → relink nullptr (rev ns) (relink nullptr ns h) = h.
Proof.
  intros Hc. apply map_eq. intros b.
  destruct (decide (b ∈ ns.*1)) as [Hin|Hnin].
  - destruct (chain_split _ _ _ _ Hc Hin) as (ns1 & x & ns2 & -> & _ & _).
    destruct (chain_mid_NoDup _ _ _ _ _ _ Hc) as (Hn1 & Hn2 & _).
    apply chain_mid in Hc as (_ & _ & Hl & _). rewrite Hl.
    rewrite rev_app_distr. cbn [rev]. rewrite <- app_assoc. cbn [app].
    rewrite lookup_relink_in; [|by rewrite elem_of_rev_addrs..].
    f_equal. f_equal. apply tail_of_rev.
  - rewrite !lookup_relink_notin; [done|done|by rewrite elem_of_rev_addrs].
Qed.

(** *** Operations that throw have changed nothing *)

Lemma front_throw s e s' : front s = Throw e s' → s' = s.
Proof. destruct s as [[hd tl sz] h]. munfold. simpl. intros. by crunch. Qed.

Lemma back_throw s e s' : back s = Throw e s' → s' = s.
Proof. destruct s as [[hd tl sz] h]. munfold. simpl. intros. by crunch. Qed.

Lemma pop_front_throw s e s' : pop_front s = Throw e s' → s' = s.
Proof.
  destruct s as [[hd tl sz] h]. munfold. unfold delete_chain. simpl.
  intros. by crunch.
Qed.

Lemma insert_after_throw pos v s e s' :
  insert_after pos v s = Throw e s' → s' = s.
Proof.
  destruct s as [[hd tl sz] h]. munfold. unfold delete_chain. simpl.
  intros. by crunch.
Qed.

Lemma emplace_after_throw {Args} pos (ctor : Args → T) args s e s' :
  emplace_after pos ctor args s = Throw e s' → s' = s.
Proof.
  destruct s as [[hd tl sz] h]. munfold. unfold delete_chain. simpl.
  intros. by crunch.
Qed.

Lemma erase_after_throw pos s e s' : erase_after pos s = Throw e s' → s' = s.
Proof.
  destruct s as [[hd tl sz] h]. munfold. unfold delete_chain. simpl.
  intros. by crunch.
Qed.

Lemma pop_back_walk_state fuel cur s c s1 :
  pop_back_walk fuel cur s = Ok c s1 → s1 = s.
Proof.
  revert cur. induction fuel as [|fuel IH]; intros cur; [done|].
  simpl. unfold bind, load, get_tail, ret.
  destruct (mem s !! cur) as [n|]; [|done]. simpl.
  case_decide; [apply IH|]. by intros [= _ ->].
Qed.

Lemma pop_back_walk_no_throw fuel cur s e s1 :
  pop_back_walk fuel cur s ≠ Throw e s1.
Proof.
  revert cur. induction fuel as [|fuel IH]; intros cur; [done|].
  simpl. unfold bind, load, get_tail, ret.
  destruct (mem s !! cur) as [n|]; [|done]. simpl.
  case_decide; [apply IH|done].
Qed.

Lemma pop_back_throw s e s' : pop_back s = Throw e s' → s' = s.
Proof.
  unfold pop_back, bind, get_head, get_tail, throw.
  case_decide; [by intros [= _ ->]|]. case_decide; [apply pop_front_throw|].
  destruct (pop_back_walk _ _ _) as [c s1| | |] eqn:Hw; try done.
  - apply pop_back_walk_state in Hw as ->. destruct s as [[hd tl sz] h].
    munfold. unfold delete_chain. simpl. intros. by crunch.
  - by apply pop_back_walk_no_throw in Hw.
Qed.

End Further.

(** ** The test program *)

(** The model run on the calls of the test program gives what the program
    prints and asserts. *)

Example test_initializer_list :
  (ilist_ctor [10; 20; 30] >>
   let* n := size_ in let* f := front in let* b := back in ret (n, (f, b)))
    empty_state
  = Ok (3, (10, 30)) example_state.
Proof. vm_compute. reflexivity. Qed.

Example test_modifiers_push_pop_elements :
  elements_after (test_modifiers_push_pop empty_state) = Some [10; 30] ∧
  (test_modifiers_push_pop >> clear) empty_state = Ok tt empty_state.
Proof. split; vm_compute; reflexivity. Qed.

Example test_access_and_exceptions :
  let cleared := default_ctor >> push_back 1 >> push_back 2 >> clear in
  (cleared >> front) empty_state =
    Throw (out_of_range "Accessing front() on an empty list") empty_state ∧
  (cleared >> pop_front) empty_state =
    Throw (out_of_range "pop_front on an empty list") empty_state ∧
  (cleared >> pop_back) empty_state =
    Throw (out_of_range "pop_back on an empty list") empty_state.
Proof. repeat split; vm_compute; reflexivity. Qed.

Example test_insert_erase_reverse_asserts :
  ∃ s, test_insert_erase_reverse empty_state = Ok (60, (60, 10)) s ∧
       to_list s = Some [60; 50; 30; 10].
Proof. eexists. split; vm_compute; reflexivity. Qed.

Example test_comparisons_expected :
  ∃ s, test_comparisons empty_state =
         Ok [Some true; Some false; Some true; Some true; Some true;
             Some true; Some true] s.
Proof. eexists. vm_compute. reflexivity. Qed.

Example test_lifecycle_expected :
  ∃ s, test_lifecycle empty_state =
         Ok [Some [10; 20; 30]; Some [10; 20; 30; 40]; Some [10; 20; 30];
             Some [10; 20; 30; 40]; Some []; Some [10; 20; 30]; Some [];
             Some [9; 8; 7]; Some [1; 2]] s.
Proof. eexists. vm_compute. reflexivity. Qed.

Example test_access_modify_expected :
  ∃ s, test_access_modify (mkState raw_object ∅) = Ok ("Hi", "World") s ∧
       to_list s = Some ["Hi"; "World"].
Proof. eexists. split; vm_compute; reflexivity. Qed.

Example test_print_list :
  printList pretty "list1 (from initializer_list)" example_state =
    Ok ("--- List 'list1 (from initializer_list)' ---" +:+ endl +:+
        "Size: 3, Empty: No" +:+ endl +:+
        "Front: 10, Back: 30" +:+ endl +:+
        "Contents: [ 10 20 30 ]" +:+ endl +:+ endl)
       example_state.
Proof. vm_compute. reflexivity. Qed.

(** ** The stack that a release needs, and lists of every length *)

Section Stack.
Context {T : Type}.
Implicit Types (h : heap T) (ns : list (Z * T)) (p : Z) (s : state T).

(** The recursive destruction of a chain does not complete on a stack with
    fewer frames than the chain has nodes. *)
Lemma destroy_overflow frames h p ns :
  chain h p ns → (frames < length ns)%nat → destroy frames p h = None.
Proof.
  revert frames p. induction ns as [|[a x] ns IH]; intros frames p Hc Hlt.
  - simpl in Hlt. lia.
  - destruct Hc as (-> & Hn & r & Hl & Hc).
    destruct frames as [|frames]; simpl; rewrite decide_False by done; [done|].
    rewrite Hl. cbn [next]. rewrite (IH frames r Hc); [done|]. simpl in Hlt. lia.
Qed.

(** [operator new] succeeds while an address is left. *)
Lemma alloc_succeeds h :
  Z.of_nat (live_nodes h) + 1 < word_modulus → is_Some (alloc h).
Proof.
  intros Hroom. unfold alloc.
  destruct (List.find _ _) as [a|] eqn:Hfind.
  - apply List.find_some in Hfind as [Hin _].
    apply list_elem_of_In, list_elem_of_fmap in Hin as (k & -> & Hk).
    apply elem_of_seq in Hk. rewrite decide_True by lia. eauto.
  - exfalso.
    pose proof (List.find_none _ _ Hfind) as Hall.
    assert (length (Z.of_nat <$> seq 1 (S (live_nodes h))) ≤ live_nodes h)%nat
      as Hlen.
    { apply NoDup_live_length.
      - apply NoDup_fmap; [apply Nat2Z.inj'|apply NoDup_seq].
      - intros a Ha. apply list_elem_of_In, Hall in Ha.
        apply bool_decide_eq_false in Ha.
        destruct (h !! a); [eauto|done]. }
    rewrite length_fmap, length_seq in Hlen. lia.
Qed.

(** A program can build a list of any length that fits the address space,
    by calls of [push_front] on a default-constructed list. *)
Lemma list_of_length (x : T) (n : nat) :
  Z.of_nat n + 1 < word_modulus →
  ∃ s ns, Nat.iter n (λ m, m >> push_front x) default_ctor
            (mkState raw_object ∅) = Ok tt s ∧
          Inv s ns ∧ length ns = n ∧ live_nodes (mem s) = n ∧
          ns.*2 = replicate n x.
Proof.
  induction n as [|n IH]; intros Hn.
  - exists (mkState raw_object ∅), []. split; [done|]. split; [|done].
    apply (Inv_intro ∅ []); [|done].
    intros a [m Hm]. by rewrite lookup_empty in Hm.
  - destruct IH as (s & ns & Hrun & HI & Hlen & Hlive & Hv); [lia|].
    pose proof HI as (Hok & _ & Hc)%Inv_obj.
    destruct (alloc_succeeds (mem s)) as [a Ha]; [lia|].
    pose proof Ha as [Hfree Hrange]%alloc_fresh.
    pose proof (push_front_evolves _ _ _ x Hok Hc Hfree Hrange) as (Hok' & Hc' & _).
    exists (mkState (obj_of ((a, x) :: ns))
                    (<[a := mkNode x (head_of ns)]> (mem s))), ((a, x) :: ns).
    split; [|split; [by apply Inv_intro|split; [simpl; lia|split]]].
    + rewrite Nat.iter_succ. unfold bind at 1. rewrite Hrun.
      rewrite (Inv_state _ _ HI) at 1. rewrite push_front_run by done.
      by rewrite Ha.
    + cbn [mem]. unfold live_nodes in *. rewrite map_size_insert_None by done.
      lia.
    + rewrite fmap_cons. cbn [snd replicate]. by rewrite Hv.
Qed.

End Stack.

(** ** Facts about the examples *)

#[export] Instance Z_total_order : TotalOrder Z.
Proof.
  intros x y. unfold exactly_one, elt_lt, elt_eq. simpl.
  destruct (Z.ltb_spec x y), (Z.eqb_spec x y), (Z.ltb_spec y x); try lia; auto.
Qed.

Lemma repr_computed {T} (h : heap T) (l : SinglyLinkedList) (ns : list (Z * T)) :
  visit h l = Some ns → tail_ l = tail_of ns →
  list_size l = Z.of_nat (length ns) → repr h l ns.
Proof. intros Hv Ht Hs. split; [by apply visit_sound|done]. Qed.

(** * The contract of the container *)

(** C1, as the specification words it, is about every operation, whatever
    its arguments.  [insert_after] does not check that the position it is
    given belongs to the list it is called on.  In the program that has
    built the lists [1, 2, 3] and [1, 2, 4], the iterator to the second
    node of [1, 2, 4], given to [insert_after] on [1, 2, 3], makes the call
    return with the size of [1, 2, 3] at 4 while a traversal still visits
    three elements. *)
Lemma C1_invariant_counterexample :
  reachable compare_world ∧
  Forall (rep_invariant (wmem compare_world)) (objs compare_world) ∧
  objs compare_world !! 0%nat = Some list_123 ∧
  position_of (wmem compare_world) list_124 5 ∧
  ∃ s', call (call_insert_after 5 9) (mkState list_123 (wmem compare_world))
          = Ok tt s' ∧
        ¬ rep_invariant (mem s') (self s').
Proof.
  split; [|split; [|split; [done|split]]].
  - apply (reachable_step (mkWorld heap_123 [list_123])).
    + apply (reachable_step (mkWorld ∅ [])); [apply reachable_init|].
      apply (step_ilist_ctor (mkWorld ∅ []) raw_object [1; 2; 3]
               (mkState list_123 heap_123)).
      vm_compute. reflexivity.
    + apply (step_ilist_ctor (mkWorld heap_123 [list_123]) raw_object [1; 2; 4]
               (mkState list_124 compare_heap)).
      vm_compute. reflexivity.
  - constructor; [|constructor; [|constructor]].
    + apply (repr_rep_invariant compare_heap list_123 [(1, 1); (2, 2); (3, 3)]).
      apply repr_computed; vm_compute; reflexivity.
    + apply (repr_rep_invariant compare_heap list_124 [(4, 1); (5, 2); (6, 4)]).
      apply repr_computed; vm_compute; reflexivity.
  - exists [(4, 1); (5, 2); (6, 4)]. split; [vm_compute; reflexivity|].
    right. left.
  - eexists. split; [vm_compute; reflexivity|].
    intros (_ & _ & ns0 & Hv & Hs & _).
    vm_compute in Hv. injection Hv as <-. vm_compute in Hs. discriminate Hs.
Qed.

(** C1, as the code has it.  Every public operation preserves the
    representation invariant when each iterator handed to [insert_after],
    [emplace_after] or [erase_after] is [end()] or a position of the list
    the function is called on.  In every state a program can reach through
    such uses of the public interface (with constructors run on storage of
    any content), each list has a count that is 0 iff its head is null iff
    its tail is null, a non-null tail that is the last node met from
    [begin()] and whose [next] is null, and a [size()] equal to the number
    of elements met from [begin()] to [end()].  The same holds after any
    further operation (the member functions, [swap], copy and move
    construction and assignment, destruction).  A member function other
    than [clear] called on such a list returns or throws: it meets no
    undefined behaviour and no endless walk; [clear] returns on a stack
    with room for as many nested calls of [delete] as the list has
    elements. *)
Theorem C1_invariant_preserved {T} (w : world T) :
  reachable w →
  Forall (rep_invariant (wmem w)) (objs w) ∧
  (∀ w', step w w' → Forall (rep_invariant (wmem w')) (objs w')) ∧
  (∀ i l m, objs w !! i = Some l → valid_call (wmem w) l m → m ≠ call_clear →
            ∃ s', leaves (call m (mkState l (wmem w))) s') ∧
  (∀ i l frames, objs w !! i = Some l →
     (Z.to_nat (list_size l) ≤ frames)%nat →
     ∃ r, release_on_stack frames (mkState l (wmem w)) = Some r ∧
          call call_clear (mkState l (wmem w)) =
            Ok tt (mkState raw_object (heap_after r))).
Proof.
  intros Hr.
  assert (∀ w0 : world T, WInv w0 → Forall (rep_invariant (wmem w0)) (objs w0)) as Hall.
  { intros w0 [nss HW]. apply Forall_lookup. intros i l Hl.
    destruct (WRep_lookup _ _ _ _ HW Hl) as (ns & _ & -> & Hc).
    apply (repr_rep_invariant _ _ ns). by apply repr_obj. }
  pose proof (reachable_WInv _ Hr) as HI. split; [by apply Hall|].
  split; [|split].
  - intros w' Hstep. apply Hall. by eapply step_WInv.
  - intros i l m Hl Hvalid _. destruct HI as [nss HW].
    pose proof HW as (Hok & _).
    destruct (WRep_lookup _ _ _ _ HW Hl) as (ns & _ & -> & Hc).
    destruct (call_evolves m _ ns Hok Hc Hvalid) as (h' & ns' & Hleaves & _).
    eauto.
  - intros i l frames Hl Hframes. destruct HI as [nss HW].
    destruct (WRep_lookup _ _ _ _ HW Hl) as (ns & _ & -> & Hc).
    cbn [obj_of list_size] in Hframes. rewrite Nat2Z.id in Hframes.
    eexists. split.
    + unfold release_on_stack. cbn [self mem obj_of head_].
      by apply destroy_chain.
    + cbn [call heap_after]. by apply clear_run.
Qed.

(** The program that builds the list [10, 20, 30]. *)
Lemma C1_invariant_preserved_witness :
  reachable example_world ∧
  Forall (rep_invariant (wmem example_world)) (objs example_world).
Proof.
  assert (reachable example_world) as Hr.
  { apply (reachable_step (mkWorld ∅ [])); [apply reachable_init|].
    apply (step_ilist_ctor (mkWorld ∅ []) raw_object [10; 20; 30] example_state).
    vm_compute. reflexivity. }
  split; [exact Hr|]. exact (proj1 (C1_invariant_preserved example_world Hr)).
Defined.

(** C2. For a list and a position [pos] that references a live node of it,
    [insert_after(pos, v)] links a new node holding [v] between the node of
    [pos] and its former successor, makes the new node the tail when the
    node of [pos] was the tail, increments the size by 1, leaves all other
    elements and their order unchanged, and returns an iterator to the new
    node (when the node cannot be allocated, [std::bad_alloc] leaves the
    list as it was); for the end sentinel it throws [std::invalid_argument]
    and inserts nothing. *)
Theorem C2_insert_after {T} (s : state T) (ns : list (Z * T)) (pos : Z) (v : T) :
  Inv s ns →
  insert_after nullptr v s =
    Throw (invalid_argument "Cannot insert_after a null iterator") s ∧
  (position_of (mem s) (self s) pos →
   ∃ ns1 x ns2,
     ns = ns1 ++ (pos, x) :: ns2 ∧
     mem s !! pos = Some (mkNode x (head_of ns2)) ∧
     match alloc (mem s) with
     | None => insert_after pos v s = Throw bad_alloc s
     | Some a =>
         ∃ s', insert_after pos v s = Ok a s' ∧
               Inv s' (ns1 ++ (pos, x) :: (a, v) :: ns2) ∧
               mem s !! a = None ∧
               mem s' = <[pos := mkNode x a]>
                          (<[a := mkNode v (head_of ns2)]> (mem s)) ∧
               head_ (self s') = head_ (self s) ∧
               tail_ (self s') = (if decide (tail_ (self s) = pos) then a
                                  else tail_ (self s)) ∧
               list_size (self s') = list_size (self s) + 1 ∧
               to_list s' = Some (ns1.*2 ++ x :: v :: ns2.*2)
     end).
Proof.
  intros HI. split; [done|]. intros Hpos.
  rewrite (Inv_state _ _ HI) in Hpos |- *.
  apply Inv_obj in HI as (Hok & _ & Hc). cbn [self mem] in *.
  destruct (position_split _ _ _ Hc Hpos) as (ns1 & x & ns2 & ->).
  exists ns1, x, ns2. split; [done|].
  pose proof Hc as (_ & _ & Hl & _)%chain_mid. split; [done|].
  rewrite insert_after_run by done.
  destruct (alloc (mem s)) as [a|] eqn:Ha; [|done].
  apply alloc_fresh in Ha as [Hfree Hrange].
  pose proof (insert_after_evolves _ _ _ _ _ _ v Hok Hc Hfree Hrange) as (Hok' & Hc' & _).
  pose proof (Inv_intro _ _ Hok' Hc') as HI'.
  eexists. split; [done|]. split; [done|]. split; [done|]. split; [done|].
  cbn [self mem obj_of head_ tail_ list_size]. split; [|split; [|split]].
  - by destruct ns1 as [|[] ?].
  - pose proof (tail_of_mid _ _ _ _ _ _ Hc) as Htail. case_decide as Ht.
    + rewrite (proj1 Htail Ht). by rewrite (tail_of_app ns1).
    + assert (ns2 ≠ []) as Hne by (intros ?; apply Ht; by apply Htail).
      rewrite !(tail_of_app ns1) by done. by rewrite !tail_of_cons.
  - rewrite !length_app. simpl. lia.
  - rewrite (to_list_Inv _ _ HI'). by rewrite fmap_app.
Qed.

(** Inserting 15 after the first node of [10, 20, 30]. *)
Lemma C2_insert_after_witness :
  Inv example_state example_nodes ∧
  position_of (mem example_state) (self example_state) 1 ∧
  ∃ s', insert_after 1 15 example_state = Ok 4 s' ∧
        list_size (self s') = list_size (self example_state) + 1.
Proof.
  assert (Inv example_state example_nodes) as HI.
  { apply Inv_computed; vm_compute; reflexivity. }
  assert (position_of (mem example_state) (self example_state) 1) as Hpos.
  { exists example_nodes. split; [vm_compute; reflexivity|]. left. }
  split; [exact HI|]. split; [exact Hpos|].
  destruct (proj2 (C2_insert_after example_state example_nodes 1 15 HI) Hpos)
    as (ns1 & x & ns2 & _ & _ & Hrun).
  change (alloc (mem example_state)) with (Some 4) in Hrun.
  destruct Hrun as (s' & Hr & _ & _ & _ & _ & _ & Hsz & _).
  exists s'. split; [exact Hr|exact Hsz].
Defined.

(** C3. For a list and a position [pos] that references a live node with a
    live successor, [erase_after(pos)] removes exactly that successor, makes
    the node of [pos] the tail when the removed node was the tail,
    decrements the size by 1, leaves all other elements and their order
    unchanged, and returns an iterator to the node that now follows [pos]
    (the end sentinel when the removed node was the last); for the end
    sentinel, and for a node without successor, it throws [out_of_range] and
    removes nothing. *)
Theorem C3_erase_after {T} (s : state T) (ns : list (Z * T)) (pos : Z) :
  Inv s ns →
  erase_after nullptr s =
    Throw (out_of_range "Cannot erase_after: no next element") s ∧
  (position_of (mem s) (self s) pos →
   ∃ ns1 x ns2,
     ns = ns1 ++ (pos, x) :: ns2 ∧
     match ns2 with
     | [] => erase_after pos s =
               Throw (out_of_range "Cannot erase_after: no next element") s
     | (b, y) :: ns3 =>
         ∃ s', erase_after pos s = Ok (head_of ns3) s' ∧
               Inv s' (ns1 ++ (pos, x) :: ns3) ∧
               mem s !! pos = Some (mkNode x b) ∧
               mem s !! b = Some (mkNode y (head_of ns3)) ∧
               mem s' = delete b (<[pos := mkNode x (head_of ns3)]> (mem s)) ∧
               head_ (self s') = head_ (self s) ∧
               tail_ (self s') = (if decide (tail_ (self s) = b) then pos
                                  else tail_ (self s)) ∧
               list_size (self s') = list_size (self s) - 1 ∧
               to_list s' = Some (ns1.*2 ++ x :: ns3.*2)
     end).
Proof.
  intros HI. split; [done|]. intros Hpos.
  rewrite (Inv_state _ _ HI) in Hpos |- *.
  apply Inv_obj in HI as (Hok & _ & Hc). cbn [self mem] in *.
  destruct (position_split _ _ _ Hc Hpos) as (ns1 & x & ns2 & ->).
  exists ns1, x, ns2. split; [done|].
  destruct ns2 as [|[b y] ns3]; [by apply erase_after_last|].
  rewrite erase_after_run by done.
  pose proof (erase_after_evolves _ _ _ _ _ _ _ Hok Hc) as (Hok' & Hc' & _).
  pose proof (Inv_intro _ _ Hok' Hc') as HI'.
  pose proof Hc as (_ & _ & Hl & Hc2)%chain_mid. cbn [head_of] in Hl.
  destruct Hc2 as (_ & _ & r & Hlb & Hc3).
  pose proof (chain_head _ _ _ Hc3) as ->.
  eexists. split; [done|]. split; [done|]. split; [done|]. split; [done|].
  split; [done|].
  cbn [self mem obj_of head_ tail_ list_size]. split; [|split; [|split]].
  - by destruct ns1 as [|[] ?].
  - pose proof (tail_of_mid (mem s) (head_of (ns1 ++ (pos, x) :: (b, y) :: ns3))
                  (ns1 ++ [(pos, x)]) b y ns3) as Htail.
    rewrite <- app_assoc in Htail. specialize (Htail Hc). case_decide as Ht.
    + rewrite (proj1 Htail Ht). by rewrite tail_of_snoc.
    + assert (ns3 ≠ []) as Hne by (intros ?; apply Ht; by apply Htail).
      rewrite !(tail_of_app ns1) by done. by rewrite !tail_of_cons.
  - rewrite !length_app. simpl. lia.
  - rewrite (to_list_Inv _ _ HI'). by rewrite fmap_app.
Qed.

(** The list [10, 20, 30] and its second node. *)
Lemma C3_erase_after_witness :
  Inv example_state example_nodes ∧
  position_of (mem example_state) (self example_state) 2 ∧
  erase_after nullptr example_state =
    Throw (out_of_range "Cannot erase_after: no next element") example_state.
Proof.
  assert (Inv example_state example_nodes) as HI.
  { apply Inv_computed; vm_compute; reflexivity. }
  split; [exact HI|]. split.
  - exists example_nodes. split; [vm_compute; reflexivity|]. right. left.
  - exact (proj1 (C3_erase_after example_state example_nodes 2 HI)).
Defined.

(** C4. Each of [front()], [back()], [pop_front()] and [pop_back()] throws
    (the failure EmptyContainer, [std::out_of_range]) if and only if the
    count of the list is 0: on an empty list all four throw, on a non-empty
    list none does. *)
Theorem C4_empty_container {T} (s : state T) (ns : list (Z * T)) :
  Inv s ns →
  (list_size (self s) = 0 →
   front s = Throw (out_of_range "Accessing front() on an empty list") s ∧
   back s = Throw (out_of_range "Accessing back() on an empty list") s ∧
   pop_front s = Throw (out_of_range "pop_front on an empty list") s ∧
   pop_back s = Throw (out_of_range "pop_back on an empty list") s) ∧
  (list_size (self s) ≠ 0 →
   (∃ x, front s = Ok x s) ∧ (∃ x, back s = Ok x s) ∧
   (∃ s', pop_front s = Ok tt s') ∧ (∃ s', pop_back s = Ok tt s')).
Proof.
  intros HI. pose proof (front_run _ _ HI) as Hf. pose proof (back_run _ _ HI) as Hb.
  rewrite (Inv_state _ _ HI) in Hf, Hb |- *.
  apply Inv_obj in HI as (Hok & _ & Hc). cbn [self mem obj_of list_size] in *.
  split; intros Hsz.
  - destruct ns as [|n ns]; [|simpl in Hsz; lia]. done.
  - destruct (decide (ns = [])) as [->|Hne]; [done|].
    destruct (exists_last Hne) as (ns' & [t y] & ->).
    rewrite pop_back_run by done. rewrite last_snoc in Hb.
    rewrite pop_front_run by done.
    destruct ns' as [|[a x] ns']; simpl in *; eauto 10.
Qed.

(** The empty list. *)
Lemma C4_empty_container_witness :
  Inv empty_state [] ∧ list_size (self empty_state) = 0 ∧
  front empty_state =
    Throw (out_of_range "Accessing front() on an empty list") empty_state ∧
  back empty_state =
    Throw (out_of_range "Accessing back() on an empty list") empty_state ∧
  pop_front empty_state =
    Throw (out_of_range "pop_front on an empty list") empty_state ∧
  pop_back empty_state =
    Throw (out_of_range "pop_back on an empty list") empty_state.
Proof.
  assert (Inv empty_state []) as HI.
  { apply Inv_computed; vm_compute; reflexivity. }
  split; [exact HI|]. split; [reflexivity|].
  exact (proj1 (C4_empty_container empty_state [] HI) eq_refl).
Defined.

(** C5. [reverse()] never fails.  It turns the sequence around: the former
    tail node becomes the head and the former head node the tail, the
    elements are the same multiset in reverse order and the size is kept; on
    a list of size below 2 it changes nothing; and calling it twice in
    succession restores the list (nodes, links and order) as it was. *)
Theorem C5_reverse {T} (s : state T) (ns : list (Z * T)) :
  Inv s ns →
  ∃ s', reverse s = Ok tt s' ∧
        Inv s' (rev ns) ∧
        to_list s' = Some (rev ns.*2) ∧
        rev ns.*2 ≡ₚ ns.*2 ∧
        list_size (self s') = list_size (self s) ∧
        head_ (self s') = tail_ (self s) ∧
        tail_ (self s') = head_ (self s) ∧
        (list_size (self s) < 2 → s' = s) ∧
        reverse s' = Ok tt s.
Proof.
  intros HI. rewrite (Inv_state _ _ HI).
  apply Inv_obj in HI as (Hok & _ & Hc). cbn [self mem] in *.
  rewrite reverse_run by done.
  pose proof (reverse_evolves _ _ Hok Hc) as (Hok' & Hc' & _).
  pose proof (Inv_intro _ _ Hok' Hc') as HI'.
  eexists. split; [done|]. split; [done|].
  cbn [self mem obj_of head_ tail_ list_size].
  split; [|split; [|split; [|split; [|split; [|split]]]]].
  - rewrite (to_list_Inv _ _ HI'). by rewrite map_rev.
  - apply Permutation_sym, Permutation_rev.
  - by rewrite length_rev.
  - apply head_of_rev.
  - apply tail_of_rev.
  - intros Hlt. destruct ns as [|[a x] [|??]]; simpl in Hlt; try lia; [done|].
    destruct Hc as (_ & _ & r & Hl & ->). simpl. by rewrite insert_id.
  - rewrite reverse_run by done. rewrite relink_rev by done.
    by rewrite rev_involutive.
Qed.

(** Reversing [10, 20, 30], twice. *)
Lemma C5_reverse_witness :
  Inv example_state example_nodes ∧
  ∃ s', reverse example_state = Ok tt s' ∧
        to_list s' = Some [30; 20; 10] ∧
        reverse s' = Ok tt example_state.
Proof.
  assert (Inv example_state example_nodes) as HI.
  { apply Inv_computed; vm_compute; reflexivity. }
  split; [exact HI|].
  destruct (C5_reverse example_state example_nodes HI)
    as (s' & Hr & _ & Hl & _ & _ & _ & _ & _ & Hrr).
  exists s'. split; [exact Hr|]. split; [exact Hl|exact Hrr].
Defined.

(** C6. Whenever [front], [back], [pop_front], [pop_back], [insert_after],
    [emplace_after] or [erase_after] fails, the list is exactly as before
    the call: head, tail, count and every node are unchanged.  This holds in
    every state and for every failure, the ones of the contract (an empty
    list, the end sentinel, no successor) among them. *)
Theorem C6_failure_atomic {T} (s s' : state T) (e : exn) :
  front s = Throw e s' ∨ back s = Throw e s' ∨
  pop_front s = Throw e s' ∨ pop_back s = Throw e s' ∨
  (∃ pos v, insert_after pos v s = Throw e s') ∨
  (∃ pos Args (ctor : Args → T) args, emplace_after pos ctor args s = Throw e s') ∨
  (∃ pos, erase_after pos s = Throw e s') →
  s' = s.
Proof.
  intros [H|[H|[H|[H|[(pos & v & H)|[(pos & A & ctor & args & H)|(pos & H)]]]]]].
  - by eapply front_throw.
  - by eapply back_throw.
  - by eapply pop_front_throw.
  - by eapply pop_back_throw.
  - by eapply insert_after_throw.
  - by eapply emplace_after_throw.
  - by eapply erase_after_throw.
Qed.

(** [erase_after] at the last node of [10, 20, 30]. *)
Lemma C6_failure_atomic_witness :
  erase_after 3 example_state =
    Throw (out_of_range "Cannot erase_after: no next element") example_state ∧
  example_state = example_state.
Proof.
  assert (erase_after 3 example_state =
            Throw (out_of_range "Cannot erase_after: no next element")
                  example_state) as H.
  { vm_compute. reflexivity. }
  split; [exact H|].
  apply (C6_failure_atomic example_state example_state
           (out_of_range "Cannot erase_after: no next element")).
  do 6 right. exists 3. exact H.
Defined.

(** C7. For two lists over a totally ordered element type, [a == b] is true
    iff the sizes match and the elements are equal pairwise in chain order,
    [a < b] is the lexicographic comparison in which a strict prefix is less
    than the longer sequence, and exactly one of [a < b], [a == b], [b < a]
    holds. *)
Theorem C7_ordering {T} `{Comparable T} `{!TotalOrder T}
    (h : heap T) (a b : SinglyLinkedList) (ns ms : list (Z * T)) :
  repr h a ns → repr h b ms →
  op_eq h a b = Some (seq_equal ns.*2 ms.*2) ∧
  op_lt h a b = Some (lex_less ns.*2 ms.*2) ∧
  op_lt h b a = Some (lex_less ms.*2 ns.*2) ∧
  exactly_one (lex_less ns.*2 ms.*2) (seq_equal ns.*2 ms.*2)
              (lex_less ms.*2 ns.*2).
Proof.
  intros Ha Hb. split; [by apply op_eq_run|].
  rewrite <- !lex_by_less_spec. split; [by apply op_lt_run|].
  split; [by apply op_lt_run|].
  rewrite !lex_by_less_spec. apply lists_trichotomy.
Qed.

(** The lists [1, 2, 3] and [1, 2, 4]. *)
Lemma C7_ordering_witness :
  repr compare_heap list_123 [(1, 1); (2, 2); (3, 3)] ∧
  repr compare_heap list_124 [(4, 1); (5, 2); (6, 4)] ∧
  op_eq compare_heap list_123 list_124 = Some false ∧
  op_lt compare_heap list_123 list_124 = Some true ∧
  op_lt compare_heap list_124 list_123 = Some false.
Proof.
  assert (repr compare_heap list_123 [(1, 1); (2, 2); (3, 3)]) as Ha.
  { apply repr_computed; vm_compute; reflexivity. }
  assert (repr compare_heap list_124 [(4, 1); (5, 2); (6, 4)]) as Hb.
  { apply repr_computed; vm_compute; reflexivity. }
  split; [exact Ha|]. split; [exact Hb|].
  destruct (C7_ordering compare_heap list_123 list_124 _ _ Ha Hb)
    as (Heq & Hlt & Hgt & _).
  split; [exact Heq|]. split; [exact Hlt|exact Hgt].
Defined.

(** C8. [push_front(x)] followed by [pop_front()] returns the list to its
    prior state: the same head, tail and size, the same nodes and so the
    same elements in the same order.  (When no node can be allocated,
    [push_front] throws [std::bad_alloc] and the list is as before too.) *)
Theorem C8_push_pop_front {T} (s : state T) (ns : list (Z * T)) (x : T) :
  Inv s ns →
  (push_front x >> pop_front) s =
    match alloc (mem s) with
    | Some _ => Ok tt s
    | None => Throw bad_alloc s
    end.
Proof.
  intros HI. destruct s as [l h].
  apply Inv_obj in HI as (Hok & Hs & Hc). cbn [self mem] in *. subst l.
  unfold bind.
  rewrite push_front_run by done.
  destruct (alloc h) as [a|] eqn:Ha; [|done].
  apply alloc_fresh in Ha as [Hfree Hrange].
  pose proof (push_front_evolves _ _ _ x Hok Hc Hfree Hrange) as (Hok' & Hc' & _).
  rewrite pop_front_run by done. by rewrite delete_insert_id.
Qed.

(** Pushing 5 in front of [10, 20, 30] and popping it. *)
Lemma C8_push_pop_front_witness :
  Inv example_state example_nodes ∧
  (push_front 5 >> pop_front) example_state = Ok tt example_state.
Proof.
  assert (Inv example_state example_nodes) as HI.
  { apply Inv_computed; vm_compute; reflexivity. }
  split; [exact HI|].
  exact (C8_push_pop_front example_state example_nodes 5 HI).
Defined.

(** C9.  The code does not release iteratively.  [clear()] is
    [head_.reset()] and the destructor is defaulted, so the chain is
    released by the recursive destruction of the [unique_ptr] links, one
    [delete] nested inside another for each node: the stack it needs grows
    with the list.  On a stack with room for [frames] nested calls the
    release of a list with more than [frames] nodes overflows; a list with
    at most [frames] nodes is released node by node, every node exactly
    once and no other node, with the nesting as deep as the list is
    long. *)
Theorem C9_release_needs_stack {T} (s : state T) (ns : list (Z * T))
    (frames : nat) :
  Inv s ns →
  ((frames < length ns)%nat → release_on_stack frames s = None) ∧
  ((length ns ≤ frames)%nat →
   ∃ r, release_on_stack frames s = Some r ∧
        clear s = Ok tt (mkState raw_object (heap_after r)) ∧
        dtor s = Ok tt (mkState (self s) (heap_after r)) ∧
        released r ≡ₚ ns.*1 ∧
        NoDup (released r) ∧
        (∀ a, a ∈ ns.*1 → heap_after r !! a = None) ∧
        (∀ a, a ∉ ns.*1 → heap_after r !! a = mem s !! a) ∧
        depth r = length ns).
Proof.
  intros HI. rewrite (Inv_state _ _ HI).
  apply Inv_obj in HI as (Hok & _ & Hc). cbn [self mem] in *.
  unfold release_on_stack. cbn [self mem obj_of head_]. split.
  - intros Hlt. by eapply destroy_overflow.
  - intros Hle.
    exists (mkDestroyed (free_all ns.*1 (mem s)) (rev ns.*1) (length ns)).
    split; [|split; [|split; [|split; [|split; [|split; [|split]]]]]].
    + by apply destroy_chain.
    + by apply clear_run.
    + by apply dtor_run.
    + apply Permutation_sym, Permutation_rev.
    + apply NoDup_ListNoDup, List.NoDup_rev, NoDup_ListNoDup.
      by eapply chain_NoDup.
    + intros a Ha. cbn [heap_after]. rewrite lookup_free_all.
      by rewrite decide_True.
    + intros a Ha. cbn [heap_after]. rewrite lookup_free_all.
      by rewrite decide_False.
    + done.
Qed.

(** The list [10, 20, 30] on a stack with room for two nested calls. *)
Lemma C9_release_needs_stack_witness :
  Inv example_state example_nodes ∧
  (2 < length example_nodes)%nat ∧
  release_on_stack 2 example_state = None.
Proof.
  assert (Inv example_state example_nodes) as HI.
  { apply Inv_computed; vm_compute; reflexivity. }
  assert (2 < length example_nodes)%nat as Hlt by (simpl; lia).
  split; [exact HI|]. split; [exact Hlt|].
  exact (proj1 (C9_release_needs_stack example_state example_nodes 2 HI) Hlt).
Defined.

(** A list of 1,000,000 elements, as 1,000,000 calls of [push_front] on a
    default-constructed list build it: [clear()] and the destructor
    overflow every stack that has room for fewer than 1,000,000 nested
    calls of [delete]. *)
Lemma release_of_a_million (frames : nat) :
  (frames < Z.to_nat 1000000)%nat →
  ∃ (s : state Z) (ns : list (Z * Z)),
    Nat.iter (Z.to_nat 1000000) (λ m, m >> push_front 0) default_ctor
      (mkState raw_object ∅) = Ok tt s ∧
    Inv s ns ∧
    list_size (self s) = 1000000 ∧
    release_on_stack frames s = None.
Proof.
  intros Hlt.
  destruct (list_of_length (0 : Z) (Z.to_nat 1000000))
    as (s & ns & Hrun & HI & Hlen & _ & _).
  { rewrite Z2Nat.id by lia. change word_modulus with 18446744073709551616.
    lia. }
  exists s, ns. split; [done|]. split; [done|].
  pose proof HI as (_ & Hs & Hc)%Inv_obj. split.
  - rewrite Hs. cbn [obj_of list_size]. rewrite Hlen. by rewrite Z2Nat.id by lia.
  - unfold release_on_stack. rewrite Hs. cbn [obj_of head_].
    eapply destroy_overflow; [done|]. by rewrite Hlen.
Qed.

(** C10. Assigning a list to itself leaves it unchanged: [L = std::move(L)]
    leaves the very same nodes, and after [L = L] the list holds the same
    elements in the same order with the same size as before (in copies of
    the nodes, or in the nodes it had when the copy cannot be allocated). *)
Theorem C10_self_assignment {T} (s : state T) (ns : list (Z * T)) :
  Inv s ns →
  self_move_assign s = Ok tt s ∧
  ∃ s' ns',
    (self_copy_assign s = Ok tt s' ∨ self_copy_assign s = Throw bad_alloc s') ∧
    Inv s' ns' ∧
    ns'.*2 = ns.*2 ∧
    to_list s' = to_list s ∧
    list_size (self s') = list_size (self s).
Proof.
  intros HI. split; [apply self_move_assign_run|].
  pose proof (to_list_Inv _ _ HI) as Hlist.
  unfold self_copy_assign. rewrite (Inv_state _ _ HI) in Hlist |- *.
  apply Inv_obj in HI as (Hok & _ & Hc). cbn [self mem] in *.
  destruct (copy_assign_run (obj_of ns) ns _ ns Hok Hc Hc)
    as (h' & ns' & He & [[Hr Hv]|[Hr ->]]).
  - pose proof He as (Hok' & Hc' & _).
    pose proof (Inv_intro _ _ Hok' Hc') as HI'.
    exists (mkState (obj_of ns') h'), ns'. split; [by left|]. split; [done|].
    split; [done|]. split.
    + by rewrite (to_list_Inv _ _ HI'), Hlist, Hv.
    + simpl. apply (f_equal length) in Hv. rewrite !length_fmap in Hv. lia.
  - pose proof He as (Hok' & Hc' & _).
    pose proof (Inv_intro _ _ Hok' Hc') as HI'.
    exists (mkState (obj_of ns) h'), ns. split; [by right|]. split; [done|].
    split; [done|]. split; [|done].
    by rewrite (to_list_Inv _ _ HI'), Hlist.
Qed.

(** Assigning [10, 20, 30] to itself. *)
Lemma C10_self_assignment_witness :
  Inv example_state example_nodes ∧
  self_move_assign example_state = Ok tt example_state ∧
  ∃ s', self_copy_assign example_state = Ok tt s' ∧
        to_list s' = Some [10; 20; 30].
Proof.
  assert (Inv example_state example_nodes) as HI.
  { apply Inv_computed; vm_compute; reflexivity. }
  split; [exact HI|].
  destruct (C10_self_assignment example_state example_nodes HI)
    as (Hmove & s' & ns' & Hrun & _ & _ & Hlist & _).
  split; [exact Hmove|].
  assert (∃ s0, self_copy_assign example_state = Ok tt s0) as [s0 H0].
  { eexists. vm_compute. reflexivity. }
  destruct Hrun as [Hrun|Hrun].
  - exists s'. split; [exact Hrun|]. 
    rewrite Hlist. vm_compute. reflexivity.
  - exfalso. rewrite H0 in Hrun. discriminate Hrun.
Defined.

(** * Further properties of the code *)

(** ** The exact footprint of the member functions *)

Ltac untouched_tac :=
  let b := fresh "b" in
  let Hb := fresh "Hb" in
  let Hb' := fresh "Hb'" in
  intros b Hb Hb';
  repeat (rewrite lookup_insert_ne || rewrite lookup_delete_ne);
  first [done | intros ->; first [apply Hb; elem_tac | apply Hb'; elem_tac]].

Section Exact.
Context {T : Type}.
Implicit Types (h : heap T) (ns : list (Z * T)) (p q a : Z) (s : state T).

Lemma footprint_refl h ns :
  heap_ok h → chain h (head_of ns) ns → footprint h ns h ns.
Proof.
  intros Hok Hc. split; [by apply evolves_refl|]. split; [done|].
  intros b x Hin. by left.
Qed.

Lemma elem_of_addrs ns b x : (b, x) ∈ ns → b ∈ ns.*1.
Proof. intros Hin. apply list_elem_of_fmap. by exists (b, x). Qed.

Lemma push_front_footprint h ns a v :
  heap_ok h → chain h (head_of ns) ns → h !! a = None → 0 < a < word_modulus →
  footprint h ns (<[a := mkNode v (head_of ns)]> h) ((a, v) :: ns).
Proof.
  intros Hok Hc Ha Hr. split; [by apply push_front_evolves|]. split.
  - untouched_tac.
  - intros b x Hin. left. by right.
Qed.

Lemma push_back_footprint h ns a v :
  heap_ok h → chain h (head_of ns) ns → h !! a = None → 0 < a < word_modulus →
  footprint h ns (push_back_heap h ns a v) (ns ++ [(a, v)]).
Proof.
  intros Hok Hc Ha Hr. split; [by apply push_back_evolves|]. split.
  - unfold push_back_heap. destruct (last ns) as [[t x]|] eqn:Hl.
    + apply last_Some in Hl as [ns' ->]. untouched_tac.
    + untouched_tac.
  - intros b x Hin. left. apply elem_of_app. by left.
Qed.

Lemma pop_front_footprint h a x ns :
  heap_ok h → chain h a ((a, x) :: ns) →
  footprint h ((a, x) :: ns) (delete a h) ns.
Proof.
  intros Hok Hc. split; [by apply pop_front_evolves|]. split.
  - untouched_tac.
  - intros b y [Heq|Hin]%elem_of_cons; [|by left]. injection Heq as -> ->.
    right. split; [|by rewrite lookup_delete_eq].
    apply chain_NoDup in Hc. rewrite fmap_cons in Hc.
    by apply NoDup_cons in Hc as [? _].
Qed.

Lemma pop_back_footprint h ns t x :
  heap_ok h → chain h (head_of (ns ++ [(t, x)])) (ns ++ [(t, x)]) →
  footprint h (ns ++ [(t, x)]) (pop_back_heap h ns t) ns.
Proof.
  intros Hok Hc. split; [by apply pop_back_evolves|]. split.
  - unfold pop_back_heap. destruct (last ns) as [[b y]|] eqn:Hl.
    + apply last_Some in Hl as [ns' ->]. untouched_tac.
    + untouched_tac.
  - intros b y [Hin|Hin]%elem_of_app; [by left|].
    apply list_elem_of_singleton in Hin. injection Hin as -> ->.
    right. split.
    + apply chain_NoDup in Hc. rewrite fmap_app in Hc.
      apply NoDup_app in Hc as (_ & Hd & _). intros Hin. apply (Hd t Hin).
      simpl. left.
    + unfold pop_back_heap. destruct (last ns) as [[c z]|];
        by rewrite lookup_delete_eq.
Qed.

Lemma insert_after_footprint h ns1 pos x ns2 a v :
  heap_ok h →
  chain h (head_of (ns1 ++ (pos, x) :: ns2)) (ns1 ++ (pos, x) :: ns2) →
  h !! a = None → 0 < a < word_modulus →
  footprint h (ns1 ++ (pos, x) :: ns2)
            (<[pos := mkNode x a]> (<[a := mkNode v (head_of ns2)]> h))
            (ns1 ++ (pos, x) :: (a, v) :: ns2).
Proof.
  intros Hok Hc Ha Hr. split; [by apply insert_after_evolves|]. split.
  - untouched_tac.
  - intros b y Hin. left. revert Hin.
    rewrite !elem_of_app, !elem_of_cons. tauto.
Qed.

Lemma erase_after_footprint h ns1 pos x b y ns2 :
  heap_ok h →
  chain h (head_of (ns1 ++ (pos, x) :: (b, y) :: ns2))
        (ns1 ++ (pos, x) :: (b, y) :: ns2) →
  footprint h (ns1 ++ (pos, x) :: (b, y) :: ns2)
            (delete b (<[pos := mkNode x (head_of ns2)]> h))
            (ns1 ++ (pos, x) :: ns2).
Proof.
  intros Hok Hc. split; [by apply erase_after_evolves|]. split.
  - untouched_tac.
  - intros c z Hin.
    rewrite !elem_of_app, !elem_of_cons in Hin.
    destruct Hin as [Hin|[Hin|[Hin|Hin]]].
    + left. apply elem_of_app. by left.
    + left. apply elem_of_app. right. rewrite Hin. left.
    + injection Hin as -> ->. right. split; [|by rewrite lookup_delete_eq].
      apply chain_NoDup in Hc.
      replace (ns1 ++ (pos, x) :: (b, y) :: ns2)
        with ((ns1 ++ [(pos, x)]) ++ (b, y) :: ns2) in Hc
        by (by rewrite <- app_assoc).
      rewrite fmap_app, fmap_cons in Hc.
      apply NoDup_app in Hc as (_ & Hd & Hn).
      apply NoDup_cons in Hn as [Hn _].
      replace (ns1 ++ (pos, x) :: ns2) with ((ns1 ++ [(pos, x)]) ++ ns2)
        by (by rewrite <- app_assoc).
      rewrite fmap_app. intros [Hl|Hr]%elem_of_app.
      * apply (Hd b Hl). left.
      * done.
    + left. apply elem_of_app. right. by right.
Qed.

Lemma clear_footprint h ns :
  heap_ok h → chain h (head_of ns) ns → footprint h ns (free_all ns.*1 h) [].
Proof.
  intros Hok Hc. split; [by apply free_all_evolves|]. split.
  - intros b Hb _. rewrite lookup_free_all. by rewrite decide_False.
  - intros b x Hin. right. split; [apply not_elem_of_nil|].
    rewrite lookup_free_all. rewrite decide_True; [done|].
    by eapply elem_of_addrs.
Qed.

Lemma reverse_footprint h ns :
  heap_ok h → chain h (head_of ns) ns →
  footprint h ns (relink nullptr ns h) (rev ns).
Proof.
  intros Hok Hc. split; [by apply reverse_evolves|]. split.
  - intros b Hb _. by apply lookup_relink_notin.
  - intros b x Hin. left. apply list_elem_of_In, in_rev.
    rewrite rev_involutive. by apply list_elem_of_In.
Qed.

(** Every member function, called with a valid position, returns or throws,
    and has the footprint above; the functions that do not remove keep
    every node in the list. *)
Lemma call_footprint (m : @method T) h ns :
  heap_ok h → chain h (head_of ns) ns → valid_call h (obj_of ns) m →
  ∃ h' ns', leaves (call m (mkState (obj_of ns) h)) (mkState (obj_of ns') h') ∧
            footprint h ns h' ns' ∧
            (¬ removing m → ∀ n, n ∈ ns → n ∈ ns').
Proof.
  intros Hok Hc Hvalid.
  pose proof (Inv_intro _ _ Hok Hc) as HI.
  pose proof (footprint_refl _ _ Hok Hc) as Hrefl.
  assert (∀ A (r : outcome T A), leaves r (mkState (obj_of ns) h) →
    ∃ h' ns', leaves r (mkState (obj_of ns') h') ∧ footprint h ns h' ns' ∧
              (¬ removing m → ∀ n, n ∈ ns → n ∈ ns')) as Hsame.
  { intros A r Hl. exists h, ns. done. }
  assert (∀ v, ∃ h' ns',
    leaves (push_front v (mkState (obj_of ns) h)) (mkState (obj_of ns') h') ∧
    footprint h ns h' ns' ∧ (∀ n, n ∈ ns → n ∈ ns')) as Hpf.
  { intros v. rewrite push_front_run by done.
    destruct (alloc h) as [a|] eqn:Ha.
    - apply alloc_fresh in Ha as [Hfree Hr]. eexists _, _. split; [left; eauto|].
      split; [by apply push_front_footprint|]. intros n Hn. by right.
    - exists h, ns. split; [right; eauto|]. done. }
  assert (∀ v, ∃ h' ns',
    leaves (push_back v (mkState (obj_of ns) h)) (mkState (obj_of ns') h') ∧
    footprint h ns h' ns' ∧ (∀ n, n ∈ ns → n ∈ ns')) as Hpb.
  { intros v. rewrite push_back_run by done.
    destruct (alloc h) as [a|] eqn:Ha.
    - apply alloc_fresh in Ha as [Hfree Hr]. eexists _, _. split; [left; eauto|].
      split; [by apply push_back_footprint|]. intros n Hn.
      apply elem_of_app. by left.
    - exists h, ns. split; [right; eauto|]. done. }
  assert (∀ pos v, pos = nullptr ∨ position_of h (obj_of ns) pos → ∃ h' ns',
    leaves ((insert_after pos v >> ret tt) (mkState (obj_of ns) h))
           (mkState (obj_of ns') h') ∧
    footprint h ns h' ns' ∧ (∀ n, n ∈ ns → n ∈ ns')) as Hia.
  { intros pos v [->|Hpos].
    - exists h, ns. split; [right; eauto|]. done.
    - destruct (position_split _ _ _ Hc Hpos) as (ns1 & x & ns2 & ->).
      unfold bind. rewrite insert_after_run by done.
      destruct (alloc h) as [a|] eqn:Ha.
      + apply alloc_fresh in Ha as [Hfree Hr].
        eexists _, _. split; [left; eauto|].
        split; [by apply insert_after_footprint|]. intros n.
        rewrite !elem_of_app, !elem_of_cons. tauto.
      + eexists _, _. split; [right; eauto|]. done. }
  destruct m; simpl in Hvalid; unfold call.
  - apply Hsame. left; eauto.
  - apply Hsame. left; eauto.
  - apply Hsame. left; eauto.
  - apply Hsame. left; eauto.
  - apply Hsame. unfold bind. rewrite (front_run _ ns) by done.
    destruct ns as [|[a x] ns]; [right|left]; eauto.
  - apply Hsame. unfold bind. rewrite (back_run _ ns) by done.
    destruct (last ns) as [[a x]|]; [left|right]; eauto.
  - eexists _, []. rewrite clear_run by done. split; [left; eauto|].
    split; [by apply clear_footprint|]. intros Hn. by destruct Hn.
  - destruct (Hpf value) as (h' & ns' & ? & ? & ?). by exists h', ns'.
  - rewrite emplace_front_push.
    destruct (Hpf (ctor args)) as (h' & ns' & ? & ? & ?). by exists h', ns'.
  - destruct (Hpb value) as (h' & ns' & ? & ? & ?). by exists h', ns'.
  - rewrite emplace_back_push.
    destruct (Hpb (ctor args)) as (h' & ns' & ? & ? & ?). by exists h', ns'.
  - rewrite pop_front_run by done. destruct ns as [|[a x] ns].
    + apply Hsame. right; eauto.
    + eexists _, _. split; [left; eauto|].
      split; [by apply pop_front_footprint|]. intros Hn. by destruct Hn.
  - destruct (decide (ns = [])) as [->|Hne].
    + apply Hsame. right; eauto.
    + destruct (exists_last Hne) as (ns' & [t x] & ->).
      rewrite pop_back_run by done. eexists _, _. split; [left; eauto|].
      split; [by apply pop_back_footprint|]. intros Hn. by destruct Hn.
  - destruct (Hia pos value Hvalid) as (h' & ns' & ? & ? & ?). by exists h', ns'.
  - destruct (decide (pos = nullptr)) as [->|Hp].
    { apply Hsame. right; eauto. }
    rewrite emplace_after_insert by done.
    destruct (Hia pos (ctor args) Hvalid) as (h' & ns' & ? & ? & ?).
    by exists h', ns'.
  - unfold bind. destruct Hvalid as [->|Hpos].
    + apply Hsame. right; eauto.
    + destruct (position_split _ _ _ Hc Hpos) as (ns1 & x & ns2 & ->).
      destruct ns2 as [|[b y] ns2].
      * rewrite erase_after_last by done. apply Hsame. right; eauto.
      * rewrite erase_after_run by done. eexists _, _. split; [left; eauto|].
        split; [by apply erase_after_footprint|]. intros Hn. by destruct Hn.
  - rewrite reverse_run by done. eexists _, _. split; [left; eauto|].
    split; [by apply reverse_footprint|]. intros _ n Hn.
    apply list_elem_of_In, in_rev. rewrite rev_involutive.
    by apply list_elem_of_In.
Qed.

End Exact.

(** ** The exact footprint of construction and assignment *)

Section Building.
Context {T : Type}.
Implicit Types (h : heap T) (ns ms : list (Z * T)) (p q a : Z) (s : state T)
  (l : SinglyLinkedList).

Lemma untouched_grow h ns h1 ns1 h2 ns2 :
  untouched h ns h1 ns1 → untouched h1 ns1 h2 ns2 →
  (∀ b, b ∈ ns1.*1 → b ∈ ns2.*1) → untouched h ns h2 ns2.
Proof.
  intros H1 H2 Hsub b Hb Hb2.
  assert (b ∉ ns1.*1) as Hb1 by (intros ?; by apply Hb2, Hsub).
  rewrite (H2 b Hb1 Hb2). by apply H1.
Qed.

(** The loop of the initializer-list constructor only appends nodes. *)
Lemma ilist_loop_appends ilist h ms :
  heap_ok h → chain h (head_of ms) ms →
  ∃ h' new, evolves h ms h' (ms ++ new) ∧ untouched h ms h' (ms ++ new) ∧
    ((ilist_loop ilist (mkState (obj_of ms) h) =
        Ok tt (mkState (obj_of (ms ++ new)) h') ∧
      new.*2 = ilist) ∨
     ilist_loop ilist (mkState (obj_of ms) h) =
       Throw bad_alloc (mkState (obj_of (ms ++ new)) h')).
Proof.
  revert h ms. induction ilist as [|v ilist IH]; intros h ms Hok Hc.
  - exists h, []. rewrite app_nil_r. split; [by apply evolves_refl|].
    split; [done|]. by left.
  - simpl. unfold bind. rewrite push_back_run by done.
    destruct (alloc h) as [a|] eqn:Ha.
    + apply alloc_fresh in Ha as [Hfree Hr].
      pose proof (push_back_footprint _ _ _ v Hok Hc Hfree Hr) as (He & Hu & _).
      pose proof He as (Hok1 & Hc1 & _).
      destruct (IH _ _ Hok1 Hc1) as (h' & new & He' & Hu' & Hrun).
      exists h', ((a, v) :: new). rewrite <- app_assoc in He', Hu', Hrun.
      simpl in He', Hu', Hrun.
      split; [by eapply evolves_trans|]. split.
      * eapply untouched_grow; [exact Hu|exact Hu'|]. intros b.
        rewrite !fmap_app, !elem_of_app, !fmap_cons, !elem_of_cons.
        simpl. rewrite elem_of_nil. tauto.
      * destruct Hrun as [[-> Hv]| ->]; [left|by right].
        split; [done|]. by rewrite fmap_cons, Hv.
    + exists h, []. rewrite app_nil_r. split; [by apply evolves_refl|].
      split; [done|]. by right.
Qed.

(** So does the loop of the copy constructor. *)
Lemma copy_loop_appends fuel it rest h ms :
  heap_ok h → chain h (head_of ms) ms → chain h it rest →
  (∀ b, b ∈ rest.*1 → b ∉ ms.*1) → (length rest ≤ fuel)%nat →
  ∃ h' new, evolves h ms h' (ms ++ new) ∧ untouched h ms h' (ms ++ new) ∧
    ((copy_loop fuel it (mkState (obj_of ms) h) =
        Ok tt (mkState (obj_of (ms ++ new)) h') ∧
      new.*2 = rest.*2) ∨
     copy_loop fuel it (mkState (obj_of ms) h) =
       Throw bad_alloc (mkState (obj_of (ms ++ new)) h')).
Proof.
  revert it h ms fuel.
  induction rest as [|[c z] rest IH]; intros it h ms fuel Hok Hc Hr Hdisj Hf.
  - apply chain_null_iff in Hr as ->. exists h, []. rewrite app_nil_r.
    split; [by apply evolves_refl|]. split; [done|]. left.
    by destruct fuel.
  - pose proof Hr as (-> & Hcn & r & Hl & Hr').
    destruct fuel as [|fuel]; [simpl in Hf; lia|]. simpl in Hf.
    rewrite (copy_loop_step _ _ z r) by (try done; apply Hdisj; left).
    destruct (alloc h) as [a|] eqn:Ha.
    + apply alloc_fresh in Ha as [Hfree Hrange].
      pose proof (push_back_footprint _ _ _ z Hok Hc Hfree Hrange) as (He & Hu & _).
      pose proof He as (Hok1 & Hc1 & _).
      assert (∀ b, b ∈ rest.*1 → b ∉ ms.*1) as Hdisj'.
      { intros b Hb. apply Hdisj. by right. }
      destruct (evolves_other _ _ _ _ _ _ He Hr' Hdisj') as [Hr1 Hdisj1].
      destruct (IH r _ (ms ++ [(a, z)]) fuel Hok1 Hc1 Hr1 Hdisj1)
        as (h' & new & He' & Hu' & Hrun); [lia|].
      exists h', ((a, z) :: new). rewrite <- app_assoc in He', Hu', Hrun.
      simpl in He', Hu', Hrun.
      split; [by eapply evolves_trans|]. split.
      * eapply untouched_grow; [exact Hu|exact Hu'|]. intros b.
        rewrite !fmap_app, !elem_of_app, !fmap_cons, !elem_of_cons.
        simpl. rewrite elem_of_nil. tauto.
      * destruct Hrun as [[-> Hv]| ->]; [left|by right].
        split; [done|]. by rewrite !fmap_cons, Hv.
    + exists h, []. rewrite app_nil_r. split; [by apply evolves_refl|].
      split; [done|]. by right.
Qed.

(** Releasing a list that was built beside the others gives the free store
    back as it was. *)
Lemma built_released h h' ms :
  evolves h [] h' ms → untouched h [] h' ms → free_all ms.*1 h' = h.
Proof.
  intros He Hu. apply map_eq. intros b. rewrite lookup_free_all.
  case_decide as Hin.
  - symmetry. by eapply evolves_nil_fresh.
  - apply Hu; [apply not_elem_of_nil|done].
Qed.

Lemma ilist_ctor_exact l0 ilist h :
  heap_ok h →
  ∃ h' ms', evolves h [] h' ms' ∧ untouched h [] h' ms' ∧
    ((ilist_ctor ilist (mkState l0 h) = Ok tt (mkState (obj_of ms') h') ∧
      ms'.*2 = ilist) ∨
     ilist_ctor ilist (mkState l0 h) = Throw bad_alloc (mkState (obj_of ms') h)).
Proof.
  intros Hok.
  destruct (ilist_loop_appends ilist h [] Hok eq_refl) as (h' & ms' & He & Hu & Hrun).
  simpl in He, Hu, Hrun.
  exists h', ms'. split; [done|]. split; [done|].
  unfold ilist_ctor, bind, on_unwind. rewrite default_ctor_run.
  destruct Hrun as [[-> Hv]| ->]; [by left|right].
  pose proof He as (_ & Hc & _). rewrite dtor_run by done.
  by rewrite (built_released h).
Qed.

Lemma copy_ctor_exact l0 (other : SinglyLinkedList) h ns :
  heap_ok h → chain h (head_ other) ns →
  ∃ h' ms', evolves h [] h' ms' ∧ untouched h [] h' ms' ∧
    ((copy_ctor other (mkState l0 h) = Ok tt (mkState (obj_of ms') h') ∧
      ms'.*2 = ns.*2) ∨
     copy_ctor other (mkState l0 h) = Throw bad_alloc (mkState (obj_of ms') h)).
Proof.
  intros Hok Hcn.
  destruct (copy_loop_appends (live_nodes h) (head_ other) ns h [] Hok eq_refl Hcn)
    as (h' & ms' & He & Hu & Hrun).
  { intros b _. apply not_elem_of_nil. }
  { by eapply chain_length_live. }
  simpl in He, Hu, Hrun.
  exists h', ms'. split; [done|]. split; [done|].
  unfold copy_ctor, bind, on_unwind. rewrite default_ctor_run. simpl.
  destruct Hrun as [[-> Hv]| ->]; [by left|right].
  pose proof He as (_ & Hc & _). rewrite dtor_run by done.
  by rewrite (built_released h).
Qed.

(** Copy assignment: the list holds a copy of [rhs] in new nodes and its
    old nodes are released, or nothing has changed. *)
Lemma copy_assign_exact (rhs : SinglyLinkedList) ms h ns :
  heap_ok h → chain h (head_of ns) ns → chain h (head_ rhs) ms →
  (∃ h' ns', copy_assign rhs (mkState (obj_of ns) h) =
               Ok tt (mkState (obj_of ns') h') ∧
             ns'.*2 = ms.*2 ∧
             evolves h ns h' ns' ∧ untouched h ns h' ns' ∧
             (∀ b, b ∈ ns.*1 → (b ∉ ns'.*1) ∧ h' !! b = None) ∧
             (∀ b, b ∈ ns'.*1 → h !! b = None)) ∨
  copy_assign rhs (mkState (obj_of ns) h) = Throw bad_alloc (mkState (obj_of ns) h).
Proof.
  intros Hok Hc Hm.
  destruct (copy_ctor_exact raw_object rhs h ms Hok Hm) as (h1 & ms1 & He & Hu & Hrun).
  destruct (evolves_replace _ _ _ _ Hok Hc He) as [He1 _].
  unfold copy_assign, bind, with_object. simpl.
  fold raw_object.
  destruct Hrun as [[-> Hv]| ->]; simpl; [left|by right].
  assert (∀ b, b ∈ ns.*1 → b ∉ ([] : list (Z * T)).*1) as Hd0.
  { intros b _. apply not_elem_of_nil. }
  destruct (evolves_other _ _ _ _ _ _ He Hc Hd0) as [Hc1 Hdisj].
  exists (free_all ns.*1 h1), ms1. rewrite op_assign_run by done.
  split; [done|]. split; [done|]. split; [done|]. split; [|split].
  - intros b Hb Hb'. rewrite lookup_free_all, decide_False by done.
    apply Hu; [apply not_elem_of_nil|done].
  - intros b Hb. split; [by apply Hdisj|].
    by rewrite lookup_free_all, decide_True.
  - intros b Hb. by eapply evolves_nil_fresh.
Qed.

End Building.

(** ** Elements and positions *)

Section Elements.
Context {T : Type}.
Implicit Types (h : heap T) (ns ms : list (Z * T)) (p q a : Z) (s : state T)
  (l : SinglyLinkedList).

Lemma seg_elem h p ns q b x :
  seg h p ns q → (b, x) ∈ ns → ∃ r, h !! b = Some (mkNode x r).
Proof.
  revert p. induction ns as [|[a y] ns IH]; intros p Hs Hin.
  - by apply elem_of_nil in Hin.
  - destruct Hs as (-> & _ & r & Hl & Hs).
    apply elem_of_cons in Hin as [Heq|Hin].
    + injection Heq as -> ->. eauto.
    + by eapply IH.
Qed.

Lemma deref_elem s ns b x : Inv s ns → (b, x) ∈ ns → deref b s = Ok x s.
Proof.
  intros (_ & Hc & _) Hin. destruct (seg_elem _ _ _ _ _ _ Hc Hin) as [r Hl].
  unfold deref, bind, load, ret. by rewrite Hl.
Qed.

Lemma deref_dangling s b : mem s !! b = None → deref b s = Undefined.
Proof. intros Hl. unfold deref, bind, load. by rewrite Hl. Qed.

Lemma incr_dangling s b : mem s !! b = None → incr b s = Undefined.
Proof. intros Hl. unfold incr, bind, load. by rewrite Hl. Qed.

Lemma head_of_null h ns : chain h (head_of ns) ns → head_of ns = nullptr ↔ ns = [].
Proof.
  intros Hc. split; [|by intros ->].
  intros Hn. rewrite Hn in Hc. by apply chain_null in Hc.
Qed.

Lemma tail_of_null h p ns : chain h p ns → tail_of ns = nullptr ↔ ns = [].
Proof.
  intros Hc. split; [|by intros ->]. intros Hn.
  destruct (decide (ns = [])) as [|Hne]; [done|].
  by destruct (tail_of_nonnull _ _ _ Hc Hne).
Qed.

Lemma push_pop_back_heap h ns a v :
  chain h (head_of ns) ns → h !! a = None →
  pop_back_heap (push_back_heap h ns a v) ns a = h.
Proof.
  intros Hc Ha. unfold pop_back_heap, push_back_heap.
  destruct (last ns) as [[t x]|] eqn:Hl.
  - apply last_Some in Hl as [ns' ->].
    apply seg_snoc in Hc as (_ & _ & Ht).
    assert (t ≠ a) by congruence.
    apply map_eq. intros b.
    destruct (decide (b = a)) as [->|Hba]; [by rewrite lookup_delete_eq|].
    rewrite lookup_delete_ne by done.
    destruct (decide (b = t)) as [->|Hbt]; [by rewrite lookup_insert_eq|].
    by rewrite !lookup_insert_ne.
  - by rewrite delete_insert_eq, delete_id.
Qed.

Lemma insert_erase_heap h pos x r a n :
  h !! pos = Some (mkNode x r) → h !! a = None →
  delete a (<[pos := mkNode x r]> (<[pos := mkNode x a]> (<[a := n]> h))) = h.
Proof.
  intros Hp Ha. assert (pos ≠ a) by congruence.
  apply map_eq. intros b.
  destruct (decide (b = a)) as [->|Hba]; [by rewrite lookup_delete_eq|].
  rewrite lookup_delete_ne by done.
  destruct (decide (b = pos)) as [->|Hbp]; [by rewrite lookup_insert_eq|].
  by rewrite !lookup_insert_ne.
Qed.

(** Writing an element changes the content of its node, not the links. *)
Lemma store_data_chain h ns1 pos x ns2 v :
  chain h (head_of (ns1 ++ (pos, x) :: ns2)) (ns1 ++ (pos, x) :: ns2) →
  chain (<[pos := mkNode v (head_of ns2)]> h)
        (head_of (ns1 ++ (pos, v) :: ns2)) (ns1 ++ (pos, v) :: ns2).
Proof.
  intros Hc.
  destruct (chain_mid_NoDup _ _ _ _ _ _ Hc) as (Hn1 & Hn2 & _).
  assert (head_of (ns1 ++ (pos, v) :: ns2) = head_of (ns1 ++ (pos, x) :: ns2)) as ->.
  { by destruct ns1. }
  apply chain_mid in Hc as (Hs & Hp & Hl & Hc2). apply chain_mid.
  split; [by apply chain_frame_insert|]. split; [done|].
  split; [by rewrite lookup_insert_eq|]. by apply chain_frame_insert.
Qed.

End Elements.

(** ** Insertion and removal at the ends *)

(** X1. [push_back] (both overloads) and [emplace_back] link a new node after
    the tail: the element is appended, it is what [back()] returns, the
    size grows by 1, the head changes only if the list was empty, and no
    node but the old tail and the new one is written; every element stays
    at its position.  When the node cannot be allocated the call throws
    [std::bad_alloc] and the list is as before. *)
Theorem push_back_appends {T} (s : state T) (ns : list (Z * T)) (v : T) :
  Inv s ns →
  match alloc (mem s) with
  | None => push_back v s = Throw bad_alloc s
  | Some a =>
      ∃ s', push_back v s = Ok tt s' ∧
            Inv s' (ns ++ [(a, v)]) ∧
            to_list s' = Some (ns.*2 ++ [v]) ∧
            back s' = Ok v s' ∧
            list_size (self s') = list_size (self s) + 1 ∧
            tail_ (self s') = a ∧
            head_ (self s') = (if decide (head_ (self s) = nullptr) then a
                               else head_ (self s)) ∧
            mem s !! a = None ∧
            mem s' !! a = Some (mkNode v nullptr) ∧
            (∀ b, b ≠ a → b ≠ tail_ (self s) → mem s' !! b = mem s !! b) ∧
            (∀ b x, (b, x) ∈ ns → deref b s' = Ok x s')
  end ∧
  ∀ Args (ctor : Args → T) args,
    emplace_back ctor args s = push_back (ctor args) s.
Proof.
  intros HI. split; [|done]. rewrite (Inv_state _ _ HI).
  apply Inv_obj in HI as (Hok & _ & Hc). cbn [self mem] in *.
  rewrite push_back_run by done.
  destruct (alloc (mem s)) as [a|] eqn:Ha; [|done].
  apply alloc_fresh in Ha as [Hfree Hrange].
  pose proof (push_back_evolves _ _ _ v Hok Hc Hfree Hrange) as (Hok' & Hc' & _).
  pose proof (Inv_intro _ _ Hok' Hc') as HI'.
  eexists. split; [done|]. split; [done|].
  split; [by rewrite (to_list_Inv _ _ HI'), fmap_app|].
  split; [by rewrite (back_run _ _ HI'), last_snoc|].
  cbn [self mem obj_of head_ tail_ list_size].
  split; [rewrite length_app; simpl; lia|].
  split; [by rewrite tail_of_snoc|]. split.
  { case_decide as Hh.
    - apply (head_of_null _ _ Hc) in Hh as ->. done.
    - apply head_of_app. intros ->. by apply Hh. }
  split; [done|]. split; [|split].
  - unfold push_back_heap. destruct (last ns) as [[t x]|] eqn:Hl.
    + apply last_Some in Hl as [ns' ->].
      apply seg_snoc in Hc as (_ & _ & Ht).
      rewrite lookup_insert_ne by congruence. by rewrite lookup_insert_eq.
    + by rewrite lookup_insert_eq.
  - intros b Hba Hbt. unfold push_back_heap.
    destruct (last ns) as [[t x]|] eqn:Hl.
    + apply last_Some in Hl as [ns' ->]. rewrite tail_of_snoc in Hbt.
      by rewrite !lookup_insert_ne.
    + by rewrite lookup_insert_ne.
  - intros b x Hin. apply (deref_elem _ _ _ _ HI').
    apply elem_of_app. by left.
Qed.

(** Appending 40 to [10, 20, 30]. *)
Lemma push_back_appends_witness :
  Inv example_state example_nodes ∧
  ∃ s', push_back 40 example_state = Ok tt s' ∧
        to_list s' = Some [10; 20; 30; 40] ∧ back s' = Ok 40 s'.
Proof.
  assert (Inv example_state example_nodes) as HI.
  { apply Inv_computed; vm_compute; reflexivity. }
  split; [exact HI|].
  pose proof (proj1 (push_back_appends example_state example_nodes 40 HI)) as Hrun.
  change (alloc (mem example_state)) with (Some 4) in Hrun.
  destruct Hrun as (s' & Hr & _ & Hl & Hb & _).
  exists s'. split; [exact Hr|]. split; [exact Hl|exact Hb].
Defined.

(** X2. [push_front] (both overloads) and [emplace_front] make a new node the
    head: the element is prepended, it is what [front()] returns, the size
    grows by 1, the tail changes only if the list was empty, and no node of
    the list is written.  When the node cannot be allocated the call throws
    [std::bad_alloc] and the list is as before. *)
Theorem push_front_prepends {T} (s : state T) (ns : list (Z * T)) (v : T) :
  Inv s ns →
  match alloc (mem s) with
  | None => push_front v s = Throw bad_alloc s
  | Some a =>
      ∃ s', push_front v s = Ok tt s' ∧
            Inv s' ((a, v) :: ns) ∧
            to_list s' = Some (v :: ns.*2) ∧
            front s' = Ok v s' ∧
            list_size (self s') = list_size (self s) + 1 ∧
            head_ (self s') = a ∧
            tail_ (self s') = (if decide (tail_ (self s) = nullptr) then a
                               else tail_ (self s)) ∧
            mem s !! a = None ∧
            mem s' = <[a := mkNode v (head_ (self s))]> (mem s)
  end ∧
  ∀ Args (ctor : Args → T) args,
    emplace_front ctor args s = push_front (ctor args) s.
Proof.
  intros HI. split; [|done]. rewrite (Inv_state _ _ HI).
  apply Inv_obj in HI as (Hok & _ & Hc). cbn [self mem] in *.
  rewrite push_front_run by done.
  destruct (alloc (mem s)) as [a|] eqn:Ha; [|done].
  apply alloc_fresh in Ha as [Hfree Hrange].
  pose proof (push_front_evolves _ _ _ v Hok Hc Hfree Hrange) as (Hok' & Hc' & _).
  pose proof (Inv_intro _ _ Hok' Hc') as HI'.
  eexists. split; [done|]. split; [done|].
  split; [by rewrite (to_list_Inv _ _ HI')|].
  split; [by rewrite (front_run _ _ HI')|].
  cbn [self mem obj_of head_ tail_ list_size].
  split; [simpl length; lia|]. split; [done|]. split; [|done].
  case_decide as Ht.
  - apply (tail_of_null _ _ _ Hc) in Ht as ->. done.
  - apply tail_of_cons. intros ->. by apply Ht.
Qed.

(** Prepending 5 to [10, 20, 30]. *)
Lemma push_front_prepends_witness :
  Inv example_state example_nodes ∧
  ∃ s', push_front 5 example_state = Ok tt s' ∧
        to_list s' = Some [5; 10; 20; 30] ∧ front s' = Ok 5 s'.
Proof.
  assert (Inv example_state example_nodes) as HI.
  { apply Inv_computed; vm_compute; reflexivity. }
  split; [exact HI|].
  pose proof (proj1 (push_front_prepends example_state example_nodes 5 HI)) as Hrun.
  change (alloc (mem example_state)) with (Some 4) in Hrun.
  destruct Hrun as (s' & Hr & _ & Hl & Hf & _).
  exists s'. split; [exact Hr|]. split; [exact Hl|exact Hf].
Defined.

(** X3. On a non-empty list [pop_front] releases the head node and nothing
    else: the successor of the old head is the new head, the tail becomes
    null when the list becomes empty and is kept otherwise, the size drops
    by 1, the remaining elements keep their nodes, and an iterator to the
    removed node dangles. *)
Theorem pop_front_removes_first {T} (s : state T) (a : Z) (x : T)
    (ns : list (Z * T)) :
  Inv s ((a, x) :: ns) →
  ∃ s', pop_front s = Ok tt s' ∧
        Inv s' ns ∧
        to_list s' = Some ns.*2 ∧
        list_size (self s') = list_size (self s) - 1 ∧
        incr a s = Ok (head_ (self s')) s ∧
        tail_ (self s') = (if decide (ns = []) then nullptr else tail_ (self s)) ∧
        mem s' = delete a (mem s) ∧
        deref a s' = Undefined.
Proof.
  intros HI. rewrite (Inv_state _ _ HI).
  apply Inv_obj in HI as (Hok & _ & Hc). cbn [self mem] in *.
  rewrite pop_front_run by done.
  change (chain (mem s) a ((a, x) :: ns)) in Hc.
  pose proof (pop_front_evolves _ _ _ _ Hok Hc) as (Hok' & Hc' & _).
  pose proof (Inv_intro _ _ Hok' Hc') as HI'.
  eexists. split; [done|]. split; [done|].
  split; [by rewrite (to_list_Inv _ _ HI')|].
  cbn [self mem obj_of head_ tail_ list_size].
  split; [simpl length; lia|]. split; [|split; [|split]].
  - destruct Hc as (_ & _ & r & Hl & Hs). unfold incr, bind, load, ret.
    cbn [mem]. rewrite Hl. simpl. by rewrite (chain_head _ _ _ Hs).
  - case_decide as Hn; [by subst|]. symmetry. by apply tail_of_cons.
  - done.
  - apply deref_dangling. cbn [mem]. by rewrite lookup_delete_eq.
Qed.

(** Removing the first element of [10, 20, 30]. *)
Lemma pop_front_removes_first_witness :
  Inv example_state ((1, 10) :: [(2, 20); (3, 30)]) ∧
  ∃ s', pop_front example_state = Ok tt s' ∧ to_list s' = Some [20; 30].
Proof.
  assert (Inv example_state ((1, 10) :: [(2, 20); (3, 30)])) as HI.
  { apply Inv_computed; vm_compute; reflexivity. }
  split; [exact HI|].
  destruct (pop_front_removes_first example_state 1 10 [(2, 20); (3, 30)] HI)
    as (s' & Hr & _ & Hl & _).
  exists s'. split; [exact Hr|exact Hl].
Defined.

(** X4. On a non-empty list [pop_back] finds the node before the tail and
    releases the tail node and nothing else: the size drops by 1, the head
    is kept unless the list becomes empty, the remaining elements keep
    their nodes, and nodes outside the list are as before.  On a list of
    one element it is [pop_front]. *)
Theorem pop_back_removes_last {T} (s : state T) (ns : list (Z * T))
    (t : Z) (x : T) :
  Inv s (ns ++ [(t, x)]) →
  ∃ s', pop_back s = Ok tt s' ∧
        Inv s' ns ∧
        to_list s' = Some ns.*2 ∧
        list_size (self s') = list_size (self s) - 1 ∧
        head_ (self s') = (if decide (ns = []) then nullptr else head_ (self s)) ∧
        mem s' !! t = None ∧
        (∀ b y, (b, y) ∈ ns → deref b s' = Ok y s') ∧
        (∀ b, b ∉ (ns ++ [(t, x)]).*1 → mem s' !! b = mem s !! b) ∧
        (ns = [] → pop_back s = pop_front s).
Proof.
  intros HI. rewrite (Inv_state _ _ HI).
  apply Inv_obj in HI as (Hok & _ & Hc). cbn [self mem] in *.
  rewrite pop_back_run by done.
  pose proof (pop_back_footprint _ _ _ _ Hok Hc) as ((Hok' & Hc' & _) & Hu & Hst).
  pose proof (Inv_intro _ _ Hok' Hc') as HI'.
  eexists. split; [done|]. split; [done|].
  split; [by rewrite (to_list_Inv _ _ HI')|].
  cbn [self mem obj_of head_ tail_ list_size].
  split; [rewrite length_app; simpl length; lia|]. split; [|split; [|split; [|split]]].
  - case_decide as Hn; [by subst|]. symmetry. by apply head_of_app.
  - destruct (Hst t x) as [Hin|[_ ?]]; [apply elem_of_app; right; left| |done].
    exfalso. apply chain_NoDup in Hc. rewrite fmap_app in Hc.
    apply NoDup_app in Hc as (_ & Hd & _).
    apply (Hd t); [by eapply elem_of_addrs|left].
  - intros b y Hin. by apply (deref_elem _ _ _ _ HI').
  - intros b Hb. apply Hu; [done|]. intros Hin. apply Hb.
    rewrite fmap_app. apply elem_of_app. by left.
  - intros ->. simpl. by rewrite (pop_front_run _ [(t, x)]).
Qed.

(** Removing the last element of [10, 20, 30]. *)
Lemma pop_back_removes_last_witness :
  Inv example_state ([(1, 10); (2, 20)] ++ [(3, 30)]) ∧
  ∃ s', pop_back example_state = Ok tt s' ∧ to_list s' = Some [10; 20].
Proof.
  assert (Inv example_state ([(1, 10); (2, 20)] ++ [(3, 30)])) as HI.
  { apply Inv_computed; vm_compute; reflexivity. }
  split; [exact HI|].
  destruct (pop_back_removes_last example_state [(1, 10); (2, 20)] 3 30 HI)
    as (s' & Hr & _ & Hl & _).
  exists s'. split; [exact Hr|exact Hl].
Defined.

(** X5. [push_back(x)] followed by [pop_back()] gives back the state before
    (the object and the free store), for every list that can take one more
    node; on a full free store [push_back] throws and nothing has changed. *)
Theorem push_pop_back_inverse {T} (s : state T) (ns : list (Z * T)) (x : T) :
  Inv s ns →
  (push_back x >> pop_back) s =
    match alloc (mem s) with
    | Some _ => Ok tt s
    | None => Throw bad_alloc s
    end.
Proof.
  intros HI. rewrite (Inv_state _ _ HI).
  apply Inv_obj in HI as (Hok & _ & Hc). cbn [self mem] in *.
  unfold bind. rewrite push_back_run by done.
  destruct (alloc (mem s)) as [a|] eqn:Ha; [|done].
  apply alloc_fresh in Ha as [Hfree Hrange].
  pose proof (push_back_evolves _ _ _ x Hok Hc Hfree Hrange) as (Hok' & Hc' & _).
  rewrite pop_back_run by done. by rewrite push_pop_back_heap.
Qed.

(** Appending 5 to [10, 20, 30] and removing it again. *)
Lemma push_pop_back_inverse_witness :
  Inv example_state example_nodes ∧
  (push_back 5 >> pop_back) example_state = Ok tt example_state.
Proof.
  assert (Inv example_state example_nodes) as HI.
  { apply Inv_computed; vm_compute; reflexivity. }
  split; [exact HI|].
  exact (push_pop_back_inverse example_state example_nodes 5 HI).
Defined.

(** X6. [insert_after(pos, v)] followed by [erase_after(pos)] gives back the
    state before (the object and the free store), and the iterator that
    [erase_after] returns is the successor that [pos] had. *)
Theorem insert_erase_after_inverse {T} (s : state T) (ns : list (Z * T))
    (pos : Z) (v : T) :
  Inv s ns →
  position_of (mem s) (self s) pos →
  ∃ nx, incr pos s = Ok nx s ∧
        (insert_after pos v >> erase_after pos) s =
          match alloc (mem s) with
          | Some _ => Ok nx s
          | None => Throw bad_alloc s
          end.
Proof.
  intros HI Hpos. rewrite (Inv_state _ _ HI) in Hpos |- *.
  apply Inv_obj in HI as (Hok & _ & Hc). cbn [self mem] in *.
  destruct (position_split _ _ _ Hc Hpos) as (ns1 & x & ns2 & ->).
  pose proof Hc as (_ & _ & Hl & _)%chain_mid.
  exists (head_of ns2). split.
  { unfold incr, bind, load, ret. cbn [mem]. by rewrite Hl. }
  unfold bind. rewrite insert_after_run by done.
  destruct (alloc (mem s)) as [a|] eqn:Ha; [|done].
  apply alloc_fresh in Ha as [Hfree Hrange].
  pose proof (insert_after_evolves _ _ _ _ _ _ v Hok Hc Hfree Hrange) as (Hok' & Hc' & _).
  rewrite erase_after_run by done. by rewrite insert_erase_heap.
Qed.

(** Inserting 15 after the first node of [10, 20, 30] and erasing it. *)
Lemma insert_erase_after_inverse_witness :
  Inv example_state example_nodes ∧
  position_of (mem example_state) (self example_state) 1 ∧
  (insert_after 1 15 >> erase_after 1) example_state = Ok 2 example_state.
Proof.
  assert (Inv example_state example_nodes) as HI.
  { apply Inv_computed; vm_compute; reflexivity. }
  assert (position_of (mem example_state) (self example_state) 1) as Hpos.
  { exists example_nodes. split; [vm_compute; reflexivity|]. left. }
  split; [exact HI|]. split; [exact Hpos|].
  destruct (insert_erase_after_inverse example_state example_nodes 1 15 HI Hpos)
    as (nx & Hnx & Hrun).
  assert (nx = 2) as ->.
  { assert (incr 1 example_state = Ok 2 example_state) as H2
      by (vm_compute; reflexivity).
    rewrite H2 in Hnx. injection Hnx as <-. reflexivity. }
  exact Hrun.
Defined.

(** ** Capacity, access and iteration *)

(** X7. [size()] is the number of elements an iteration from [begin()] to
    [end()] visits, and [empty()] is true exactly when there is none, which
    is when [begin() == end()]; [cbegin()] and [cend()] are the same
    positions.  None of them changes the list. *)
Theorem size_empty_agree {T} (s : state T) (ns : list (Z * T)) :
  Inv s ns →
  ∃ xs b e,
    to_list s = Some xs ∧
    size_ s = Ok (Z.of_nat (length xs)) s ∧
    empty_ s = Ok (bool_decide (xs = [])) s ∧
    begin_ s = Ok b s ∧ end_ s = Ok e s ∧
    cbegin_ s = Ok b s ∧ cend_ s = Ok e s ∧
    iter_eq b e = bool_decide (xs = []) ∧
    iter_ne b e = negb (bool_decide (xs = [])).
Proof.
  intros HI. exists ns.*2, (head_of ns), nullptr.
  split; [by apply to_list_Inv|]. rewrite (Inv_state _ _ HI).
  apply Inv_obj in HI as (Hok & _ & Hc). cbn [self mem] in *.
  rewrite length_fmap.
  assert (bool_decide (ns.*2 = []) = bool_decide (ns = [])) as ->.
  { apply bool_decide_ext. split; [apply fmap_nil_inv|by intros ->]. }
  split; [done|]. split.
  { rewrite empty_run. cbn [self obj_of list_size]. f_equal.
    destruct ns; [done|]. rewrite bool_decide_false by done.
    apply Z.eqb_neq. simpl. lia. }
  split; [done|]. split; [done|]. split; [done|]. split; [done|].
  unfold iter_eq, iter_ne. split.
  - apply bool_decide_ext. apply (head_of_null _ _ Hc).
  - rewrite <- bool_decide_not. apply bool_decide_ext.
    by rewrite (head_of_null _ _ Hc).
Qed.

(** The list [10, 20, 30] has size 3. *)
Lemma size_empty_agree_witness :
  Inv example_state example_nodes ∧
  size_ example_state = Ok 3 example_state ∧
  empty_ example_state = Ok false example_state.
Proof.
  assert (Inv example_state example_nodes) as HI.
  { apply Inv_computed; vm_compute; reflexivity. }
  split; [exact HI|].
  destruct (size_empty_agree example_state example_nodes HI)
    as (xs & b & e & Hl & Hs & He & _).
  assert (xs = [10; 20; 30]) as ->.
  { assert (to_list example_state = Some [10; 20; 30]) as H0
      by (vm_compute; reflexivity).
    rewrite H0 in Hl. injection Hl as <-. reflexivity. }
  split; [exact Hs|exact He].
Defined.

(** X8. [front()] returns the first element of the iteration and [back()] the
    last one, leaving the list as it is; on the empty list both throw
    [std::out_of_range]. *)
Theorem front_back_values {T} (s : state T) (ns : list (Z * T)) :
  Inv s ns →
  front s = match head ns.*2 with
            | Some x => Ok x s
            | None => Throw (out_of_range "Accessing front() on an empty list") s
            end ∧
  back s = match last ns.*2 with
           | Some x => Ok x s
           | None => Throw (out_of_range "Accessing back() on an empty list") s
           end.
Proof.
  intros HI. rewrite (front_run _ _ HI), (back_run _ _ HI). split.
  - by destruct ns as [|[a x] ns].
  - rewrite fmap_last. by destruct (last ns) as [[a x]|].
Qed.

(** The ends of [10, 20, 30]. *)
Lemma front_back_values_witness :
  Inv example_state example_nodes ∧
  front example_state = Ok 10 example_state ∧
  back example_state = Ok 30 example_state.
Proof.
  assert (Inv example_state example_nodes) as HI.
  { apply Inv_computed; vm_compute; reflexivity. }
  split; [exact HI|].
  exact (front_back_values example_state example_nodes HI).
Defined.

(** X9. Iterators: [begin()] is the first node; at a node of the list [*it] is
    its element and [++it] moves to the next node, to [end()] from the last
    one; [it++] returns the position it leaves.  Neither [*] nor [++]
    checks anything: at [end()] both dereference a null pointer. *)
Theorem iterator_walk {T} (s : state T) (ns : list (Z * T)) :
  Inv s ns →
  begin_ s = Ok (head_of ns) s ∧
  deref nullptr s = Undefined ∧
  incr nullptr s = Undefined ∧
  post_incr nullptr s = Undefined ∧
  ∀ ns1 pos x ns2, ns = ns1 ++ (pos, x) :: ns2 →
    deref pos s = Ok x s ∧
    incr pos s = Ok (head_of ns2) s ∧
    post_incr pos s = Ok (pos, head_of ns2) s ∧
    iter_eq (head_of ns2) nullptr = bool_decide (ns2 = []).
Proof.
  intros HI. pose proof HI as (Hok & _ & Hc)%Inv_obj.
  pose proof (heap_ok_null _ Hok) as Hnull.
  split; [by rewrite (Inv_state _ _ HI) at 1 2|].
  split; [by apply deref_dangling|].
  split; [by apply incr_dangling|].
  split; [unfold post_incr, bind; by rewrite incr_dangling|].
  intros ns1 pos x ns2 ->.
  apply chain_mid in Hc as (_ & _ & Hl & Hc2).
  assert (incr pos s = Ok (head_of ns2) s) as Hincr.
  { unfold incr, bind, load, ret. by rewrite Hl. }
  split; [unfold deref, bind, load, ret; by rewrite Hl|].
  split; [done|]. split; [unfold post_incr, bind; by rewrite Hincr|].
  unfold iter_eq. apply bool_decide_ext. apply (head_of_null _ _ Hc2).
Qed.

(** The second node of [10, 20, 30]. *)
Lemma iterator_walk_witness :
  Inv example_state example_nodes ∧
  deref 2 example_state = Ok 20 example_state ∧
  incr 2 example_state = Ok 3 example_state.
Proof.
  assert (Inv example_state example_nodes) as HI.
  { apply Inv_computed; vm_compute; reflexivity. }
  split; [exact HI|].
  destruct (iterator_walk example_state example_nodes HI)
    as (_ & _ & _ & _ & Hwalk).
  destruct (Hwalk [(1, 10)] 2 20 [(3, 30)] eq_refl) as (Hd & Hi & _).
  split; [exact Hd|exact Hi].
Defined.

(** X10. Assigning through the reference that [*it], [front()] or [back()]
    returns replaces that one element: the node, the links, the object and
    every other node are as before.  [front()] refers to the head node and
    [back()] to the tail node. *)
Theorem element_write {T} (s : state T) (ns1 : list (Z * T)) (pos : Z) (x : T)
    (ns2 : list (Z * T)) (v : T) :
  Inv s (ns1 ++ (pos, x) :: ns2) →
  (∃ s', store_data pos v s = Ok tt s' ∧
         Inv s' (ns1 ++ (pos, v) :: ns2) ∧
         self s' = self s ∧
         to_list s' = Some (ns1.*2 ++ v :: ns2.*2) ∧
         deref pos s' = Ok v s' ∧
         (∀ b, b ≠ pos → mem s' !! b = mem s !! b)) ∧
  (ns1 = [] → front_ref s = Ok pos s) ∧
  (ns2 = [] → back_ref s = Ok pos s) ∧
  front s = (let* r := front_ref in deref r) s ∧
  back s = (let* r := back_ref in deref r) s.
Proof.
  intros HI. rewrite (Inv_state _ _ HI).
  apply Inv_obj in HI as (Hok & _ & Hc). cbn [self mem] in *.
  pose proof (store_data_chain _ _ _ _ _ v Hc) as Hc'.
  pose proof Hc as (_ & Hp & Hl & _)%chain_mid.
  assert (heap_ok (<[pos := mkNode v (head_of ns2)]> (mem s))) as Hok'.
  { apply heap_ok_insert; [done|]. apply Hok. eauto. }
  assert (obj_of (ns1 ++ (pos, v) :: ns2) = obj_of (ns1 ++ (pos, x) :: ns2)) as Hobj.
  { unfold obj_of, head_of, tail_of. rewrite !fmap_app, !fmap_cons, !length_app.
    done. }
  pose proof (Inv_intro _ _ Hok' Hc') as HI'. rewrite Hobj in HI'.
  split; [|split; [|split; [|split]]].
  - eexists. split.
    { unfold store_data. cbn [mem self]. rewrite Hl. cbn [data next]. done. }
    split; [done|]. split; [done|].
    split; [by rewrite (to_list_Inv _ _ HI'), fmap_app|].
    split; [apply (deref_elem _ _ _ _ HI'); apply elem_of_app; right; left|].
    intros b Hb. cbn [mem]. by rewrite lookup_insert_ne.
  - intros ->. unfold front_ref, bind, get_head. simpl. by rewrite decide_False.
  - intros ->. unfold back_ref, bind, get_tail. cbn [self obj_of tail_].
    rewrite tail_of_snoc. by rewrite decide_False.
  - unfold front, front_ref, deref, bind, get_head. cbn [self].
    by case_decide.
  - unfold back, back_ref, deref, bind, get_tail. cbn [self].
    by case_decide.
Qed.

(** Writing 25 to the second element of [10, 20, 30]. *)
Lemma element_write_witness :
  Inv example_state ([(1, 10)] ++ (2, 20) :: [(3, 30)]) ∧
  ∃ s', store_data 2 25 example_state = Ok tt s' ∧
        to_list s' = Some [10; 25; 30].
Proof.
  assert (Inv example_state ([(1, 10)] ++ (2, 20) :: [(3, 30)])) as HI.
  { apply Inv_computed; vm_compute; reflexivity. }
  split; [exact HI|].
  destruct (proj1 (element_write example_state [(1, 10)] 2 20 [(3, 30)] 25 HI))
    as (s' & Hr & _ & _ & Hl & _).
  exists s'. split; [exact Hr|exact Hl].
Defined.

(** X11. [clear()] leaves a valid empty list: size 0, [empty()], no element to
    visit, and calling it again changes nothing.  Every iterator into the
    list dangles afterwards, and no node of another owner is touched. *)
Theorem clear_empties {T} (s : state T) (ns : list (Z * T)) :
  Inv s ns →
  ∃ s', clear s = Ok tt s' ∧
        Inv s' [] ∧
        self s' = raw_object ∧
        size_ s' = Ok 0 s' ∧
        empty_ s' = Ok true s' ∧
        to_list s' = Some [] ∧
        clear s' = Ok tt s' ∧
        (∀ b, b ∈ ns.*1 → deref b s' = Undefined) ∧
        (∀ b, b ∉ ns.*1 → mem s' !! b = mem s !! b).
Proof.
  intros HI. rewrite (Inv_state _ _ HI).
  apply Inv_obj in HI as (Hok & _ & Hc). cbn [self mem] in *.
  rewrite clear_run by done.
  pose proof (free_all_evolves _ _ Hok Hc) as (Hok' & Hc' & _).
  pose proof (Inv_intro _ _ Hok' Hc') as HI'.
  eexists. split; [done|]. split; [done|]. split; [done|]. split; [done|].
  split; [done|]. split; [exact (to_list_Inv _ _ HI')|].
  split; [exact (clear_run _ [] Hc')|]. split.
  - intros b Hb. apply deref_dangling. cbn [mem].
    by rewrite lookup_free_all, decide_True.
  - intros b Hb. cbn [mem]. by rewrite lookup_free_all, decide_False.
Qed.

(** Clearing [10, 20, 30]. *)
Lemma clear_empties_witness :
  Inv example_state example_nodes ∧
  ∃ s', clear example_state = Ok tt s' ∧ to_list s' = Some [].
Proof.
  assert (Inv example_state example_nodes) as HI.
  { apply Inv_computed; vm_compute; reflexivity. }
  split; [exact HI|].
  destruct (clear_empties example_state example_nodes HI)
    as (s' & Hr & _ & _ & _ & _ & Hl & _).
  exists s'. split; [exact Hr|exact Hl].
Defined.

(** X12. [emplace_after(pos, args...)] is [insert_after] of the element built
    from the arguments at every position of the list, so it links the new
    element right after [pos]; at [end()] it throws [std::invalid_argument]
    with its own message and inserts nothing. *)
Theorem emplace_after_links {T Args} (s : state T) (ns : list (Z * T))
    (pos : Z) (ctor : Args → T) (args : Args) :
  Inv s ns →
  emplace_after nullptr ctor args s =
    Throw (invalid_argument "Cannot emplace_after a null iterator") s ∧
  (position_of (mem s) (self s) pos →
   emplace_after pos ctor args s = insert_after pos (ctor args) s ∧
   ∃ ns1 x ns2,
     ns = ns1 ++ (pos, x) :: ns2 ∧
     match alloc (mem s) with
     | None => emplace_after pos ctor args s = Throw bad_alloc s
     | Some a =>
         ∃ s', emplace_after pos ctor args s = Ok a s' ∧
               Inv s' (ns1 ++ (pos, x) :: (a, ctor args) :: ns2) ∧
               to_list s' = Some (ns1.*2 ++ x :: ctor args :: ns2.*2) ∧
               list_size (self s') = list_size (self s) + 1
     end).
Proof.
  intros HI. split; [done|]. intros Hpos.
  rewrite (Inv_state _ _ HI) in Hpos |- *.
  apply Inv_obj in HI as (Hok & _ & Hc). cbn [self mem] in *.
  destruct (position_split _ _ _ Hc Hpos) as (ns1 & x & ns2 & ->).
  pose proof Hc as (_ & Hp & _)%chain_mid.
  rewrite emplace_after_insert by done. split; [done|].
  exists ns1, x, ns2. split; [done|].
  rewrite insert_after_run by done.
  destruct (alloc (mem s)) as [a|] eqn:Ha; [|done].
  apply alloc_fresh in Ha as [Hfree Hrange].
  pose proof (insert_after_evolves _ _ _ _ _ _ (ctor args) Hok Hc Hfree Hrange)
    as (Hok' & Hc' & _).
  pose proof (Inv_intro _ _ Hok' Hc') as HI'.
  eexists. split; [done|]. split; [done|].
  split; [by rewrite (to_list_Inv _ _ HI'), fmap_app|].
  cbn [self obj_of list_size]. rewrite !length_app. simpl. lia.
Qed.

(** Emplacing 15 after the first node of [10, 20, 30]. *)
Lemma emplace_after_links_witness :
  Inv example_state example_nodes ∧
  position_of (mem example_state) (self example_state) 1 ∧
  emplace_after 1 id 15 example_state = insert_after 1 15 example_state.
Proof.
  assert (Inv example_state example_nodes) as HI.
  { apply Inv_computed; vm_compute; reflexivity. }
  assert (position_of (mem example_state) (self example_state) 1) as Hpos.
  { exists example_nodes. split; [vm_compute; reflexivity|]. left. }
  split; [exact HI|]. split; [exact Hpos|].
  exact (proj1 (proj2 (emplace_after_links example_state example_nodes 1 id 15 HI)
                      Hpos)).
Defined.

(** ** Iterator validity and independence of lists *)

Section Validity.
Context {T : Type}.
Implicit Types (h : heap T) (ns ms : list (Z * T)) (p q a : Z) (s : state T)
  (l : SinglyLinkedList).

(** [insert_after] on any object, for a position that is a live node of
    the free store: the member function does not look at where the node
    belongs. *)
Lemma insert_after_raw l h pos x r v a :
  pos ≠ nullptr → h !! pos = Some (mkNode x r) → alloc h = Some a →
  insert_after pos v (mkState l h) =
    Ok a (mkState (mkList (head_ l)
                          (if decide (tail_ l = pos) then a else tail_ l)
                          ((list_size l + 1) mod word_modulus))
                  (<[pos := mkNode x a]> (<[a := mkNode v r]> h))).
Proof.
  intros Hp Hl Ha. unfold insert_after. rewrite decide_False by done.
  munfold. simpl. rewrite Ha. simpl.
  apply alloc_fresh in Ha as [Hfree Hrange].
  assert (a ≠ nullptr) as Hnn by (unfold nullptr; lia).
  assert (pos ≠ a) as Hpa by congruence.
  assert (<[pos:=mkNode x a]>
      (<[a:=mkNode v r]>
         (<[pos:=mkNode x nullptr]> (<[a:=mkNode v nullptr]> h))) =
      <[pos := mkNode x a]> (<[a := mkNode v r]> h)) as Hheap.
  { heap_eq. }
  destruct l as [hd tl sz]. cbn [head_ tail_ list_size].
  destruct (decide (tl = pos)) as [Ht|Ht]; simpl.
  - repeat mstep. by rewrite Hheap.
  - repeat mstep. by rewrite Hheap.
Qed.

End Validity.

(** X13. A member function never changes the element at a position that stays
    in the list: after any call, each node the list had is still in it, at
    the same address and with the same element, or has been released, so
    that an iterator to it dangles.  Only [clear], [pop_front], [pop_back]
    and [erase_after] release nodes; after every other call all iterators
    into the list are still valid. *)
Theorem iterators_stay_valid {T} (m : @method T) (s s' : state T)
    (ns : list (Z * T)) :
  Inv s ns →
  valid_call (mem s) (self s) m →
  leaves (call m s) s' →
  ∃ ns', Inv s' ns' ∧
         (∀ pos x, (pos, x) ∈ ns →
            ((pos, x) ∈ ns' ∧ deref pos s' = Ok x s') ∨
            ((pos ∉ ns'.*1) ∧ deref pos s' = Undefined)) ∧
         (¬ removing m → ∀ pos x, (pos, x) ∈ ns → (pos, x) ∈ ns').
Proof.
  intros HI Hvalid Hl. rewrite (Inv_state _ _ HI) in Hvalid, Hl.
  apply Inv_obj in HI as (Hok & _ & Hc). cbn [self mem] in *.
  destruct (call_footprint m _ ns Hok Hc Hvalid)
    as (h' & ns' & Hl' & (He & _ & Hst) & Hkeep).
  rewrite (leaves_functional _ _ _ Hl Hl').
  pose proof He as (Hok' & Hc' & _).
  pose proof (Inv_intro _ _ Hok' Hc') as HI'.
  exists ns'. split; [done|]. split.
  - intros pos x Hin. destruct (Hst pos x Hin) as [Hin'|[Hn Hnone]].
    + left. split; [done|]. by apply (deref_elem _ _ _ _ HI').
    + right. split; [done|]. by apply deref_dangling.
  - intros Hm pos x Hin. by apply Hkeep.
Qed.

(** After [pop_front] on [10, 20, 30] the second node still holds 20. *)
Lemma iterators_stay_valid_witness :
  Inv example_state example_nodes ∧
  ∃ s', leaves (call (@call_pop_front Z) example_state) s' ∧
        deref 2 s' = Ok 20 s' ∧ deref 1 s' = Undefined.
Proof.
  assert (Inv example_state example_nodes) as HI.
  { apply Inv_computed; vm_compute; reflexivity. }
  split; [exact HI|].
  assert (∃ s', call (@call_pop_front Z) example_state = Ok tt s') as [s' Hr].
  { eexists. vm_compute. reflexivity. }
  assert (leaves (call (@call_pop_front Z) example_state) s') as Hl.
  { left. exists tt. exact Hr. }
  exists s'. split; [exact Hl|].
  destruct (iterators_stay_valid call_pop_front example_state s' example_nodes
              HI I Hl) as (ns' & _ & Hst & _).
  assert (mem s' !! 1 = None) as H1.
  { vm_compute in Hr. injection Hr as <-. vm_compute. reflexivity. }
  assert (∃ n, mem s' !! 2 = Some n) as [n H2].
  { vm_compute in Hr. injection Hr as <-. eexists. vm_compute. reflexivity. }
  split.
  - destruct (Hst 2 20) as [[_ Hd]|[_ Hd]].
    + right. left.
    + exact Hd.
    + exfalso. unfold deref, bind, load in Hd. rewrite H2 in Hd. discriminate Hd.
  - unfold deref, bind, load. rewrite H1. reflexivity.
Defined.

(** X14. A call on one list does not affect another list: the other list still
    has the same nodes with the same content, in the same order, and no
    node has moved from one list to the other. *)
Theorem other_lists_unaffected {T} (m : @method T) (h : heap T)
    (this other : SinglyLinkedList) (ns ms : list (Z * T)) (s' : state T) :
  heap_ok h →
  repr h this ns → repr h other ms →
  (∀ b, b ∈ ms.*1 → b ∉ ns.*1) →
  valid_call h this m →
  leaves (call m (mkState this h)) s' →
  repr (mem s') other ms ∧
  to_list (mkState other (mem s')) = Some ms.*2 ∧
  (∀ b, b ∈ ms.*1 → mem s' !! b = h !! b) ∧
  ∃ ns', repr (mem s') (self s') ns' ∧ (∀ b, b ∈ ms.*1 → b ∉ ns'.*1).
Proof.
  intros Hok [-> Hc]%repr_obj Hm Hdisj Hvalid Hl.
  pose proof Hm as [Ho Hcm]%repr_obj.
  destruct (call_footprint m _ ns Hok Hc Hvalid)
    as (h' & ns' & Hl' & (He & _ & _) & _).
  rewrite (leaves_functional _ _ _ Hl Hl'). cbn [self mem].
  destruct (evolves_other _ _ _ _ _ _ He Hcm Hdisj) as [Hcm' Hdisj'].
  pose proof He as (Hok' & Hc' & Hf & _).
  assert (repr h' other ms) as Hm'.
  { apply repr_obj. split; [done|]. done. }
  split; [done|]. split.
  { apply (to_list_Inv (mkState other h')). by split. }
  split.
  - intros b Hb. apply Hf; [by apply Hdisj|].
    by eapply chain_lookup_live.
  - exists ns'. split; [|done]. by apply repr_obj.
Qed.

(** Reversing [1, 2, 3] leaves [1, 2, 4] alone. *)
Lemma other_lists_unaffected_witness :
  heap_ok compare_heap ∧
  repr compare_heap list_123 nodes_123 ∧
  repr compare_heap list_124 nodes_124 ∧
  ∃ s', leaves (call (@call_reverse Z) (mkState list_123 compare_heap)) s' ∧
        to_list (mkState list_124 (mem s')) = Some [1; 2; 4].
Proof.
  assert (heap_ok compare_heap) as Hok.
  { apply heap_okb_ok. vm_compute. reflexivity. }
  assert (repr compare_heap list_123 nodes_123) as Ha.
  { apply repr_computed; vm_compute; reflexivity. }
  assert (repr compare_heap list_124 nodes_124) as Hb.
  { apply repr_computed; vm_compute; reflexivity. }
  assert (∀ b, b ∈ nodes_124.*1 → b ∉ nodes_123.*1) as Hd.
  { intros b Hin Hin'. unfold nodes_123, nodes_124 in *. simpl in *.
    repeat (apply elem_of_cons in Hin as [->|Hin]);
      repeat (apply elem_of_cons in Hin' as [Hin'|Hin']);
      try discriminate Hin'; try (by apply elem_of_nil in Hin');
      by apply elem_of_nil in Hin. }
  split; [exact Hok|]. split; [exact Ha|]. split; [exact Hb|].
  assert (∃ s', call (@call_reverse Z) (mkState list_123 compare_heap) = Ok tt s')
    as [s' Hr].
  { eexists. vm_compute. reflexivity. }
  assert (leaves (call (@call_reverse Z) (mkState list_123 compare_heap)) s') as Hl.
  { left. exists tt. exact Hr. }
  exists s'. split; [exact Hl|].
  exact (proj1 (proj2 (other_lists_unaffected call_reverse compare_heap
                         list_123 list_124 nodes_123 nodes_124 s'
                         Hok Ha Hb Hd I Hl))).
Defined.

(** X15. [insert_after] does not check that the position belongs to the list it
    is called on.  Given a node of another list, it links the new node into
    that other list and counts it in this one: this list visits the
    elements it had but reports one more, the other list visits one more
    element than it reports, and neither satisfies the invariant after the
    call. *)
Theorem insert_after_foreign_position {T} (h : heap T)
    (this other : SinglyLinkedList) (ns ms1 : list (Z * T)) (pos : Z) (x : T)
    (ms2 : list (Z * T)) (v : T) (a : Z) :
  heap_ok h →
  repr h this ns → repr h other (ms1 ++ (pos, x) :: ms2) →
  (∀ b, b ∈ (ms1 ++ (pos, x) :: ms2).*1 → b ∉ ns.*1) →
  alloc h = Some a →
  ∃ s', insert_after pos v (mkState this h) = Ok a s' ∧
        list_size (self s') = list_size this + 1 ∧
        visit (mem s') (self s') = Some ns ∧
        visit (mem s') other = Some (ms1 ++ (pos, x) :: (a, v) :: ms2) ∧
        ¬ rep_invariant (mem s') (self s') ∧
        ¬ rep_invariant (mem s') other.
Proof.
  intros Hok [-> Hc]%repr_obj [-> Hcm]%repr_obj Hdisj Ha.
  pose proof Hcm as (_ & Hp & Hl & _)%chain_mid.
  rewrite (insert_after_raw _ _ _ _ _ _ _ Hp Hl Ha).
  pose proof Ha as [Hfree Hrange]%alloc_fresh.
  assert (a ≠ nullptr) as Hnn by (unfold nullptr; lia).
  assert (pos ∉ ns.*1) as Hpn.
  { apply Hdisj. rewrite fmap_app, fmap_cons. apply elem_of_app. right. left. }
  assert (tail_of ns ≠ pos) as Htp.
  { intros Heq. destruct (decide (ns = [])) as [->|Hne].
    - by rewrite tail_of_nil in Heq.
    - apply Hpn. rewrite <- Heq. by apply tail_of_elem. }
  assert (Z.of_nat (length ns) + 1 < word_modulus) as Hsz.
  { pose proof (NoDup_bounded_length (pos :: ns.*1) word_modulus) as Hb.
    cbn [length] in Hb. rewrite length_fmap in Hb.
    assert (Z.max word_modulus 1 = word_modulus) as Hmax by (by vm_compute).
    rewrite Hmax in Hb.
    assert (Z.of_nat (S (length ns)) < word_modulus); [|lia].
    apply Hb.
    - apply NoDup_cons. split; [done|]. by eapply chain_NoDup.
    - intros b [->|Hin]%elem_of_cons; apply Hok; [eauto|].
      exact (chain_lookup_live _ _ _ _ Hc Hin). }
  cbn [obj_of head_ tail_ list_size]. rewrite decide_False by done.
  rewrite Z.mod_small by lia.
  set (h' := <[pos:=mkNode x a]> (<[a:=mkNode v (head_of ms2)]> h)).
  assert (chain h' (head_of ns) ns) as Hc'.
  { apply (seg_frame h); [|done]. intros b Hb. unfold h'.
    rewrite !lookup_insert_ne; [done| |].
    - intros <-. destruct (chain_lookup_live _ _ _ _ Hc Hb). congruence.
    - intros <-. done. }
  pose proof (insert_after_chain _ _ _ _ _ _ v Hcm Hfree Hnn) as Hcm'.
  fold h' in Hcm'.
  assert (head_of (ms1 ++ (pos, x) :: (a, v) :: ms2) =
          head_of (ms1 ++ (pos, x) :: ms2)) as Hhd by (by destruct ms1).
  rewrite Hhd in Hcm'.
  assert (visit h' (mkList (head_of ns) (tail_of ns) (Z.of_nat (length ns) + 1))
          = Some ns) as Hv by (by apply visit_chain).
  assert (visit h' (obj_of (ms1 ++ (pos, x) :: ms2))
          = Some (ms1 ++ (pos, x) :: (a, v) :: ms2)) as Hvm by (by apply visit_chain).
  eexists. split; [done|]. cbn [self mem list_size].
  split; [done|]. split; [done|]. split; [done|]. split.
  - intros (_ & _ & ns0 & Hv0 & Hs0 & _). rewrite Hv in Hv0.
    injection Hv0 as <-. cbn [list_size] in Hs0. lia.
  - intros (_ & _ & ms0 & Hv0 & Hs0 & _). rewrite Hvm in Hv0.
    injection Hv0 as <-. cbn [obj_of list_size] in Hs0.
    rewrite !length_app in Hs0. simpl in Hs0. lia.
Qed.

(** A position of [1, 2, 4] handed to [insert_after] on [1, 2, 3]. *)
Lemma insert_after_foreign_position_witness :
  heap_ok compare_heap ∧
  repr compare_heap list_123 nodes_123 ∧
  repr compare_heap list_124 ([(4, 1)] ++ (5, 2) :: [(6, 4)]) ∧
  alloc compare_heap = Some 7 ∧
  ∃ s', insert_after 5 9 (mkState list_123 compare_heap) = Ok 7 s' ∧
        list_size (self s') = 4 ∧
        visit (mem s') (self s') = Some nodes_123.
Proof.
  assert (heap_ok compare_heap) as Hok.
  { apply heap_okb_ok. vm_compute. reflexivity. }
  assert (repr compare_heap list_123 nodes_123) as Ha.
  { apply repr_computed; vm_compute; reflexivity. }
  assert (repr compare_heap list_124 ([(4, 1)] ++ (5, 2) :: [(6, 4)])) as Hb.
  { apply repr_computed; vm_compute; reflexivity. }
  assert (∀ b, b ∈ ([(4, 1)] ++ (5, 2) :: [(6, 4)] : list (Z * Z)).*1 →
               b ∉ nodes_123.*1) as Hd.
  { intros b Hin Hin'. unfold nodes_123 in *. simpl in *.
    repeat (apply elem_of_cons in Hin as [->|Hin]);
      repeat (apply elem_of_cons in Hin' as [Hin'|Hin']);
      try discriminate Hin'; try (by apply elem_of_nil in Hin');
      by apply elem_of_nil in Hin. }
  assert (alloc compare_heap = Some 7) as Hal by (vm_compute; reflexivity).
  split; [exact Hok|]. split; [exact Ha|]. split; [exact Hb|].
  split; [exact Hal|].
  destruct (insert_after_foreign_position compare_heap list_123 list_124
              nodes_123 [(4, 1)] 5 2 [(6, 4)] 9 7 Hok Ha Hb Hd Hal)
    as (s' & Hr & Hs & Hv & _).
  exists s'. split; [exact Hr|]. split; [exact Hs|exact Hv].
Defined.

(** ** Construction, assignment and comparison *)

Section Equal.
Context {T : Type} `{Comparable T}.

Lemma pairwise_equal_refl (xs : list T) :
  (∀ x : T, elt_eq x x = true) → pairwise_equal xs xs = true.
Proof.
  intros Hrefl. induction xs as [|x xs IH]; [done|]. simpl.
  by rewrite Hrefl, IH.
Qed.

Lemma elt_eq_sym `{!TotalOrder T} (x y : T) : elt_eq x y = elt_eq y x.
Proof.
  destruct (elt_trichotomy x y) as [(H1 & H2 & H3)|[(H1 & H2 & H3)|(H1 & H2 & H3)]];
    destruct (elt_trichotomy y x) as [(G1 & G2 & G3)|[(G1 & G2 & G3)|(G1 & G2 & G3)]];
    congruence.
Qed.

Lemma seq_equal_sym `{!TotalOrder T} (xs ys : list T) :
  seq_equal xs ys = seq_equal ys xs.
Proof.
  rewrite !seq_equal_pairwise. revert ys.
  induction xs as [|x xs IH]; intros [|y ys]; simpl; try done.
  by rewrite IH, elt_eq_sym.
Qed.

End Equal.

(** X16. The initializer-list constructor builds a list with the given values
    in order, in new nodes, without touching any node that was live; for
    no values it is the default constructor, which makes the empty list.
    When a node cannot be allocated the constructor throws
    [std::bad_alloc] after the nodes built so far have been released: the
    free store is as it was. *)
Theorem ilist_ctor_builds {T} (l0 : SinglyLinkedList) (h : heap T)
    (ilist : list T) :
  heap_ok h →
  ((∃ s' ms, ilist_ctor ilist (mkState l0 h) = Ok tt s' ∧
             Inv s' ms ∧ ms.*2 = ilist ∧
             to_list s' = Some ilist ∧
             list_size (self s') = Z.of_nat (length ilist) ∧
             (∀ b, b ∈ ms.*1 → h !! b = None) ∧
             (∀ b, b ∉ ms.*1 → mem s' !! b = h !! b)) ∨
   (∃ l', ilist_ctor ilist (mkState l0 h) = Throw bad_alloc (mkState l' h))) ∧
  ilist_ctor [] (mkState l0 h) = default_ctor (mkState l0 h) ∧
  default_ctor (mkState l0 h) = Ok tt (mkState raw_object h).
Proof.
  intros Hok. split; [|done].
  destruct (ilist_ctor_exact l0 ilist h Hok) as (h' & ms & He & Hu & [[Hr Hv]|Hr]).
  - left. pose proof He as (Hok' & Hc' & _).
    pose proof (Inv_intro _ _ Hok' Hc') as HI'.
    exists (mkState (obj_of ms) h'), ms. split; [done|]. split; [done|].
    split; [done|]. split; [by rewrite (to_list_Inv _ _ HI'), Hv|].
    split; [by rewrite <- Hv, length_fmap|]. split.
    + intros b Hb. by eapply evolves_nil_fresh.
    + intros b Hb. apply Hu; [apply not_elem_of_nil|done].
  - right. eauto.
Qed.

(** Building [10, 20, 30] on an empty free store. *)
Lemma ilist_ctor_builds_witness :
  heap_ok (∅ : heap Z) ∧
  ∃ s', ilist_ctor [10; 20; 30] (mkState raw_object ∅) = Ok tt s' ∧
        to_list s' = Some [10; 20; 30].
Proof.
  assert (heap_ok (∅ : heap Z)) as Hok.
  { apply heap_okb_ok. vm_compute. reflexivity. }
  split; [exact Hok|].
  destruct (proj1 (ilist_ctor_builds raw_object ∅ [10; 20; 30] Hok))
    as [(s' & ms & Hr & _ & _ & Hl & _)|[l' Hr]].
  - exists s'. split; [exact Hr|exact Hl].
  - exfalso.
    assert (ilist_ctor [10; 20; 30] (mkState raw_object (∅ : heap Z)) =
            Ok tt example_state) as H0 by (vm_compute; reflexivity).
    rewrite H0 in Hr. discriminate Hr.
Defined.

(** X17. The copy constructor makes a deep copy: the new list has the elements
    of the source in the same order, in nodes that were not live before,
    so it shares no node with the source; the source and every other live
    node are as they were.  When a node cannot be allocated the
    constructor throws [std::bad_alloc] after the nodes built so far have
    been released: the free store is as it was. *)
Theorem copy_ctor_deep_copy {T} (l0 other : SinglyLinkedList) (h : heap T)
    (ns : list (Z * T)) :
  heap_ok h → repr h other ns →
  (∃ s' ms, copy_ctor other (mkState l0 h) = Ok tt s' ∧
            Inv s' ms ∧ ms.*2 = ns.*2 ∧
            to_list s' = Some ns.*2 ∧
            list_size (self s') = list_size other ∧
            repr (mem s') other ns ∧
            (∀ b, b ∈ ms.*1 → h !! b = None ∧ (b ∉ ns.*1)) ∧
            (∀ b, b ∉ ms.*1 → mem s' !! b = h !! b)) ∨
  (∃ l', copy_ctor other (mkState l0 h) = Throw bad_alloc (mkState l' h)).
Proof.
  intros Hok Hrepr. pose proof Hrepr as [-> Hc]%repr_obj.
  destruct (copy_ctor_exact l0 (obj_of ns) h ns Hok Hc)
    as (h' & ms & He & Hu & [[Hr Hv]|Hr]).
  - left. pose proof He as (Hok' & Hc' & _).
    pose proof (Inv_intro _ _ Hok' Hc') as HI'.
    assert (∀ b, b ∈ ns.*1 → b ∉ ([] : list (Z * T)).*1) as Hd0.
    { intros b _. apply not_elem_of_nil. }
    destruct (evolves_other _ _ _ _ _ _ He Hc Hd0) as [Hcn Hdisj].
    exists (mkState (obj_of ms) h'), ms. split; [done|]. split; [done|].
    split; [done|]. split; [by rewrite (to_list_Inv _ _ HI'), Hv|].
    split. { cbn [self obj_of list_size]. apply (f_equal length) in Hv.
             rewrite !length_fmap in Hv. by rewrite Hv. }
    split; [by apply repr_obj|]. split.
    + intros b Hb. split; [by eapply evolves_nil_fresh|].
      intros Hin. by apply (Hdisj b).
    + intros b Hb. apply Hu; [apply not_elem_of_nil|done].
  - right. eauto.
Qed.

(** Copying [10, 20, 30]. *)
Lemma copy_ctor_deep_copy_witness :
  heap_ok example_heap ∧
  repr example_heap (mkList 1 3 3) example_nodes ∧
  ∃ s', copy_ctor (mkList 1 3 3) (mkState raw_object example_heap) = Ok tt s' ∧
        to_list s' = Some [10; 20; 30].
Proof.
  assert (heap_ok example_heap) as Hok.
  { apply heap_okb_ok. vm_compute. reflexivity. }
  assert (repr example_heap (mkList 1 3 3) example_nodes) as Hr.
  { apply repr_computed; vm_compute; reflexivity. }
  split; [exact Hok|]. split; [exact Hr|].
  destruct (copy_ctor_deep_copy raw_object (mkList 1 3 3) example_heap
              example_nodes Hok Hr)
    as [(s' & ms & Hrun & _ & _ & Hl & _)|[l' Hrun]].
  - exists s'. split; [exact Hrun|exact Hl].
  - exfalso.
    assert (∃ s0, copy_ctor (mkList 1 3 3) (mkState raw_object example_heap) =
                  Ok tt s0) as [s0 H0] by (eexists; vm_compute; reflexivity).
    rewrite H0 in Hrun. discriminate Hrun.
Defined.

(** X18. A copy compares equal to its source, in both directions, whenever
    [operator==] of the elements is reflexive. *)
Theorem copy_equals_source {T} `{Comparable T} (l0 other : SinglyLinkedList)
    (h : heap T) (ns : list (Z * T)) (s' : state T) :
  (∀ x : T, elt_eq x x = true) →
  heap_ok h → repr h other ns →
  copy_ctor other (mkState l0 h) = Ok tt s' →
  op_eq (mem s') (self s') other = Some true ∧
  op_eq (mem s') other (self s') = Some true ∧
  op_ne (mem s') (self s') other = Some false.
Proof.
  intros Hrefl Hok Hrepr Hrun.
  pose proof Hrepr as [-> Hc]%repr_obj.
  destruct (copy_ctor_exact l0 (obj_of ns) h ns Hok Hc)
    as (h' & ms & He & Hu & [[Hr Hv]|Hr]); rewrite Hr in Hrun; [|done].
  injection Hrun as <-. cbn [self mem].
  pose proof He as (Hok' & Hc' & _).
  assert (∀ b, b ∈ ns.*1 → b ∉ ([] : list (Z * T)).*1) as Hd0.
  { intros b _. apply not_elem_of_nil. }
  destruct (evolves_other _ _ _ _ _ _ He Hc Hd0) as [Hcn _].
  assert (repr h' (obj_of ms) ms) as Hm by (by apply repr_obj).
  assert (repr h' (obj_of ns) ns) as Hn by (by apply repr_obj).
  assert (seq_equal ns.*2 ns.*2 = true) as Heq.
  { rewrite seq_equal_pairwise. by apply pairwise_equal_refl. }
  unfold op_ne.
  rewrite (op_eq_run _ _ _ _ _ Hm Hn), (op_eq_run _ _ _ _ _ Hn Hm), Hv, Heq.
  done.
Qed.

(** A copy of [10, 20, 30] equals it. *)
Lemma copy_equals_source_witness :
  (∀ x : Z, elt_eq x x = true) ∧
  heap_ok example_heap ∧
  repr example_heap (mkList 1 3 3) example_nodes ∧
  ∃ s', copy_ctor (mkList 1 3 3) (mkState raw_object example_heap) = Ok tt s' ∧
        op_eq (mem s') (self s') (mkList 1 3 3) = Some true.
Proof.
  assert (∀ x : Z, elt_eq x x = true) as Hrefl.
  { intros x. apply Z.eqb_refl. }
  assert (heap_ok example_heap) as Hok.
  { apply heap_okb_ok. vm_compute. reflexivity. }
  assert (repr example_heap (mkList 1 3 3) example_nodes) as Hr.
  { apply repr_computed; vm_compute; reflexivity. }
  split; [exact Hrefl|]. split; [exact Hok|]. split; [exact Hr|].
  assert (∃ s0, copy_ctor (mkList 1 3 3) (mkState raw_object example_heap) =
                Ok tt s0) as [s0 H0] by (eexists; vm_compute; reflexivity).
  exists s0. split; [exact H0|].
  exact (proj1 (copy_equals_source raw_object (mkList 1 3 3) example_heap
                  example_nodes s0 Hrefl Hok Hr H0)).
Defined.

(** X19. Copy assignment from another list, [a = b]: the list holds copies of
    the elements of [b] in order, in new nodes; [b] is as it was; the nodes
    the list had are released, each an address that is no longer live; and
    no other node is touched.  When the copy cannot be allocated the
    assignment throws [std::bad_alloc] and nothing at all has changed. *)
Theorem copy_assign_replaces {T} (this rhs : SinglyLinkedList) (h : heap T)
    (ns ms : list (Z * T)) :
  heap_ok h → repr h this ns → repr h rhs ms →
  (∀ b, b ∈ ms.*1 → b ∉ ns.*1) →
  (∃ s' ns', copy_assign rhs (mkState this h) = Ok tt s' ∧
             Inv s' ns' ∧ ns'.*2 = ms.*2 ∧
             to_list s' = Some ms.*2 ∧
             repr (mem s') rhs ms ∧
             (∀ b, b ∈ ns.*1 → mem s' !! b = None) ∧
             (∀ b, b ∈ ns'.*1 → h !! b = None) ∧
             (∀ b, b ∉ ns.*1 → b ∉ ns'.*1 → mem s' !! b = h !! b)) ∨
  copy_assign rhs (mkState this h) = Throw bad_alloc (mkState this h).
Proof.
  intros Hok [-> Hc]%repr_obj Hm Hdisj.
  pose proof Hm as [Ho Hcm]%repr_obj.
  assert (chain h (head_ rhs) ms) as Hcm' by (by rewrite Ho).
  destruct (copy_assign_exact rhs ms h ns Hok Hc Hcm')
    as [(h' & ns' & Hr & Hv & He & Hu & Hrel & Hfresh)|Hr]; [left|by right].
  pose proof He as (Hok' & Hc' & _).
  pose proof (Inv_intro _ _ Hok' Hc') as HI'.
  destruct (evolves_other _ _ _ _ _ _ He Hcm Hdisj) as [Hcm1 _].
  exists (mkState (obj_of ns') h'), ns'. split; [done|]. split; [done|].
  split; [done|]. split; [by rewrite (to_list_Inv _ _ HI'), Hv|].
  split; [by apply repr_obj|]. split; [|split; [done|done]].
  intros b Hb. by destruct (Hrel b Hb).
Qed.

(** Assigning [1, 2, 4] to the list [1, 2, 3]. *)
Lemma copy_assign_replaces_witness :
  heap_ok compare_heap ∧
  repr compare_heap list_123 nodes_123 ∧
  repr compare_heap list_124 nodes_124 ∧
  ∃ s', copy_assign list_124 (mkState list_123 compare_heap) = Ok tt s' ∧
        to_list s' = Some [1; 2; 4].
Proof.
  assert (heap_ok compare_heap) as Hok.
  { apply heap_okb_ok. vm_compute. reflexivity. }
  assert (repr compare_heap list_123 nodes_123) as Ha.
  { apply repr_computed; vm_compute; reflexivity. }
  assert (repr compare_heap list_124 nodes_124) as Hb.
  { apply repr_computed; vm_compute; reflexivity. }
  assert (∀ b, b ∈ nodes_124.*1 → b ∉ nodes_123.*1) as Hd.
  { intros b Hin Hin'. unfold nodes_123, nodes_124 in *. simpl in *.
    repeat (apply elem_of_cons in Hin as [->|Hin]);
      repeat (apply elem_of_cons in Hin' as [Hin'|Hin']);
      try discriminate Hin'; try (by apply elem_of_nil in Hin');
      by apply elem_of_nil in Hin. }
  split; [exact Hok|]. split; [exact Ha|]. split; [exact Hb|].
  destruct (copy_assign_replaces list_123 list_124 compare_heap nodes_123
              nodes_124 Hok Ha Hb Hd)
    as [(s' & ns' & Hrun & _ & _ & Hl & _)|Hrun].
  - exists s'. split; [exact Hrun|exact Hl].
  - exfalso.
    assert (∃ s0, copy_assign list_124 (mkState list_123 compare_heap) =
                  Ok tt s0) as [s0 H0] by (eexists; vm_compute; reflexivity).
    rewrite H0 in Hrun. discriminate Hrun.
Defined.

(** X20. Moves transfer the nodes and leave the source empty.  The move
    constructor gives the new list the very nodes of the source without
    touching the free store.  Move assignment from another list,
    [a = std::move(b)], does the same and releases the nodes that [a] had,
    and no other node; in both cases the source is left as a valid empty
    list. *)
Theorem move_transfers {T} (this rhs : SinglyLinkedList) (h : heap T)
    (ns ms : list (Z * T)) :
  heap_ok h → repr h this ns → repr h rhs ms →
  (∀ b, b ∈ ms.*1 → b ∉ ns.*1) →
  move_ctor rhs (mkState raw_object h) = Ok raw_object (mkState rhs h) ∧
  repr h raw_object [] ∧
  ∃ s', move_assign_from rhs (mkState this h) = Ok raw_object s' ∧
        self s' = rhs ∧
        Inv s' ms ∧
        to_list s' = Some ms.*2 ∧
        (∀ b, b ∈ ns.*1 → mem s' !! b = None) ∧
        (∀ b, b ∉ ns.*1 → mem s' !! b = h !! b).
Proof.
  intros Hok [-> Hc]%repr_obj Hm Hdisj.
  pose proof Hm as [Ho Hcm]%repr_obj.
  split; [by rewrite move_ctor_run|]. split; [apply repr_nil|].
  unfold move_assign_from, bind, with_object. rewrite move_ctor_run.
  cbn [self mem fst snd]. rewrite op_assign_run by done. cbn [ret].
  pose proof (free_all_evolves _ _ Hok Hc) as He.
  destruct (evolves_other _ _ _ _ _ _ He Hcm Hdisj) as [Hcm1 _].
  assert (Inv (mkState rhs (free_all ns.*1 h)) ms) as HI'.
  { rewrite Ho. apply Inv_intro; [by apply heap_ok_free_all|done]. }
  eexists. split; [done|]. split; [done|]. split; [done|].
  split; [by apply to_list_Inv|]. cbn [mem]. split.
  - intros b Hb. by rewrite lookup_free_all, decide_True.
  - intros b Hb. by rewrite lookup_free_all, decide_False.
Qed.

(** Moving [1, 2, 4] into the list [1, 2, 3]. *)
Lemma move_transfers_witness :
  heap_ok compare_heap ∧
  repr compare_heap list_123 nodes_123 ∧
  repr compare_heap list_124 nodes_124 ∧
  ∃ s', move_assign_from list_124 (mkState list_123 compare_heap) =
          Ok raw_object s' ∧
        to_list s' = Some [1; 2; 4].
Proof.
  assert (heap_ok compare_heap) as Hok.
  { apply heap_okb_ok. vm_compute. reflexivity. }
  assert (repr compare_heap list_123 nodes_123) as Ha.
  { apply repr_computed; vm_compute; reflexivity. }
  assert (repr compare_heap list_124 nodes_124) as Hb.
  { apply repr_computed; vm_compute; reflexivity. }
  assert (∀ b, b ∈ nodes_124.*1 → b ∉ nodes_123.*1) as Hd.
  { intros b Hin Hin'. unfold nodes_123, nodes_124 in *. simpl in *.
    repeat (apply elem_of_cons in Hin as [->|Hin]);
      repeat (apply elem_of_cons in Hin' as [Hin'|Hin']);
      try discriminate Hin'; try (by apply elem_of_nil in Hin');
      by apply elem_of_nil in Hin. }
  split; [exact Hok|]. split; [exact Ha|]. split; [exact Hb|].
  destruct (move_transfers list_123 list_124 compare_heap nodes_123 nodes_124
              Hok Ha Hb Hd)
    as (_ & _ & s' & Hrun & _ & _ & Hl & _).
  exists s'. split; [exact Hrun|exact Hl].
Defined.

(** X21. The derived comparisons on a totally ordered element type: [a != b] is
    the negation of [a == b], [a > b] is [b < a], and [a <= b] and
    [a >= b], which the code computes as [!(b < a)] and [!(a < b)], hold
    exactly when [a < b] or [a == b], respectively [b < a] or [a == b];
    [==] is symmetric. *)
Theorem comparisons_derived {T} `{Comparable T} `{!TotalOrder T}
    (h : heap T) (a b : SinglyLinkedList) (ns ms : list (Z * T)) :
  repr h a ns → repr h b ms →
  op_ne h a b = Some (negb (seq_equal ns.*2 ms.*2)) ∧
  op_gt h a b = Some (lex_less ms.*2 ns.*2) ∧
  op_le h a b = Some (lex_less ns.*2 ms.*2 || seq_equal ns.*2 ms.*2) ∧
  op_ge h a b = Some (lex_less ms.*2 ns.*2 || seq_equal ns.*2 ms.*2) ∧
  op_eq h a b = op_eq h b a.
Proof.
  intros Ha Hb. unfold op_ne, op_gt, op_le, op_ge.
  rewrite (op_eq_run _ _ _ _ _ Ha Hb), (op_eq_run _ _ _ _ _ Hb Ha).
  rewrite (op_lt_run _ _ _ _ _ Ha Hb), (op_lt_run _ _ _ _ _ Hb Ha).
  rewrite !lex_by_less_spec. simpl.
  rewrite (seq_equal_sym ms.*2 ns.*2).
  destruct (lists_trichotomy ns.*2 ms.*2)
    as [(H1 & H2 & H3)|[(H1 & H2 & H3)|(H1 & H2 & H3)]];
    rewrite H1, H2, H3; done.
Qed.

(** The lists [1, 2, 3] and [1, 2, 4]. *)
Lemma comparisons_derived_witness :
  repr compare_heap list_123 nodes_123 ∧
  repr compare_heap list_124 nodes_124 ∧
  op_le compare_heap list_123 list_124 = Some true ∧
  op_ge compare_heap list_123 list_124 = Some false.
Proof.
  assert (repr compare_heap list_123 nodes_123) as Ha.
  { apply repr_computed; vm_compute; reflexivity. }
  assert (repr compare_heap list_124 nodes_124) as Hb.
  { apply repr_computed; vm_compute; reflexivity. }
  split; [exact Ha|]. split; [exact Hb|].
  destruct (comparisons_derived compare_heap list_123 list_124 nodes_123
              nodes_124 Ha Hb) as (_ & _ & Hle & Hge & _).
  split; [exact Hle|exact Hge].
Defined.

(** ** The order of lists *)

Section StrictOrder.
Context {T : Type} `{Comparable T} `{!TotalOrder T}.
Hypothesis elt_eq_leibniz : ∀ x y : T, elt_eq x y = true ↔ x = y.
Hypothesis elt_lt_trans :
  ∀ x y z : T, elt_lt x y = true → elt_lt y z = true → elt_lt x z = true.

Lemma elt_lt_irrefl (x : T) : elt_lt x x = false.
Proof.
  destruct (elt_trichotomy x x) as [(H1 & H2 & H3)|[(H1 & H2 & H3)|(H1 & H2 & H3)]];
    congruence.
Qed.

Lemma elt_not_lt_eq (x y : T) :
  elt_lt x y = false → elt_lt y x = false → x = y.
Proof.
  intros H1 H2. apply elt_eq_leibniz.
  destruct (elt_trichotomy x y) as [(G1 & G2 & G3)|[(G1 & G2 & G3)|(G1 & G2 & G3)]];
    congruence.
Qed.

Lemma lex_by_less_irrefl (xs : list T) : lex_by_less xs xs = false.
Proof.
  induction xs as [|x xs IH]; [done|]. simpl. by rewrite elt_lt_irrefl.
Qed.

Lemma lex_by_less_trans (xs ys zs : list T) :
  lex_by_less xs ys = true → lex_by_less ys zs = true →
  lex_by_less xs zs = true.
Proof.
  revert ys zs. induction xs as [|x xs IH]; intros [|y ys] [|z zs]; simpl;
    try done.
  destruct (elt_lt x y) eqn:Hxy.
  - intros _. destruct (elt_lt y z) eqn:Hyz.
    + intros _. by rewrite (elt_lt_trans x y z).
    + destruct (elt_lt z y) eqn:Hzy; [done|]. intros _.
      rewrite <- (elt_not_lt_eq y z) by done. by rewrite Hxy.
  - destruct (elt_lt y x) eqn:Hyx; [done|].
    pose proof (elt_not_lt_eq x y Hxy Hyx) as <-. intros Hl.
    destruct (elt_lt x z) eqn:Hxz; [done|].
    destruct (elt_lt z x) eqn:Hzx; [done|]. by apply IH.
Qed.

Lemma pairwise_equal_eq (xs ys : list T) :
  pairwise_equal xs ys = true ↔ xs = ys.
Proof.
  revert ys. induction xs as [|x xs IH]; intros [|y ys]; simpl; try done.
  rewrite andb_true_iff, IH, elt_eq_leibniz. split.
  - by intros [-> ->].
  - intros Heq. by injection Heq as -> ->.
Qed.

End StrictOrder.

(** X22. For an element type whose [==] is equality and whose [<] is a strict
    total order, [operator==] on lists holds exactly when the two lists
    have the same elements in the same order, and [operator<] on lists is
    irreflexive and transitive: with the trichotomy it has, a strict total
    order of the lists. *)
Theorem op_lt_strict_order {T} `{Comparable T} `{!TotalOrder T}
    (h : heap T) (a b c : SinglyLinkedList) (na nb nc : list (Z * T)) :
  (∀ x y : T, elt_eq x y = true ↔ x = y) →
  (∀ x y z : T, elt_lt x y = true → elt_lt y z = true → elt_lt x z = true) →
  repr h a na → repr h b nb → repr h c nc →
  (op_eq h a b = Some true ↔ na.*2 = nb.*2) ∧
  op_lt h a a = Some false ∧
  (op_lt h a b = Some true → op_lt h b c = Some true →
   op_lt h a c = Some true).
Proof.
  intros Heq Htrans Ha Hb Hc.
  rewrite (op_eq_run _ _ _ _ _ Ha Hb).
  rewrite (op_lt_run _ _ _ _ _ Ha Ha), (op_lt_run _ _ _ _ _ Ha Hb).
  rewrite (op_lt_run _ _ _ _ _ Hb Hc), (op_lt_run _ _ _ _ _ Ha Hc).
  split; [|split].
  - rewrite seq_equal_pairwise, <- (pairwise_equal_eq Heq). split.
    + by intros [= ->].
    + by intros ->.
  - by rewrite lex_by_less_irrefl.
  - intros [= H1] [= H2]. f_equal. by eapply lex_by_less_trans.
Qed.

(** The lists [1, 2, 3] and [1, 2, 4] of integers. *)
Lemma op_lt_strict_order_witness :
  (∀ x y : Z, elt_eq x y = true ↔ x = y) ∧
  (∀ x y z : Z, elt_lt x y = true → elt_lt y z = true → elt_lt x z = true) ∧
  repr compare_heap list_123 nodes_123 ∧
  repr compare_heap list_124 nodes_124 ∧
  op_lt compare_heap list_123 list_123 = Some false.
Proof.
  assert (∀ x y : Z, elt_eq x y = true ↔ x = y) as Heq.
  { intros x y. apply Z.eqb_eq. }
  assert (∀ x y z : Z, elt_lt x y = true → elt_lt y z = true →
                       elt_lt x z = true) as Htrans.
  { intros x y z. simpl. rewrite !Z.ltb_lt. lia. }
  assert (repr compare_heap list_123 nodes_123) as Ha.
  { apply repr_computed; vm_compute; reflexivity. }
  assert (repr compare_heap list_124 nodes_124) as Hb.
  { apply repr_computed; vm_compute; reflexivity. }
  split; [exact Heq|]. split; [exact Htrans|]. split; [exact Ha|].
  split; [exact Hb|].
  exact (proj1 (proj2 (op_lt_strict_order compare_heap list_123 list_124
                         list_124 nodes_123 nodes_124 nodes_124
                         Heq Htrans Ha Hb Hb))).
Defined.

(** ** Programs leak no node *)

Section Leaks.
Context {T : Type}.
Implicit Types (h : heap T) (ns ms : list (Z * T)) (w : world T)
  (nss : list (list (Z * T))) (l : SinglyLinkedList).

Lemma owned_append h nss : owned h nss → owned h (nss ++ [[]]).
Proof.
  intros Ho b Hb. destruct (Ho b Hb) as (i & ns & Hi & Hin).
  exists i, ns. split; [|done]. by apply lookup_app_l_Some.
Qed.

Lemma owned_construct h nss h' ms' :
  owned h nss → untouched h [] h' ms' → owned h' (nss ++ [ms']).
Proof.
  intros Ho Hu b Hb. destruct (decide (b ∈ ms'.*1)) as [Hin|Hnin].
  - exists (length nss), ms'. split; [|done]. by apply list_lookup_middle.
  - rewrite (Hu b) in Hb; [|apply not_elem_of_nil|done].
    destruct (Ho b Hb) as (i & ns & Hi & Hin).
    exists i, ns. split; [|done]. by apply lookup_app_l_Some.
Qed.

Lemma owned_evolve h nss i ns h' ns' :
  owned h nss → nss !! i = Some ns → untouched h ns h' ns' →
  (∀ b, b ∈ ns.*1 → b ∈ ns'.*1 ∨ h' !! b = None) →
  owned h' (<[i := ns']> nss).
Proof.
  intros Ho Hi Hu Hrel b Hb. pose proof (lookup_lt_Some _ _ _ Hi) as Hlt.
  destruct (decide (b ∈ ns'.*1)) as [Hin|Hnin].
  - exists i, ns'. split; [|done]. by apply list_lookup_insert_eq.
  - assert (b ∉ ns.*1) as Hn.
    { intros Hin. destruct (Hrel b Hin) as [?|Hnone]; [done|].
      rewrite Hnone in Hb. by destruct Hb. }
    rewrite (Hu b Hn Hnin) in Hb.
    destruct (Ho b Hb) as (k & ms & Hk & Hin).
    exists k, ms. split; [|done].
    rewrite list_lookup_insert_ne; [done|]. intros ->.
    rewrite Hi in Hk. injection Hk as ->. done.
Qed.

Lemma stable_released h' ns ns' :
  stable h' ns ns' → ∀ b, b ∈ ns.*1 → b ∈ ns'.*1 ∨ h' !! b = None.
Proof.
  intros Hst b Hin. apply list_elem_of_fmap in Hin as ([b' x] & -> & Hin).
  destruct (Hst b' x Hin) as [Hin'|[_ ?]]; [left|by right].
  by eapply elem_of_addrs.
Qed.

Lemma owned_move h nss j nj :
  owned h nss → nss !! j = Some nj → owned h (<[j := []]> nss ++ [nj]).
Proof.
  intros Ho Hj b Hb. destruct (Ho b Hb) as (k & ms & Hk & Hin).
  pose proof (lookup_lt_Some _ _ _ Hk) as Hlt.
  destruct (decide (k = j)) as [->|Hne].
  - rewrite Hj in Hk. injection Hk as ->.
    exists (length (<[j := []]> nss)), ms. split; [|done].
    by apply list_lookup_middle.
  - exists k, ms. split; [|done]. apply lookup_app_l_Some.
    by rewrite list_lookup_insert_ne.
Qed.

Lemma owned_swap h nss i j na nb :
  owned h nss → nss !! i = Some na → nss !! j = Some nb →
  owned h (<[j := na]> (<[i := nb]> nss)).
Proof.
  intros Ho Hi Hj b Hb. destruct (Ho b Hb) as (k & ms & Hk & Hin).
  pose proof (lookup_lt_Some _ _ _ Hi) as Hlti.
  pose proof (lookup_lt_Some _ _ _ Hj) as Hltj.
  destruct (decide (k = i)) as [->|Hki].
  - rewrite Hi in Hk. injection Hk as ->.
    exists j, ms. split; [|done].
    apply list_lookup_insert_eq. by rewrite length_insert.
  - destruct (decide (k = j)) as [->|Hkj].
    + rewrite Hj in Hk. injection Hk as ->.
      exists i, ms. split; [|done].
      rewrite list_lookup_insert_ne by done.
      by apply list_lookup_insert_eq.
    + exists k, ms. split; [|done]. by rewrite !list_lookup_insert_ne.
Qed.

Lemma owned_remove h nss i ns :
  owned h nss → nss !! i = Some ns →
  owned (free_all ns.*1 h) (delete i nss).
Proof.
  intros Ho Hi b Hb. rewrite lookup_free_all in Hb.
  case_decide as Hin; [by destruct Hb|].
  destruct (Ho b Hb) as (k & ms & Hk & Hin').
  assert (k ≠ i) as Hne.
  { intros ->. rewrite Hi in Hk. injection Hk as ->. done. }
  destruct (decide (k < i)%nat) as [Hlt|Hge].
  - exists k, ms. split; [|done]. by rewrite list_lookup_delete_lt.
  - exists (pred k), ms. split; [|done].
    rewrite list_lookup_delete_ge by lia.
    replace (S (pred k)) with k by lia. done.
Qed.

(** One use of the public interface keeps every live node owned. *)
Lemma step_owned w w' nss :
  WRep w nss → owned (wmem w) nss → step w w' →
  ∃ nss', WRep w' nss' ∧ owned (wmem w') nss'.
Proof.
  intros HW Ho Hstep. pose proof HW as (Hok & HF & Hd).
  pose proof (Forall2_length _ _ _ HF) as Hlen.
  destruct Hstep as
    [w l0 s' Hrun | w l0 ilist s' Hrun | w l0 ilist e s' Hrun
    | w l0 j other s' Hj Hrun | w l0 j other e s' Hj Hrun
    | w l0 j other other' s' Hj Hrun
    | w i l m s' Hi Hvalid Hrun
    | w i j a b Hi Hj
    | w i j l rhs s' Hi Hj Hrun
    | w l0 i j rhs rhs' tmp l s' Hj Hmove Hi Hrun
    | w i l s' Hi Hrun ].
  - (* default constructor *)
    rewrite default_ctor_run in Hrun. injection Hrun as <-.
    exists (nss ++ [[]]). split; [by apply WRep_append|by apply owned_append].
  - (* initializer list *)
    destruct (ilist_ctor_exact l0 ilist _ Hok)
      as (h' & ms' & He & Hu & [[Hr _]|Hr]); rewrite Hr in Hrun; [|done].
    injection Hrun as <-. exists (nss ++ [ms']).
    split; [by apply WRep_construct|by eapply owned_construct].
  - destruct (ilist_ctor_exact l0 ilist _ Hok)
      as (h' & ms' & He & Hu & [[Hr _]|Hr]); rewrite Hr in Hrun; [done|].
    injection Hrun as <- <-. exists nss. by destruct w.
  - (* copy constructor *)
    destruct (WRep_lookup _ _ _ _ HW Hj) as (ns & Hns & -> & Hc).
    destruct (copy_ctor_exact l0 (obj_of ns) _ ns Hok Hc)
      as (h' & ms' & He & Hu & [[Hr _]|Hr]); rewrite Hr in Hrun; [|done].
    injection Hrun as <-. exists (nss ++ [ms']).
    split; [by apply WRep_construct|by eapply owned_construct].
  - destruct (WRep_lookup _ _ _ _ HW Hj) as (ns & Hns & -> & Hc).
    destruct (copy_ctor_exact l0 (obj_of ns) _ ns Hok Hc)
      as (h' & ms' & He & Hu & [[Hr _]|Hr]); rewrite Hr in Hrun; [done|].
    injection Hrun as <- <-. exists nss. by destruct w.
  - (* move constructor *)
    destruct (WRep_lookup _ _ _ _ HW Hj) as (ns & Hns & -> & Hc).
    rewrite move_ctor_run in Hrun. injection Hrun as <- <-.
    exists (<[j := []]> nss ++ [ns]).
    split; [by apply WRep_move|by apply owned_move].
  - (* a member function *)
    destruct (WRep_lookup _ _ _ _ HW Hi) as (ns & Hns & -> & Hc).
    destruct (call_footprint m _ ns Hok Hc Hvalid)
      as (h' & ns' & Hl & (He & Hu & Hst) & _).
    rewrite (leaves_functional _ _ _ Hrun Hl).
    exists (<[i := ns']> nss). split; [by eapply WRep_evolve|].
    eapply owned_evolve; [done|done|done|]. by apply stable_released.
  - (* swap *)
    destruct (WRep_lookup _ _ _ _ HW Hi) as (na & Hna & -> & Hca).
    destruct (WRep_lookup _ _ _ _ HW Hj) as (nb & Hnb & -> & Hcb).
    rewrite swap_eta. exists (<[j := na]> (<[i := nb]> nss)).
    split; [by apply WRep_swap|by apply owned_swap].
  - (* copy assignment *)
    destruct (WRep_lookup _ _ _ _ HW Hi) as (ns & Hns & -> & Hc).
    destruct (WRep_lookup _ _ _ _ HW Hj) as (ms & Hms & -> & Hcm).
    destruct (copy_assign_exact (obj_of ms) ms _ ns Hok Hc Hcm)
      as [(h' & ns' & Hr & _ & He & Hu & Hrel & _)|Hr]; rewrite Hr in Hrun.
    + rewrite (leaves_functional _ _ (mkState (obj_of ns') h') Hrun)
        by (left; eauto).
      exists (<[i := ns']> nss). split; [by eapply WRep_evolve|].
      eapply owned_evolve; [done|done|done|].
      intros b Hb. right. by destruct (Hrel b Hb).
    + rewrite (leaves_functional _ _ (mkState (obj_of ns) (wmem w)) Hrun)
        by (right; eauto).
      exists (<[i := ns]> nss). split.
      * eapply WRep_evolve; [done|done|]. by apply evolves_refl.
      * eapply owned_evolve; [done|done|done|]. intros b Hb. by left.
  - (* move assignment *)
    destruct (WRep_lookup _ _ _ _ HW Hj) as (nj & Hnj & -> & Hcj).
    rewrite move_ctor_run in Hmove. injection Hmove as <- <-.
    pose proof (WRep_move _ _ _ _ _ HW Hj Hnj) as HW1.
    pose proof (lookup_lt_Some _ _ _ Hi) as Hlt. rewrite length_insert in Hlt.
    assert ((<[j:=raw_object]> (objs w) ++ [obj_of nj]) !! i = Some l) as Hi'.
    { rewrite lookup_app_l; [done|]. by rewrite length_insert. }
    destruct (WRep_lookup _ _ _ _ HW1 Hi') as (ni & Hni & -> & Hci).
    cbn [objs wmem self mem] in *.
    rewrite op_assign_run in Hrun by done.
    rewrite (leaves_functional _ _ (mkState (obj_of nj) (free_all ni.*1 (wmem w))) Hrun)
      by (left; eauto).
    pose proof (WRep_evolve _ _ i ni _ [] HW1 Hni (free_all_evolves _ _ Hok Hci)) as HW2.
    cbn [objs wmem self mem] in *.
    exists (<[i := nj]> (<[j := []]> nss)). split.
    + apply (WRep_reindex _ _ _ _ (λ k, if decide (k = i) then length nss else k) HW2).
      * by rewrite !length_insert.
      * intros k l ns Hl Hns. right. cbn [objs].
        pose proof (lookup_lt_Some _ _ _ Hns) as Hk. rewrite !length_insert in Hk.
        destruct (decide (k = i)) as [->|Hki].
        -- rewrite list_lookup_insert_eq in Hl by (rewrite length_insert; lia).
           rewrite list_lookup_insert_eq in Hns by (rewrite length_insert; lia).
           injection Hl as <-. injection Hns as <-.
           rewrite !list_lookup_insert_ne by lia.
           rewrite <- Hlen at 1.
           assert (length (objs w) = length (<[j:=raw_object]> (objs w))) as ->
             by (by rewrite length_insert).
           rewrite list_lookup_middle by done.
           assert (length nss = length (<[j:=[]]> nss)) as ->
             by (by rewrite length_insert).
           by rewrite list_lookup_middle.
        -- rewrite list_lookup_insert_ne in Hl by done.
           rewrite list_lookup_insert_ne in Hns by done.
           rewrite !list_lookup_insert_ne by done.
           rewrite !lookup_app_l by (rewrite length_insert; lia). done.
      * intros k k' ns ms Hne Hns Hms _ _.
        pose proof (lookup_lt_Some _ _ _ Hns) as Hk. rewrite !length_insert in Hk.
        pose proof (lookup_lt_Some _ _ _ Hms) as Hk'. rewrite !length_insert in Hk'.
        repeat case_decide; lia.
    + rewrite lookup_app_l in Hni by (rewrite length_insert; lia).
      intros b Hb. rewrite lookup_free_all in Hb.
      case_decide as Hin; [by destruct Hb|].
      destruct (Ho b Hb) as (k & ms & Hk & Hin').
      pose proof (lookup_lt_Some _ _ _ Hk) as Hltk.
      destruct (decide (k = j)) as [->|Hkj].
      * rewrite Hnj in Hk. injection Hk as ->. exists i, ms.
        split; [|done]. apply list_lookup_insert_eq.
        rewrite length_insert. lia.
      * exists k, ms. split; [|done].
        rewrite list_lookup_insert_ne.
        -- by rewrite list_lookup_insert_ne.
        -- intros ->. rewrite list_lookup_insert_ne in Hni by done.
           rewrite Hni in Hk. injection Hk as ->. done.
  - (* destructor *)
    destruct (WRep_lookup _ _ _ _ HW Hi) as (ns & Hns & -> & Hc).
    rewrite dtor_run in Hrun by done. injection Hrun as <-.
    cbn [objs wmem self mem].
    pose proof (WRep_evolve _ _ i ns _ [] HW Hns (free_all_evolves _ _ Hok Hc)) as HW2.
    apply (WRep_remove _ _ i) in HW2. cbn [objs wmem] in HW2.
    rewrite !list_delete_insert in HW2. exists (delete i nss).
    split; [done|]. by apply owned_remove.
Qed.

Lemma reachable_owned w : reachable w → ∃ nss, WRep w nss ∧ owned (wmem w) nss.
Proof.
  induction 1 as [|w w' _ (nss & HW & Ho) Hstep].
  - exists []. split.
    + split; [|split].
      * intros a [n Hn]. simpl in Hn. by rewrite lookup_empty in Hn.
      * constructor.
      * intros i j ns ms b _ Hi. by rewrite lookup_nil in Hi.
    + intros b [n Hn]. simpl in Hn. by rewrite lookup_empty in Hn.
  - by eapply step_owned.
Qed.

End Leaks.

(** X23. A program that uses the lists through their public interface leaks no
    node and shares none: in every state it can reach, each live node of
    the free store belongs to the chain of exactly one list object.  So
    once every list has been destroyed the free store is empty. *)
Theorem no_leak {T} (w : world T) :
  reachable w →
  (∀ b, is_Some (wmem w !! b) →
     ∃ i l ns, objs w !! i = Some l ∧ repr (wmem w) l ns ∧ b ∈ ns.*1 ∧
               ∀ j l' ms, objs w !! j = Some l' → repr (wmem w) l' ms →
                          b ∈ ms.*1 → j = i) ∧
  (objs w = [] → wmem w = ∅).
Proof.
  intros Hr. destruct (reachable_owned _ Hr) as (nss & HW & Ho).
  pose proof HW as (Hok & HF & Hd). split.
  - intros b Hb. destruct (Ho b Hb) as (i & ns & Hi & Hin).
    destruct (Forall2_lookup_r _ _ _ _ _ HF Hi) as (l & Hl & Hrepr).
    exists i, l, ns. split; [done|]. split; [done|]. split; [done|].
    intros j l' ms Hj Hm Hin'.
    destruct (WRep_lookup _ _ _ _ HW Hj) as (ms' & Hms' & -> & Hc').
    destruct Hm as (Hcm & _). cbn [obj_of head_] in Hcm.
    pose proof (chain_functional _ _ _ _ Hcm Hc') as ->.
    destruct (decide (j = i)) as [|Hne]; [done|].
    by destruct (Hd j i ms' ns b Hne Hms' Hi Hin').
  - intros Hnil. apply map_empty. intros b.
    destruct (wmem w !! b) as [n|] eqn:Hb; [|done].
    destruct (Ho b (ex_intro _ n Hb)) as (i & ns & Hi & _).
    rewrite Hnil in HF. apply Forall2_nil_inv_l in HF. subst nss.
    by rewrite lookup_nil in Hi.
Qed.

(** The program that builds the list [10, 20, 30]: the node at address 2
    belongs to its one list. *)
Lemma no_leak_witness :
  reachable example_world ∧
  ∃ i l ns, objs example_world !! i = Some l ∧
            repr (wmem example_world) l ns ∧ 2 ∈ ns.*1.
Proof.
  assert (reachable example_world) as Hr.
  { apply (reachable_step (mkWorld ∅ [])); [apply reachable_init|].
    apply (step_ilist_ctor (mkWorld ∅ []) raw_object [10; 20; 30] example_state).
    vm_compute. reflexivity. }
  split; [exact Hr|].
  assert (is_Some (wmem example_world !! 2)) as H2.
  { eexists. vm_compute. reflexivity. }
  destruct (proj1 (no_leak example_world Hr) 2 H2)
    as (i & l & ns & Hi & Hrepr & Hin & _).
  exists i, l, ns. split; [exact Hi|]. split; [exact Hrepr|exact Hin].
Defined.

(** ** The test helper [printList] *)

Section PrintList.
Context {T : Type} (show : T → string).
Implicit Types (h : heap T) (ns : list (Z * T)) (p : Z) (s : state T).

Lemma print_contents_run fuel s p ns :
  chain (mem s) p ns → (length ns ≤ fuel)%nat →
  print_contents show fuel p s = Ok (contents_text show ns.*2) s.
Proof.
  revert p fuel. induction ns as [|[a x] ns IH]; intros p fuel Hc Hf.
  - apply chain_null_iff in Hc as ->. by destruct fuel.
  - destruct Hc as (-> & Hn & r & Hl & Hc).
    destruct fuel as [|fuel]; [simpl in Hf; lia|]. simpl in Hf.
    cbn [print_contents]. unfold bind at 1. unfold cend_ at 1, ret at 1.
    unfold iter_ne. rewrite bool_decide_true by done.
    unfold deref, incr. unfold bind, load, ret. rewrite Hl. cbn [data next].
    rewrite Hl. cbn [data next].
    rewrite (IH r fuel) by (done || lia). done.
Qed.

End PrintList.

(** X24. [printList] never fails on a valid list and leaves it unchanged: it
    calls [front()] and [back()] only when the list is not empty.  It
    writes the name, the size, [Yes] or [No] for [empty()], the first and
    the last element of a non-empty list, and the elements in order. *)
Theorem printList_prints {T} (show : T → string) (name : string)
    (s : state T) (ns : list (Z * T)) :
  Inv s ns →
  printList show name s =
    Ok (("--- List '" +:+ name +:+ "' ---" +:+ endl) +:+
        ("Size: " +:+ pretty (Z.of_nat (length ns)) +:+ ", Empty: " +:+
         (if bool_decide (ns = []) then "Yes" else "No") +:+ endl) +:+
        match head ns.*2, last ns.*2 with
        | Some f, Some b =>
            "Front: " +:+ show f +:+ ", Back: " +:+ show b +:+ endl
        | _, _ => EmptyString
        end +:+
        "Contents: [ " +:+ contents_text show ns.*2 +:+ "]" +:+ endl +:+ endl)
       s.
Proof.
  intros HI. pose proof (front_run _ _ HI) as Hfront.
  pose proof (back_run _ _ HI) as Hback.
  pose proof HI as (Hok & Hs & Hc)%Inv_obj.
  pose proof (chain_length_live _ _ _ Hc) as Hlive.
  pose proof (print_contents_run show _ s _ ns Hc Hlive) as Hprint.
  assert (list_size (self s) = Z.of_nat (length ns)) as Hsz by (by rewrite Hs).
  assert (head_ (self s) = head_of ns) as Hhd by (by rewrite Hs).
  unfold printList, bind. rewrite size_run, empty_run, Hsz.
  rewrite empty_run, Hsz.
  destruct ns as [|[a x] ns].
  - cbn [length]. change (Z.of_nat 0 =? 0) with true. cbn [negb].
    unfold ret at 1. unfold cbegin_, get_head. rewrite Hhd. by rewrite Hprint.
  - assert ((Z.of_nat (length ((a, x) :: ns)) =? 0) = false) as ->.
    { apply Z.eqb_neq. simpl. lia. }
    cbn [negb]. rewrite Hfront, Hback.
    rewrite bool_decide_false by done.
    assert (∃ b, last ((a, x) :: ns).*2 = Some b ∧
                 last ((a, x) :: ns) = Some (tail_of ((a, x) :: ns), b))
      as (b & Hb1 & Hb2).
    { assert ((a, x) :: ns ≠ []) as Hne by discriminate.
      destruct (chain_tail_lookup _ _ _ Hc Hne) as (ns' & y & Hns & _).
      exists y. split.
      - rewrite Hns, fmap_app. apply last_snoc.
      - rewrite Hns at 1. apply last_snoc. }
    rewrite Hb1, Hb2. unfold ret at 1.
    unfold cbegin_, get_head. rewrite Hhd. by rewrite Hprint.
Qed.

(** Printing [10, 20, 30]. *)
Lemma printList_prints_witness :
  Inv example_state example_nodes ∧
  ∃ text, printList pretty "list1" example_state = Ok text example_state.
Proof.
  assert (Inv example_state example_nodes) as HI.
  { apply Inv_computed; vm_compute; reflexivity. }
  split; [exact HI|]. eexists.
  exact (printList_prints pretty "list1" example_state example_nodes HI).
Defined.

(** ** Exceptions *)

Section Exceptions.
Context {T : Type}.
Implicit Types (h : heap T) (p q : Z) (s : state T) (e : exn).

Lemma delete_chain_no_throw p s e s' : delete_chain p s ≠ Throw e s'.
Proof. unfold delete_chain. by destruct (destroy _ _ _). Qed.

Lemma reset_no_throw u q s e s' : reset u q s ≠ Throw e s'.
Proof.
  destruct s as [[hd tl sz] h]. destruct u as [|p]; munfold;
    unfold delete_chain; simpl; intros; by crunch.
Qed.

Lemma release_no_throw u s e s' : release u s ≠ Throw e s'.
Proof.
  destruct s as [[hd tl sz] h]. destruct u as [|p]; munfold; simpl;
    intros; by crunch.
Qed.

Lemma reverse_loop_no_throw fuel prev cur s e s' :
  reverse_loop fuel prev cur s ≠ Throw e s'.
Proof.
  revert prev cur s. induction fuel as [|fuel IH]; intros prev cur s; simpl.
  - by case_decide.
  - case_decide; [done|]. unfold bind at 1.
    destruct (release (Next cur) s) as [nxt s1|e1 s1| |] eqn:Hr;
      [|by apply release_no_throw in Hr|done|done].
    unfold bind.
    destruct (reset (Next cur) prev s1) as [[] s2|e2 s2| |] eqn:Hs;
      [apply IH|by apply reset_no_throw in Hs|done|done].
Qed.

Lemma dtor_no_throw s e s' : dtor s ≠ Throw e s'.
Proof. unfold dtor, bind, get_head. apply delete_chain_no_throw. Qed.

Lemma op_assign_no_throw (other : SinglyLinkedList) s e s' :
  op_assign other s ≠ Throw e s'.
Proof.
  unfold op_assign. destruct (swap (self s) other) as [this' other'].
  destruct (dtor _) as [[] s1|e1 s1| |] eqn:Hd;
    [done|by apply dtor_no_throw in Hd|done|done].
Qed.

Lemma push_back_throw v s e s' :
  push_back v s = Throw e s' → e = bad_alloc ∧ s' = s.
Proof.
  destruct s as [[hd tl sz] h]. munfold. unfold delete_chain. simpl.
  intros. by crunch.
Qed.

Lemma push_front_throw v s e s' :
  push_front v s = Throw e s' → e = bad_alloc ∧ s' = s.
Proof.
  destruct s as [[hd tl sz] h]. munfold. unfold delete_chain. simpl.
  intros. by crunch.
Qed.

Lemma on_unwind_dtor_throw {A} (m : M A) s e s' :
  (∀ e1 s1, m s = Throw e1 s1 → e1 = bad_alloc) →
  on_unwind m dtor s = Throw e s' → e = bad_alloc.
Proof.
  intros Hm. unfold on_unwind.
  destruct (m s) as [a s1|e1 s1| |] eqn:Hr; [done| |done|done].
  pose proof (Hm _ _ eq_refl) as ->.
  destruct (dtor s1) as [[] s2|e2 s2| |] eqn:Hd;
    [by intros [= <- _]|by apply dtor_no_throw in Hd|done|done].
Qed.

Lemma ilist_loop_throw ilist s e s' :
  ilist_loop ilist s = Throw e s' → e = bad_alloc.
Proof.
  revert s. induction ilist as [|v ilist IH]; intros s; [done|].
  simpl. unfold bind.
  destruct (push_back v s) as [[] s1|e1 s1| |] eqn:Hp; [apply IH| |done|done].
  intros [= <- _]. by apply push_back_throw in Hp as [-> _].
Qed.

Lemma copy_loop_throw fuel it s e s' :
  copy_loop fuel it s = Throw e s' → e = bad_alloc.
Proof.
  revert it s. induction fuel as [|fuel IH]; intros it s; simpl.
  - by case_decide.
  - case_decide; [done|]. unfold deref, incr. unfold bind, load, ret.
    destruct (mem s !! it) as [n|]; [|done].
    destruct (push_back (data n) s) as [[] s1|e1 s1| |] eqn:Hp;
      [|intros [= <- _]; by apply push_back_throw in Hp as [-> _]|done|done].
    destruct (mem s1 !! it) as [n1|]; [|done]. apply IH.
Qed.

End Exceptions.

(** X25. The functions declared [noexcept] never throw, whatever the state
    they are called in: [size], [empty], [clear], [reverse], the default
    and the move constructor and the body of [operator=]; nor does the
    destructor. *)
Theorem noexcept_never_throws {T} (s s' : state T) (e : exn)
    (other : SinglyLinkedList) :
  size_ s ≠ Throw e s' ∧
  empty_ s ≠ Throw e s' ∧
  clear s ≠ Throw e s' ∧
  reverse s ≠ Throw e s' ∧
  default_ctor s ≠ Throw e s' ∧
  move_ctor other s ≠ Throw e s' ∧
  op_assign other s ≠ Throw e s' ∧
  dtor s ≠ Throw e s'.
Proof.
  split; [done|]. split; [done|]. split; [|split; [|split; [|split; [|split]]]].
  - unfold clear. unfold bind at 1.
    destruct (reset Head nullptr s) as [[] s1|e1 s1| |] eqn:Hr;
      [done|by apply reset_no_throw in Hr|done|done].
  - unfold reverse, bind, get_size. case_decide; [done|].
    destruct (release Head s) as [cur s1|e1 s1| |] eqn:Hr;
      [|by apply release_no_throw in Hr|done|done].
    unfold set_tail.
    destruct (reverse_loop _ _ _ _) as [prev s2|e2 s2| |] eqn:Hl;
      [apply reset_no_throw|by apply reverse_loop_no_throw in Hl|done|done].
  - done.
  - done.
  - apply op_assign_no_throw.
  - apply dtor_no_throw.
Qed.

(** X26. Which exception an operation can throw, whatever the state it is
    called in.  [push_front] and [push_back] throw only [std::bad_alloc],
    before anything is changed; [pop_front], [pop_back] and [front()] throw
    only [std::out_of_range], each with its own message and only when the
    head is null, [back()] only when the tail is null; [insert_after] and
    [emplace_after] throw [std::invalid_argument] at a null position and
    otherwise only [std::bad_alloc]; [erase_after] throws only
    [std::out_of_range]; the copy and the initializer-list constructor and
    copy assignment throw only [std::bad_alloc]. *)
Theorem exceptions_by_operation {T} (s s' : state T) (e : exn) :
  (∀ v, push_front v s = Throw e s' → e = bad_alloc ∧ s' = s) ∧
  (∀ v, push_back v s = Throw e s' → e = bad_alloc ∧ s' = s) ∧
  (pop_front s = Throw e s' →
   e = out_of_range "pop_front on an empty list" ∧ head_ (self s) = nullptr) ∧
  (pop_back s = Throw e s' →
   e = out_of_range "pop_back on an empty list" ∧ head_ (self s) = nullptr) ∧
  (front s = Throw e s' →
   e = out_of_range "Accessing front() on an empty list" ∧
   head_ (self s) = nullptr) ∧
  (back s = Throw e s' →
   e = out_of_range "Accessing back() on an empty list" ∧
   tail_ (self s) = nullptr) ∧
  (∀ pos v, insert_after pos v s = Throw e s' →
     (pos = nullptr ∧ e = invalid_argument "Cannot insert_after a null iterator") ∨
     (pos ≠ nullptr ∧ e = bad_alloc)) ∧
  (∀ Args pos (ctor : Args → T) args, emplace_after pos ctor args s = Throw e s' →
     (pos = nullptr ∧ e = invalid_argument "Cannot emplace_after a null iterator") ∨
     (pos ≠ nullptr ∧ e = bad_alloc)) ∧
  (∀ pos, erase_after pos s = Throw e s' →
     e = out_of_range "Cannot erase_after: no next element" ∧
     (pos = nullptr ∨ incr pos s = Ok nullptr s)) ∧
  (∀ other, copy_ctor other s = Throw e s' → e = bad_alloc) ∧
  (∀ ilist, ilist_ctor ilist s = Throw e s' → e = bad_alloc) ∧
  (∀ rhs, copy_assign rhs s = Throw e s' → e = bad_alloc).
Proof.
  split; [intros v; apply push_front_throw|].
  split; [intros v; apply push_back_throw|].
  split; [|split; [|split; [|split; [|split; [|split; [|split; [|split; [|split]]]]]]]].
  - destruct s as [[hd tl sz] h]. munfold. unfold delete_chain. simpl.
    intros. by crunch.
  - unfold pop_back, bind, get_head, get_tail, throw.
    case_decide as Hh; [by intros [= <- _]|]. case_decide.
    + destruct s as [[hd tl sz] h]. munfold. unfold delete_chain. simpl in *.
      intros. by crunch.
    + destruct (pop_back_walk _ _ _) as [c s1| | |] eqn:Hw; try done.
      * apply pop_back_walk_state in Hw as ->. destruct s as [[hd tl sz] h].
        munfold. unfold delete_chain. simpl. intros. by crunch.
      * by apply pop_back_walk_no_throw in Hw.
  - destruct s as [[hd tl sz] h]. munfold. simpl. intros. by crunch.
  - destruct s as [[hd tl sz] h]. munfold. simpl. intros. by crunch.
  - intros pos v. destruct s as [[hd tl sz] h]. munfold. unfold delete_chain.
    simpl. intros. crunch; auto.
  - intros Args pos ctor args. destruct s as [[hd tl sz] h]. munfold.
    unfold delete_chain. simpl. intros. crunch; auto.
  - intros pos. destruct s as [[hd tl sz] h]. unfold incr. munfold.
    unfold delete_chain. simpl. intros. crunch; auto.
  - intros other. destruct s as [l h]. unfold copy_ctor, bind.
    rewrite default_ctor_run.
    apply on_unwind_dtor_throw. intros e1 s1. unfold bind.
    apply copy_loop_throw.
  - intros ilist. destruct s as [l h]. unfold ilist_ctor, bind.
    rewrite default_ctor_run.
    apply on_unwind_dtor_throw. intros e1 s1. apply ilist_loop_throw.
  - intros rhs. unfold copy_assign, bind, with_object.
    destruct (copy_ctor rhs _) as [[] s1|e1 s1| |] eqn:Hc; [| |done|done].
    + cbn [snd self mem]. intros Hr. by apply op_assign_no_throw in Hr.
    + intros [= <- _]. revert Hc. unfold copy_ctor, bind.
      rewrite default_ctor_run. apply on_unwind_dtor_throw.
      intros e2 s2. unfold bind. apply copy_loop_throw.
Qed.

(** The empty list. *)
Lemma exceptions_by_operation_witness :
  pop_front empty_state =
    Throw (out_of_range "pop_front on an empty list") empty_state ∧
  out_of_range "pop_front on an empty list" =
    out_of_range "pop_front on an empty list" ∧
  head_ (self empty_state) = nullptr.
Proof.
  assert (pop_front empty_state =
          Throw (out_of_range "pop_front on an empty list") empty_state) as Hr.
  { vm_compute. reflexivity. }
  split; [exact Hr|].
  exact (proj1 (proj2 (proj2 (exceptions_by_operation empty_state empty_state
                                (out_of_range "pop_front on an empty list"))))
               Hr).
Defined.
